(** * Karaoke player: lyric synchronisation, line grouping and song processing

    A shallow embedding of [frontend/src/components/KaraokePlayer.js]
    (and of the part of [App.js] that owns the [isProcessing] flag).

    Conventions of the embedding:
    - a JS number holding a time in seconds is a binary64 [float] with the
      IEEE 754 operations of the kernel ([+], [-], [<=?], [<?]); a decimal
      literal stands for the nearest binary64 value, as in JS;
    - an index that may be [-1] is a [Z];
    - a JS array is a [list], [arr[i]] is the stdpp lookup [arr !! i]
      ([undefined] is [None]);
    - the React state cells are the fields of the record [Render], the live
      component is a [Player]; a handler or callback created by a render [r]
      is a function [Player -> Player] that reads the cells from [r] (its
      closure) and the refs from the player;
    - the [<audio>] element follows the DOM: an assignment to its
      [currentTime] throws on a value that is not finite and otherwise seeks
      inside the media; a handler that makes this assignment is a function
      [Player -> option Player], [None] being the exception. *)

From Stdlib Require Import ZArith Floats Lia Ascii.
From stdpp Require Import base option list strings.

#[local] Set Warnings "-inexact-float".
#[local] Open Scope Z_scope.

(** ** Data *)

(** One element of [karaokeData.lyrics]. *)
Record Word : Type := mkWord {
  text : string;
  start : float;
  end_ : float
}.

(** The response of [GET /karaoke/:id]; [karaokeData?.lyrics] may be absent. *)
Record KaraokeData : Type := mkKaraokeData {
  lyrics : option (list Word);
  audio_url : string
}.

(** [a >= b] and [a > b] on JS numbers ([a < b] is [a <? b]); every
    comparison with a NaN is false. *)
Definition geb (a b : float) : bool := (b <=? a)%float.
Definition gtb (a b : float) : bool := (b <? a)%float.

(** ** The scan of [updateProgress]

    [[
      let foundIndex = -1;
      for (let i = 0; i < karaokeData.lyrics.length; i++) {
        const currentWord = karaokeData.lyrics[i];
        const nextWord = karaokeData.lyrics[i + 1];
        if (syncedTime >= currentWord.start) {
          if (nextWord) {
            if (syncedTime < nextWord.start) { foundIndex = i; break; }
          } else { foundIndex = i; break; }
        }
      }
    ]]

    [scanFrom i ws] runs the loop from index [i], [ws] being the elements
    [lyrics[i], lyrics[i+1], ...]; it returns the final [foundIndex]. *)
Fixpoint scanFrom (i : Z) (ws : list Word) (syncedTime : float) : Z :=
  match ws with
  | [] => -1
  | currentWord :: rest =>
      if geb syncedTime (start currentWord) then
        match rest with
        | nextWord :: _ =>
            if (syncedTime <? start nextWord)%float then i
            else scanFrom (i + 1) rest syncedTime
        | [] => i
        end
      else scanFrom (i + 1) rest syncedTime
  end.

Definition foundIndex (ws : list Word) (syncedTime : float) : Z :=
  scanFrom 0 ws syncedTime.

(** ** The component

    [Render] holds the values one render of the component sees: the
    [useState] cells of [KaraokePlayer] and the [isProcessing] prop owned by
    [App]. A function created during a render (a handler, a timer callback)
    closes over that render's values and keeps them when the state moves on. *)
Record Render : Type := mkRender {
  karaokeData : option KaraokeData;
  error : option string;
  isPlaying : bool;
  currentTime : float;
  duration : float;
  currentWordIndex : Z;
  syncOffset : float;
  autoScrollEnabled : bool;
  isProcessing : bool
}.

(** The [<audio>] element behind [audioRef.current]: its playback
    position, its paused flag, and the duration of its media, which is NaN
    as long as no media data is available. The media is taken to be
    seekable over its whole length, from [0] to its duration. *)
Record Audio : Type := mkAudio {
  audio_currentTime : float;
  audio_paused : bool;
  audio_duration : float
}.

(** What a timer runs. Each callback carries the render it closes over;
    the poll callback of [processSong] reads no cell and clears its own
    interval, the timeout callback carries the identifier of the polling
    interval it clears. *)
Inductive Callback : Type :=
| CbUpdateProgress (r : Render)
| CbPoll
| CbTimeout (r : Render) (pollInterval : nat).

Inductive TimerKind : Type := Interval | Timeout.

(** One entry of the browser's timer table: [setInterval(cb, ms)] or
    [setTimeout(cb, ms)]. *)
Record Timer : Type := mkTimer {
  timer_id : nat;
  timer_kind : TimerKind;
  timer_ms : Z;
  timer_callback : Callback
}.

Inductive Request : Type :=
| GetKaraoke
| PostProcess
| GetStatus (pollInterval : nat).

#[global] Instance Request_eq_dec : EqDecision Request.
Proof. solve_decision. Defined.

(** A request whose response is awaited, with the continuation it resumes. *)
Inductive Pending : Type :=
| AwaitCached (r : Render)
| AwaitStarted (r : Render)
| AwaitStatus (pollInterval : nat)
| AwaitResult.

(** The live component: the current values of the cells, the two refs that
    matter ([currentWordRef] belongs to the layout), and the browser side:
    the timer table, the requests sent so far and the requests whose
    response is still awaited. *)
Record Player : Type := mkPlayer {
  cells : Render;
  audioRef : option Audio;
  intervalRef : option nat;
  timers : list Timer;
  nextTimer : nat;
  requests : list Request;
  awaiting : list Pending
}.

(** The [useState] setters and the [setIsProcessing] prop. *)
Definition withCells (f : Render -> Render) (p : Player) : Player :=
  mkPlayer (f (cells p)) (audioRef p) (intervalRef p) (timers p) (nextTimer p)
           (requests p) (awaiting p).

Definition setKaraokeData (v : option KaraokeData) : Player -> Player :=
  withCells (fun c => mkRender v (error c) (isPlaying c) (currentTime c)
    (duration c) (currentWordIndex c) (syncOffset c) (autoScrollEnabled c)
    (isProcessing c)).
Definition setError (v : option string) : Player -> Player :=
  withCells (fun c => mkRender (karaokeData c) v (isPlaying c) (currentTime c)
    (duration c) (currentWordIndex c) (syncOffset c) (autoScrollEnabled c)
    (isProcessing c)).
Definition setIsPlaying (v : bool) : Player -> Player :=
  withCells (fun c => mkRender (karaokeData c) (error c) v (currentTime c)
    (duration c) (currentWordIndex c) (syncOffset c) (autoScrollEnabled c)
    (isProcessing c)).
Definition setCurrentTime (v : float) : Player -> Player :=
  withCells (fun c => mkRender (karaokeData c) (error c) (isPlaying c) v
    (duration c) (currentWordIndex c) (syncOffset c) (autoScrollEnabled c)
    (isProcessing c)).
Definition setCurrentWordIndex (v : Z) : Player -> Player :=
  withCells (fun c => mkRender (karaokeData c) (error c) (isPlaying c)
    (currentTime c) (duration c) v (syncOffset c) (autoScrollEnabled c)
    (isProcessing c)).
Definition setAutoScrollEnabled (v : bool) : Player -> Player :=
  withCells (fun c => mkRender (karaokeData c) (error c) (isPlaying c)
    (currentTime c) (duration c) (currentWordIndex c) (syncOffset c) v
    (isProcessing c)).
Definition setIsProcessing (v : bool) : Player -> Player :=
  withCells (fun c => mkRender (karaokeData c) (error c) (isPlaying c)
    (currentTime c) (duration c) (currentWordIndex c) (syncOffset c)
    (autoScrollEnabled c) v).

(** Assignments to the refs and to the audio element. *)
Definition setAudioRef (a : option Audio) (p : Player) : Player :=
  mkPlayer (cells p) a (intervalRef p) (timers p) (nextTimer p)
           (requests p) (awaiting p).
Definition setIntervalRef (i : option nat) (p : Player) : Player :=
  mkPlayer (cells p) (audioRef p) i (timers p) (nextTimer p)
           (requests p) (awaiting p).

(** The playback position of the element becomes [t]: playback has moved
    on, or a seek has landed on [t]. *)
Definition audio_seek (t : float) (a : Audio) : Audio :=
  mkAudio t (audio_paused a) (audio_duration a).

(** Where a seek to [t] lands in a media of duration [mediaDuration]: not
    after the end of the media and not before its start. While no media
    data is available (the duration is NaN) nothing is sought: [t] is kept
    as the position to start from, and read back as it is. *)
Definition landing (mediaDuration t : float) : float :=
  if is_nan mediaDuration then t
  else if (mediaDuration <? t)%float then mediaDuration
  else if (t <? 0)%float then 0%float
  else t.

(** [audioRef.current.currentTime = t]. The attribute is a [double] of the
    DOM: a value that is not finite (NaN, an infinity) is refused with a
    [TypeError] before anything is stored, which is [None]; a finite value
    makes the element seek. *)
Definition audio_setCurrentTime (t : float) (a : Audio) : option Audio :=
  if is_finite t then Some (audio_seek (landing (audio_duration a) t) a)
  else None.

(** [audioRef.current.play()]. *)
Definition audio_play (a : Audio) : Audio :=
  mkAudio (audio_currentTime a) false (audio_duration a).

(** [setInterval(cb, ms)] / [setTimeout(cb, ms)]: a fresh identifier, a new
    entry in the timer table. *)
Definition addTimer (k : TimerKind) (cb : Callback) (ms : Z) (p : Player)
  : nat * Player :=
  (nextTimer p,
   mkPlayer (cells p) (audioRef p) (intervalRef p)
            (timers p ++ [mkTimer (nextTimer p) k ms cb]) (S (nextTimer p))
            (requests p) (awaiting p)).
Definition setInterval := addTimer Interval.
Definition setTimeout := addTimer Timeout.

(** The entry [id] leaves the table: [clearInterval(id)] (an unknown
    identifier is ignored), and a timeout that has fired. *)
Definition removeTimer (id : nat) (p : Player) : Player :=
  mkPlayer (cells p) (audioRef p) (intervalRef p)
           (filter (fun t => timer_id t ≠ id) (timers p)) (nextTimer p)
           (requests p) (awaiting p).
Definition clearInterval := removeTimer.

Definition lyricsOf (k : option KaraokeData) : option (list Word) :=
  k ≫= lyrics.

(** [updateProgress], as created by the render [r]: [karaokeData],
    [syncOffset] and [currentWordIndex] are the closure's, the audio element
    is read through the ref. *)
Definition updateProgress (r : Render) (p : Player) : Player :=
  match audioRef p, lyricsOf (karaokeData r) with
  | Some audio, Some ws =>
      let actualTime := audio_currentTime audio in
      let p := setCurrentTime actualTime p in
      let syncedTime := (actualTime + syncOffset r)%float in
      let found := foundIndex ws syncedTime in
      if negb (found =? -1) && negb (found =? currentWordIndex r)
      then setCurrentWordIndex found p
      else p
  | _, _ => p
  end.

(** [handleLyricClick(word, index)], as created by the render [r]. The
    assignment to [audioRef.current.currentTime] is the first thing the
    handler writes: when it throws, the handler ends there and has changed
    nothing, which is [None]. *)
Definition handleLyricClick (r : Render) (word : Word) (index : Z) (p : Player)
  : option Player :=
  match audioRef p with
  | None => Some p
  | Some audio =>
      let targetTime := (start word - syncOffset r)%float in
      audio ← audio_setCurrentTime targetTime audio;
      let p := setAudioRef (Some audio) p in
      let p := setCurrentTime targetTime p in
      let p := setCurrentWordIndex index p in
      let p := setAutoScrollEnabled true p in
      if negb (isPlaying r) then
        let p := setAudioRef (audio_play <$> audioRef p) p in
        let '(id, p) := setInterval (CbUpdateProgress r) 100 p in
        let p := setIntervalRef (Some id) p in
        Some (setIsPlaying true p)
      else Some p
  end.

(** ** Grouping words into lines *)

(** [{ ...word, index }]: the word's fields and its position in the lyrics. *)
Record LineWord : Type := mkLineWord {
  lw_word : Word;
  index : nat
}.

Definition Line : Type := list LineWord.

(** [arr.forEach((x, index) => ...)], the callback updating the variables
    it closes over (here a state [St]). *)
Fixpoint forEachFrom {A St : Type} (f : A → nat → St → St) (index : nat)
    (arr : list A) (st : St) : St :=
  match arr with
  | [] => st
  | x :: rest => forEachFrom f (S index) rest (f x index st)
  end.

Definition forEach {A St : Type} (f : A → nat → St → St) (arr : list A)
    (st : St) : St :=
  forEachFrom f 0 arr st.

Fixpoint lastChar (s : string) : option Ascii.ascii :=
  match s with
  | EmptyString => None
  | String c EmptyString => Some c
  | String _ s' => lastChar s'
  end.

Definition punctuation : list Ascii.ascii := [".";  "!"; "?"; ","; ";"; ":"]%char.

(** [/[.!?,;:]$/.test(text)]: without the [m] flag [$] is the end of the
    string, so the test looks at the last character only. *)
Definition endsWithPunctuation (s : string) : bool :=
  match lastChar s with
  | Some c => existsb (Ascii.eqb c) punctuation
  | None => false
  end.

(** The two local variables of [groupWordsIntoLines]. *)
Record Grouping : Type := mkGrouping {
  lines : list Line;
  currentLine : Line
}.

(** The test at the end of the [forEach] callback, [currentLine] being the
    line after the push. *)
Definition startsNewLine (lyrics : list Word) (word : Word) (index : nat)
    (currentLine : Line) : bool :=
  let nextWord := lyrics !! (index + 1)%nat in
  let largeGap :=
    match nextWord with
    | Some nextWord => gtb (start nextWord - end_ word)%float 0.8%float
    | None => false
    end in
  let lineTooLong := (12 <=? length currentLine)%nat in
  endsWithPunctuation (text word) || largeGap || lineTooLong
  || negb (bool_decide (is_Some nextWord)).

(** The [forEach] callback. *)
Definition groupWord (lyrics : list Word) (word : Word) (index : nat)
    (g : Grouping) : Grouping :=
  let currentLine := currentLine g ++ [mkLineWord word index] in
  if startsNewLine lyrics word index currentLine
  then mkGrouping (lines g ++ [currentLine]) []
  else mkGrouping (lines g) currentLine.

Definition groupLyrics (lyrics : list Word) : list Line :=
  lines (forEach (groupWord lyrics) lyrics (mkGrouping [] [])).

Definition groupWordsIntoLines (r : Render) : list Line :=
  match lyricsOf (karaokeData r) with
  | None => []
  | Some lyrics => groupLyrics lyrics
  end.

(** The loop's variables after the callback has run on the first [n] words. *)
Definition groupingAfter (lyrics : list Word) (n : nat) : Grouping :=
  forEach (groupWord lyrics) (take n lyrics) (mkGrouping [] []).

(** The [onClick] that [renderLyrics] gives the [<span>] of [word], an
    element of a line: [() => handleLyricClick(word, word.index)]. *)
Definition onClickWord (r : Render) (word : LineWord)
  : Player → option Player :=
  handleLyricClick r (lw_word word) (Z.of_nat (index word)).

(** ** [groupWordsIntoLines] on the heap

    The same function with the JS objects it touches made explicit, to
    account for what it writes. The heap is a list of objects, a reference is
    a position in it. A word object has the fields of [Word] and, on the
    copies made by [{ ...word, index }], the field [index]; an array holds
    references. A computation takes a heap and returns a value and a heap,
    or fails on a reference that does not hold what the code expects. *)
Inductive Obj : Type :=
| ObjWord (w : Word) (index : option nat)
| ObjArray (elems : list nat).

Definition M (A : Type) : Type := list Obj → option (A * list Obj).

Definition ret {A : Type} (a : A) : M A := fun h => Some (a, h).

Definition bind {A B : Type} (m : M A) (f : A → M B) : M B :=
  fun h => match m h with
           | Some (a, h') => f a h'
           | None => None
           end.

Notation "x ←← m ; f" := (bind m (fun x => f))
  (at level 100, m at next level, right associativity, only parsing).

(** A new object ([{...}], [[...]], [[]]). *)
Definition alloc (o : Obj) : M nat :=
  fun h => Some (length h, h ++ [o]).

(** Reading the fields of a word object. *)
Definition readWord (l : nat) : M Word :=
  fun h => match h !! l with
           | Some (ObjWord w _) => Some (w, h)
           | _ => None
           end.

(** Reading the elements of an array. *)
Definition readArray (l : nat) : M (list nat) :=
  fun h => match h !! l with
           | Some (ObjArray elems) => Some (elems, h)
           | _ => None
           end.

(** [arr.push(x)]: the array object is updated in place. *)
Definition push (arr x : nat) : M unit :=
  fun h => match h !! arr with
           | Some (ObjArray elems) =>
               Some ((), <[arr := ObjArray (elems ++ [x])]> h)
           | _ => None
           end.

(** The [forEach] callback: [lyrics] and [lines] are the arrays behind
    [karaokeData.lyrics] and [const lines]; the variable [currentLine] is
    passed in and its new value returned. *)
Definition groupWordH (lyrics lines word index currentLine : nat) : M nat :=
  w ←← readWord word;
  item ←← alloc (ObjWord w (Some index));
  _ ←← push currentLine item;
  words ←← readArray lyrics;
  let nextWord := words !! (index + 1)%nat in
  next ←← match nextWord with
          | Some n => (x ←← readWord n; ret (Some x))
          | None => ret None
          end;
  let largeGap :=
    match next with
    | Some n => gtb (start n - end_ w)%float 0.8%float
    | None => false
    end in
  elems ←← readArray currentLine;
  let lineTooLong := (12 <=? length elems)%nat in
  if endsWithPunctuation (text w) || largeGap || lineTooLong
     || negb (bool_decide (is_Some nextWord))
  then
    copy ←← alloc (ObjArray elems);
    _ ←← push lines copy;
    alloc (ObjArray [])
  else ret currentLine.

Fixpoint forEachH {St : Type} (f : nat → nat → St → M St) (index : nat)
    (arr : list nat) (st : St) : M St :=
  match arr with
  | [] => ret st
  | x :: rest => st' ←← f x index st; forEachH f (S index) rest st'
  end.

(** [groupWordsIntoLines], given the reference in [karaokeData?.lyrics]. *)
Definition groupWordsIntoLinesH (lyrics : option nat) : M nat :=
  match lyrics with
  | None => alloc (ObjArray [])
  | Some lyrics =>
      lines ←← alloc (ObjArray []);
      currentLine ←← alloc (ObjArray []);
      words ←← readArray lyrics;
      _ ←← forEachH (groupWordH lyrics lines) 0 words currentLine;
      ret lines
  end.

(** What a reference stands for. *)
Definition wordAt (h : list Obj) (l : nat) : option Word :=
  match h !! l with
  | Some (ObjWord w _) => Some w
  | _ => None
  end.

Definition lineWordAt (h : list Obj) (l : nat) : option LineWord :=
  match h !! l with
  | Some (ObjWord w (Some i)) => Some (mkLineWord w i)
  | _ => None
  end.

Definition arrayAt {A : Type} (elem : list Obj → nat → option A)
    (h : list Obj) (l : nat) : option (list A) :=
  match h !! l with
  | Some (ObjArray elems) => mapM (elem h) elems
  | _ => None
  end.

Definition lyricsAt : list Obj → nat → option (list Word) := arrayAt wordAt.
Definition lineAt : list Obj → nat → option Line := arrayAt lineWordAt.
Definition linesAt : list Obj → nat → option (list Line) := arrayAt lineAt.

(** Every object of [h] is still there, unchanged, in [h']. *)
Definition preserved (h h' : list Obj) : Prop :=
  ∀ l o, h !! l = Some o → h' !! l = Some o.

(** ** Processing a song *)

(** What [await axios...] gives: the response data, or an exception with
    [err.response?.status] and [err.response?.data?.detail]. *)
Inductive Response (A : Type) : Type :=
| Resolved (data : A)
| Rejected (status : option Z) (detail : option string).
Arguments Resolved {A} data.
Arguments Rejected {A} status detail.

(** The body of [GET /status/:id]. *)
Record StatusData : Type := mkStatusData {
  status : string;
  status_error : option string;
  status_message : option string
}.

Inductive Reply : Type :=
| ReplyKaraoke (resp : Response KaraokeData)
| ReplyProcess (resp : Response unit)
| ReplyStatus (resp : Response StatusData).

(** [a || b] on values that are strings or absent: the empty string is
    falsy. *)
Definition truthy (s : option string) : option string :=
  match s with
  | Some EmptyString => None
  | _ => s
  end.

Definition orElse (a : option string) (b : string) : string :=
  default b (truthy a).

(** [str.includes(search)]. *)
Fixpoint includes (str search : string) : bool :=
  String.prefix search str
  || match str with
     | EmptyString => false
     | String _ rest => includes rest search
     end.

Definition downloadExplanation : string :=
  "❌ This video cannot be downloaded. It may be restricted, age-gated, or unavailable in your region. Please try a different song.".
Definition conversionExplanation : string :=
  "❌ Failed to convert audio format. This video may be incompatible. Please try a different song.".
Definition separationExplanation : string :=
  "❌ Failed to separate vocals and instrumental. Please try a different song.".

(** [statusResponse.data.error || statusResponse.data.message ||
    'Processing failed']. *)
Definition errorMsg (d : StatusData) : string :=
  match truthy (status_error d) with
  | Some e => e
  | None => orElse (status_message d) "Processing failed"
  end.

Definition userFriendlyError (errorMsg : string) : string :=
  if includes errorMsg "Downloaded file not found"
     || includes errorMsg "downloaded file is empty"
  then downloadExplanation
  else if includes errorMsg "Failed to convert"
  then conversionExplanation
  else if includes errorMsg "Separation" || includes errorMsg "Demucs"
  then separationExplanation
  else errorMsg.

Definition request (q : Request) (k : Pending) (p : Player) : Player :=
  mkPlayer (cells p) (audioRef p) (intervalRef p) (timers p) (nextTimer p)
           (requests p ++ [q]) (awaiting p ++ [k]).

Definition resume (k : nat) (p : Player) : Player :=
  mkPlayer (cells p) (audioRef p) (intervalRef p) (timers p) (nextTimer p)
           (requests p) (delete k (awaiting p)).

(** [processSong], as created by the render [r], up to its first [await]. *)
Definition processSong (r : Render) (p : Player) : Player :=
  let p := setError None p in
  request GetKaraoke (AwaitCached r) p.

(** [processSong] after [await axios.get(`/karaoke/${song.id}`)]. *)
Definition processSong_cached (r : Render) (resp : Response KaraokeData)
    (p : Player) : Player :=
  match resp with
  | Resolved data =>
      let p := setKaraokeData (Some data) p in
      setIsProcessing false p
  | Rejected status detail =>
      if bool_decide (status = Some 404) then
        request PostProcess (AwaitStarted r) p
      else
        let p := setError (Some (orElse detail "Failed to load karaoke data")) p in
        setIsProcessing false p
  end.

(** [processSong] after [await axios.post(`/process/${song.id}`)]. *)
Definition processSong_started (r : Render) (resp : Response unit)
    (p : Player) : Player :=
  match resp with
  | Resolved _ =>
      let '(pollInterval, p) := setInterval CbPoll 2000 p in
      let '(_, p) := setTimeout (CbTimeout r pollInterval) 300000 p in
      p
  | Rejected _ detail =>
      let p := setError (Some (orElse detail "Failed to start processing")) p in
      setIsProcessing false p
  end.

(** The polling callback up to its [await]. *)
Definition poll (pollInterval : nat) (p : Player) : Player :=
  request (GetStatus pollInterval) (AwaitStatus pollInterval) p.

(** The polling callback after [await axios.get(`/status/${song.id}`)]; a
    rejected request lands in [catch (pollErr)], which only logs. *)
Definition poll_status (pollInterval : nat) (resp : Response StatusData)
    (p : Player) : Player :=
  match resp with
  | Resolved data =>
      if String.eqb (status data) "ready" then
        let p := clearInterval pollInterval p in
        request GetKaraoke AwaitResult p
      else if String.eqb (status data) "failed"
              || String.eqb (status data) "error" then
        let p := clearInterval pollInterval p in
        let p := setError (Some (userFriendlyError (errorMsg data))) p in
        setIsProcessing false p
      else p
  | Rejected _ _ => p
  end.

(** The polling callback after [await axios.get(`/karaoke/${song.id}`)]. *)
Definition poll_result (resp : Response KaraokeData) (p : Player) : Player :=
  match resp with
  | Resolved data =>
      let p := setKaraokeData (Some data) p in
      setIsProcessing false p
  | Rejected _ _ => p
  end.

(** The callback of [setTimeout(..., 300000)], created by the render [r]. *)
Definition pollTimeout (r : Render) (pollInterval : nat) (p : Player) : Player :=
  let p := clearInterval pollInterval p in
  if isProcessing r then
    let p := setError (Some "Processing timeout. Please try again.") p in
    setIsProcessing false p
  else p.

(** ** The event loop

    What the browser can do to the component between two renders: fire a
    timer of the table, deliver the response of an awaited request, or
    deliver a click on the "Try Again" button, which is rendered when
    [error] is set and runs the [processSong] of the current render.
    [step] is [None] for an event that cannot happen in the state. *)
Inductive Event : Type :=
| TimerFires (id : nat)
| Arrives (k : nat) (reply : Reply)
| ClickTryAgain.

Definition runCallback (id : nat) (cb : Callback) (p : Player) : Player :=
  match cb with
  | CbUpdateProgress r => updateProgress r p
  | CbPoll => poll id p
  | CbTimeout r pollInterval => pollTimeout r pollInterval p
  end.

Definition findTimer (id : nat) (p : Player) : option Timer :=
  head (filter (fun t => timer_id t = id) (timers p)).

Definition step (p : Player) (e : Event) : option Player :=
  match e with
  | TimerFires id =>
      t ← findTimer id p;
      let p :=
        match timer_kind t with
        | Interval => p
        | Timeout => removeTimer id p
        end in
      Some (runCallback id (timer_callback t) p)
  | Arrives k reply =>
      pending ← awaiting p !! k;
      match pending, reply with
      | AwaitCached r, ReplyKaraoke resp =>
          Some (processSong_cached r resp (resume k p))
      | AwaitStarted r, ReplyProcess resp =>
          Some (processSong_started r resp (resume k p))
      | AwaitStatus pollInterval, ReplyStatus resp =>
          Some (poll_status pollInterval resp (resume k p))
      | AwaitResult, ReplyKaraoke resp =>
          Some (poll_result resp (resume k p))
      | _, _ => None
      end
  | ClickTryAgain =>
      if bool_decide (is_Some (error (cells p)))
      then Some (processSong (cells p) p)
      else None
  end.

Fixpoint run (p : Player) (es : list Event) : option Player :=
  match es with
  | [] => Some p
  | e :: es => p ← step p e; run p es
  end.

(** [App.handleSongSelect] sets [isProcessing] to [true] and mounts the
    player, whose cells take their initial values; the mount effect then
    calls the [processSong] of that first render. *)
Definition firstRender : Render :=
  mkRender None None false 0%float 0%float (-1) 0.2%float true true.

Definition mounted : Player :=
  processSong firstRender (mkPlayer firstRender None None [] 1%nat [] []).

(** ** Vocabulary of the properties *)

(** Token [i] satisfies the selection condition at [syncedTime]: it has
    started, and it is the last one or the next one has not started. *)
Definition activeAt (ws : list Word) (syncedTime : float) (i : nat) : Prop :=
  ∃ w, ws !! i = Some w ∧ geb syncedTime (start w) = true ∧
       (S i = length ws ∨
        ∃ n, ws !! S i = Some n ∧ (syncedTime <? start n)%float = true).

(** [x] is a number (not NaN). *)
Definition number (x : float) : Prop := (x <=? x)%float = true.

(** The words are in the order of their start times. *)
Fixpoint sortedByStart (ws : list Word) : bool :=
  match ws with
  | w :: rest =>
      match rest with
      | n :: _ => (start w <=? start n)%float && sortedByStart rest
      | [] => true
      end
  | [] => true
  end.

(** The objects [groupWordsIntoLines] builds from the lyrics: word [i]
    with [index] set to [i]. *)
Definition lineWords (lyrics : list Word) : list LineWord :=
  imap (fun i w => mkLineWord w i) lyrics.

(** The callback run on word [i] pushes a line. *)
Definition closesLineAfter (lyrics : list Word) (i : nat) : Prop :=
  ∃ line, lines (groupingAfter lyrics (S i)) =
          lines (groupingAfter lyrics i) ++ [line].

(** [s] ends with the character [c]. *)
Definition endsWith (s : string) (c : Ascii.ascii) : Prop :=
  ∃ pre, s = pre +:+ String c EmptyString.

(** A run of progress ticks: before each tick the audio position may have
    moved (playback, a seek), and each tick runs the [updateProgress] of
    some render. *)
Definition ticks (p : Player) (ts : list (Render * float)) : Player :=
  foldl (fun p '(r, t) =>
           updateProgress r (setAudioRef (audio_seek t <$> audioRef p) p))
        p ts.

(** A render with lyrics loaded, and a player showing it with the audio
    element at [t]. *)
Definition loadedRender (ws : list Word) (t : float) (i : Z) (offset : float)
    (playing : bool) : Render :=
  mkRender (Some (mkKaraokeData (Some ws) "/audio/song.mp3")) None playing t
           240 i offset true false.

Definition loadedPlayer (ws : list Word) (t : float) (i : Z) (offset : float)
    (playing : bool) : Player :=
  mkPlayer (loadedRender ws t i offset playing)
           (Some (mkAudio t (negb playing) 240)) None [] 1%nat [] [].

(** [msg] contains [phrase] as a substring. *)
Definition contains (msg phrase : string) : Prop :=
  ∃ pre post, msg = pre +:+ phrase +:+ post.

Definition downloadPhrase (msg : string) : Prop :=
  contains msg "Downloaded file not found" ∨
  contains msg "downloaded file is empty".
Definition conversionPhrase (msg : string) : Prop :=
  contains msg "Failed to convert".
Definition separationPhrase (msg : string) : Prop :=
  contains msg "Separation" ∨ contains msg "Demucs".

(** A poll response that ends the polling, and one that does not: the
    request failed, or the status is none of [ready], [failed], [error]. *)
Definition terminalStatus (d : StatusData) : bool :=
  String.eqb (status d) "ready" || String.eqb (status d) "failed"
  || String.eqb (status d) "error".

Definition nonTerminal (resp : Response StatusData) : bool :=
  match resp with
  | Resolved d => negb (terminalStatus d)
  | Rejected _ _ => true
  end.

(** The number of status requests sent for the polling interval [id]. *)
Definition statusRequests (id : nat) (p : Player) : nat :=
  length (filter (fun q => q = GetStatus id) (requests p)).

(** The timer [id] is not (or no longer) in the table, and its identifier
    has been handed out. *)
Definition cleared (id : nat) (p : Player) : Prop :=
  (id < nextTimer p)%nat ∧ ∀ t, t ∈ timers p → timer_id t ≠ id.

Definition notFound : Reply := ReplyKaraoke (Rejected (Some 404) None).
Definition accepted : Reply := ReplyProcess (Resolved ()).
Definition stillProcessing : Response StatusData :=
  Resolved (mkStatusData "processing" None None).

(** The polls of the interval [id], one per response, each answered before
    the next timer fires. *)
Definition polls (id : nat) (resps : list (Response StatusData))
  : list Event :=
  resps ≫= fun resp => [TimerFires id; Arrives 0 (ReplyStatus resp)].

(** A run that enters polling: the cache has nothing and processing is
    accepted; the polls get the responses [resps]; then the timeout fires.
    The interval is timer [1], the timeout timer [2]. *)
Definition startsPolling : list Event :=
  [ Arrives 0 notFound; Arrives 0 accepted ].

Definition pollsUntilTimeout (resps : list (Response StatusData))
  : list Event :=
  startsPolling ++ polls 1 resps ++ [ TimerFires 2 ].

(** The first run fails at once (the backend is unreachable: no response,
    so no status and no detail), which shows the error and "Try Again". *)
Definition firstRunFails : list Event :=
  [ Arrives 0 (ReplyKaraoke (Rejected None None)) ].

(** The user clicks "Try Again", and the second run enters polling. *)
Definition retryTimesOut (resps : list (Response StatusData))
  : list Event :=
  ClickTryAgain :: pollsUntilTimeout resps.

(** The render in which "Try Again" is clicked, and the component when the
    second run has entered polling. *)
Definition retryRender : Render :=
  mkRender None (Some "Failed to load karaoke data") false 0%float 0%float
           (-1) 0.2%float true false.

Definition retryPolling : Player :=
  mkPlayer (mkRender None None false 0%float 0%float (-1) 0.2%float true false)
           None None
           [ mkTimer 1 Interval 2000 CbPoll;
             mkTimer 2 Timeout 300000 (CbTimeout retryRender 1) ]
           3%nat [GetKaraoke; GetKaraoke; PostProcess] [].

(** The component when the run started by the mount effect has entered
    polling. *)
Definition mountPolling : Player :=
  mkPlayer firstRender None None
           [ mkTimer 1 Interval 2000 CbPoll;
             mkTimer 2 Timeout 300000 (CbTimeout firstRender 1) ]
           3%nat [GetKaraoke; PostProcess] [].

(** From [h] to [h'] word objects are kept as they are and arrays remain
    arrays: what allocations and pushes do to a heap. *)
Definition grows (h h' : list Obj) : Prop :=
  ∀ l, match h !! l with
       | Some (ObjWord w i) => h' !! l = Some (ObjWord w i)
       | Some (ObjArray _) => ∃ elems, h' !! l = Some (ObjArray elems)
       | None => True
       end.

(** The loop of [groupWordsIntoLinesH] in heap [h], started in heap [h0]:
    nothing of [h0] has changed, the arrays behind [lines] and [currentLine]
    were allocated by the call, and they hold the lines and the current line
    of the grouping [g]. *)
Definition groupingInv (h0 : list Obj) (linesRef : nat) (h : list Obj)
    (currentLineRef : nat) (g : Grouping) : Prop :=
  preserved h0 h ∧
  (length h0 ≤ linesRef)%nat ∧ (linesRef < currentLineRef)%nat ∧
  (currentLineRef < length h)%nat ∧
  (∃ ls, h !! linesRef = Some (ObjArray ls) ∧
         Forall2 (fun l x => lineAt h l = Some x ∧ (linesRef < l)%nat ∧
                             (l < currentLineRef)%nat) ls (lines g)) ∧
  (∃ elems, h !! currentLineRef = Some (ObjArray elems) ∧
            Forall2 (fun e x => lineWordAt h e = Some x) elems
                    (currentLine g)).

(** The lyrics of the scenarios as objects: two word objects and the
    array of [karaokeData.lyrics], at reference 2. *)
Definition scenario_heap : list Obj :=
  [ ObjWord (mkWord "Hello" 1.0 1.4) None;
    ObjWord (mkWord "world" 1.5 2.0) None;
    ObjArray [0; 1]%nat ].

Definition scenario_tokens : list Word :=
  [ mkWord "Hello" 1.0 1.4; mkWord "world" 1.5 2.0 ].

(** ** The other handlers of the player *)

(** [if (intervalRef.current) clearInterval(intervalRef.current)]: [null]
    and the number [0] are falsy. *)
Definition truthyId (i : option nat) : option nat :=
  match i with
  | Some O => None
  | _ => i
  end.

Definition clearIntervalRef (p : Player) : Player :=
  match truthyId (intervalRef p) with
  | Some id => clearInterval id p
  | None => p
  end.

(** [audioRef.current.pause()]. *)
Definition audio_pause (a : Audio) : Audio :=
  mkAudio (audio_currentTime a) true (audio_duration a).

Definition setDuration (v : float) : Player → Player :=
  withCells (fun c => mkRender (karaokeData c) (error c) (isPlaying c)
    (currentTime c) v (currentWordIndex c) (syncOffset c) (autoScrollEnabled c)
    (isProcessing c)).

(** [handlePlayPause], as created by the render [r]. *)
Definition handlePlayPause (r : Render) (p : Player) : Player :=
  match audioRef p, karaokeData r with
  | Some audio, Some _ =>
      let p :=
        if isPlaying r then
          let p := setAudioRef (Some (audio_pause audio)) p in
          clearIntervalRef p
        else
          let p := setAudioRef (Some (audio_play audio)) p in
          let '(id, p) := setInterval (CbUpdateProgress r) 100 p in
          setIntervalRef (Some id) p in
      setIsPlaying (negb (isPlaying r)) p
  | _, _ => p
  end.

(** The [keydown] listener of the render [r]; the boolean tells whether
    [e.preventDefault()] was called. *)
Definition handleKeyPress (r : Render) (code : string) (p : Player)
  : Player * bool :=
  if String.eqb code "Space" && bool_decide (is_Some (karaokeData r))
     && negb (isProcessing r)
  then (handlePlayPause r p, true)
  else (p, false).

(** [!duration]: the numbers [0], [-0] and NaN are falsy. *)
Definition falsyNumber (x : float) : bool :=
  (x =? 0)%float || negb (x =? x)%float.

(** [handleProgressClick(e)], as created by the render [r]: [clientX] is
    [e.clientX], [left] and [width] are those of the bounding rectangle of
    the progress bar. As in [handleLyricClick], [None] is the [TypeError]
    of the assignment to [audioRef.current.currentTime], before which
    nothing is written. *)
Definition handleProgressClick (r : Render) (clientX left width : float)
    (p : Player) : option Player :=
  match audioRef p with
  | None => Some p
  | Some audio =>
      if falsyNumber (duration r) then Some p
      else
        let clickX := (clientX - left)%float in
        let newTime := ((clickX / width) * duration r)%float in
        audio ← audio_setCurrentTime newTime audio;
        let p := setAudioRef (Some audio) p in
        Some (setCurrentTime newTime p)
  end.

(** [onEnded] of the audio element. *)
Definition onEnded (p : Player) : Player :=
  let p := setIsPlaying false p in
  clearIntervalRef p.

(** [onLoadedMetadata] of the audio element. *)
Definition onLoadedMetadata (p : Player) : Player :=
  match audioRef p with
  | Some audio => setDuration (audio_duration audio) p
  | None => p
  end.

(** The cleanup of the mount effect, run when the player is unmounted. *)
Definition unmount (p : Player) : Player := clearIntervalRef p.

(** The [scroll] listener of the render [r]. *)
Definition handleScroll (r : Render) (p : Player) : Player :=
  if autoScrollEnabled r then setAutoScrollEnabled false p else p.

(** [currentWordRef.current.getBoundingClientRect()]. *)
Record Rect : Type := mkRect {
  rect_top : float;
  rect_bottom : float
}.

(** The effect run when [currentWordIndex] changes, in the render [r]:
    [currentWord] is the rectangle of the element behind [currentWordRef]
    ([None] when the ref is empty), [windowHeight] is [window.innerHeight];
    the boolean tells whether [scrollIntoView] was called. *)
Definition autoScrollEffect (r : Render) (currentWord : option Rect)
    (windowHeight : float) (p : Player) : Player * bool :=
  match currentWord with
  | None => (p, false)
  | Some rect =>
      let isInViewport :=
        geb (rect_top rect) 0 && (rect_bottom rect <=? windowHeight)%float in
      if isInViewport then (setAutoScrollEnabled true p, true)
      else ((if autoScrollEnabled r then setAutoScrollEnabled false p else p),
            false)
  end.

(** ** Rendering the lyrics *)

(** A [<span>] of a word and the [<div>] of a line, as [renderLyrics]
    builds them: the class names, and whether [currentWordRef] is attached
    to the line. *)
Record RenderedWord : Type := mkRenderedWord {
  rw_word : LineWord;
  rw_className : string
}.

Record RenderedLine : Type := mkRenderedLine {
  rl_key : nat;
  rl_className : string;
  rl_ref : bool;
  rl_words : list RenderedWord
}.

(** [[
      let currentLineIndex = -1;
      lines.forEach((line, lineIdx) => {
        line.forEach((word) => {
          if (word.index === currentWordIndex) currentLineIndex = lineIdx;
        });
      });
    ]] *)
Definition findCurrentLine (currentWordIndex : Z) (line : Line) (lineIdx : nat)
    (currentLineIndex : Z) : Z :=
  forEach (fun (word : LineWord) (_ : nat) (currentLineIndex : Z) =>
             if Z.of_nat (index word) =? currentWordIndex
             then Z.of_nat lineIdx else currentLineIndex)
          line currentLineIndex.

Definition currentLineIndexOf (lines : list Line) (currentWordIndex : Z) : Z :=
  forEach (findCurrentLine currentWordIndex) lines (-1).

Definition renderWord (currentWordIndex : Z) (word : LineWord) : RenderedWord :=
  mkRenderedWord word
    (if Z.of_nat (index word) =? currentWordIndex
     then "lyric-word-inline active" else "lyric-word-inline ").

Definition renderLine (currentWordIndex currentLineIndex : Z) (lineIdx : nat)
    (line : Line) : RenderedLine :=
  let lineClassName :=
    if Z.of_nat lineIdx <? currentLineIndex then "lyric-line past"
    else if Z.of_nat lineIdx =? currentLineIndex then "lyric-line current"
    else "lyric-line future" in
  mkRenderedLine lineIdx lineClassName (Z.of_nat lineIdx =? currentLineIndex)
                 (renderWord currentWordIndex <$> line).

(** [renderLyrics], in the render [r]; [None] is the [null] returned when
    there are no lyrics. *)
Definition renderLyrics (r : Render) : option (list RenderedLine) :=
  match lyricsOf (karaokeData r) with
  | None => None
  | Some _ =>
      let lines := groupWordsIntoLines r in
      let currentLineIndex := currentLineIndexOf lines (currentWordIndex r) in
      Some (imap (renderLine (currentWordIndex r) currentLineIndex) lines)
  end.

(** The line holds the word whose index is [c]. *)
Definition holdsWord (c : Z) (line : Line) : bool :=
  existsb (fun x => Z.of_nat (index x) =? c) line.

(** [b] follows [a] inside a line: it is the next word of the lyrics, [a]
    does not end with punctuation and the gap from [a] to [b] is not large. *)
Definition follows (a b : LineWord) : Prop :=
  index b = S (index a) ∧
  endsWithPunctuation (text (lw_word a)) = false ∧
  gtb (start (lw_word b) - end_ (lw_word a))%float 0.8%float = false.

Definition joined (line : list LineWord) : Prop :=
  ∀ k a b, line !! k = Some a → line !! S k = Some b → follows a b.

(** A run that enters polling and whose last poll finds the song ready:
    the polls before it get the responses [resps], the last one the status
    [d], and the song is then fetched. *)
Definition pollsUntilReady (resps : list (Response StatusData))
    (d : StatusData) (data : KaraokeData) : list Event :=
  startsPolling ++ polls 1 resps
  ++ [ TimerFires 1; Arrives 0 (ReplyStatus (Resolved d));
       Arrives 0 (ReplyKaraoke (Resolved data)) ].

(** Nothing is scheduled: no timer in the table, no response awaited. *)
Definition quiescent (p : Player) : Prop :=
  timers p = [] ∧ awaiting p = [].

(** ** The component in the browser

    What is rendered depends on the cells: the lyrics, the [<audio>]
    element and the controls are rendered under
    [karaokeData && !isProcessing]. *)
Definition loadedView (r : Render) : bool :=
  bool_decide (is_Some (karaokeData r)) && negb (isProcessing r).

(** A new [<audio>] element: at position [0], paused, no media data yet. *)
Definition newAudio : Audio := mkAudio 0 true nan.

(** Committing a render attaches [audioRef] to the [<audio>] element when
    it is rendered, and sets it to [null] when it is not. *)
Definition commit (p : Player) : Player :=
  if loadedView (cells p) then
    match audioRef p with
    | None => setAudioRef (Some newAudio) p
    | Some _ => p
    end
  else setAudioRef None p.

(** [currentWordRef.current] in the render [r]: the [<div>] of the current
    line, whose rectangle is [rect], when [renderLyrics] gives a line the
    ref. *)
Definition currentWordRefOf (r : Render) (rect : Rect) : option Rect :=
  if loadedView r then
    match renderLyrics r with
    | Some rendered => if existsb rl_ref rendered then Some rect else None
    | None => None
    end
  else None.

(** The render whose [keydown] listener is registered when the cells are
    [c]: the effect that registers it depends on [karaokeData],
    [isProcessing] (a prop) and [isPlaying], so the listener holds the
    current values of these and the values some earlier render [stale] had
    of the other cells; [syncOffset] never changes. *)
Definition listenerRender (c stale : Render) : Render :=
  mkRender (karaokeData c) (error stale) (isPlaying c) (currentTime stale)
           (duration stale) (currentWordIndex stale) (syncOffset c)
           (autoScrollEnabled stale) (isProcessing c).

(** What can happen to the mounted component: an event of the browser side
    of [processSong], a click on the play button, a key, a click on word
    [i] of the lyrics, a click on the progress bar, the audio element
    moving on, its [timeupdate], [ended] and [loadedmetadata] events, a
    scroll of the window, and the effect that follows a change of
    [currentWordIndex]. *)
Inductive UiEvent : Type :=
| Browser (e : Event)
| ClickPlayPause
| KeyDown (stale : Render) (code : string)
| ClickLyric (i : nat)
| ClickProgress (clientX rectLeft width : float)
| AudioMoves (t : float)
| TimeUpdate
| EndedEvent
| LoadedMetadata (mediaDuration : float)
| Scroll
| WordChanged (rect : Rect) (windowHeight : float).

(** The handlers of the elements are those of the current render; an
    element that is not rendered gets no event ([None]). A handler that
    throws leaves the component as it was. When the metadata of the media
    arrive, the element has its duration before [onLoadedMetadata] runs. *)
Definition handle (p : Player) (e : UiEvent) : option Player :=
  let r := cells p in
  match e with
  | Browser e => step p e
  | ClickPlayPause =>
      if loadedView r then Some (handlePlayPause r p) else None
  | KeyDown stale code =>
      Some (fst (handleKeyPress (listenerRender r stale) code p))
  | ClickLyric i =>
      if loadedView r then
        lyrics ← lyricsOf (karaokeData r);
        w ← lyrics !! i;
        Some (default p (onClickWord r (mkLineWord w i) p))
      else None
  | ClickProgress clientX rectLeft width =>
      if loadedView r then
        Some (default p (handleProgressClick r clientX rectLeft width p))
      else None
  | AudioMoves t =>
      audio ← audioRef p;
      Some (setAudioRef (Some (audio_seek t audio)) p)
  | TimeUpdate =>
      if loadedView r then Some (updateProgress r p) else None
  | EndedEvent =>
      if loadedView r then Some (onEnded p) else None
  | LoadedMetadata mediaDuration =>
      if loadedView r then
        audio ← audioRef p;
        let audio := mkAudio (audio_currentTime audio) (audio_paused audio)
                             mediaDuration in
        Some (onLoadedMetadata (setAudioRef (Some audio) p))
      else None
  | Scroll => Some (handleScroll r p)
  | WordChanged rect windowHeight =>
      Some (fst (autoScrollEffect r (currentWordRefOf r rect) windowHeight p))
  end.

(** One event, and the render that follows it. *)
Definition uiStep (p : Player) (e : UiEvent) : option Player :=
  commit <$> handle p e.

Fixpoint uiRun (p : Player) (es : list UiEvent) : option Player :=
  match es with
  | [] => Some p
  | e :: es => p ← uiStep p e; uiRun p es
  end.






(** The timers that run [updateProgress]. *)
Definition isProgress (t : Timer) : bool :=
  match timer_callback t with
  | CbUpdateProgress _ => true
  | _ => false
  end.

Definition progressTimers (p : Player) : list Timer :=
  filter (fun t => isProgress t = true) (timers p).

(** The identifiers of polling intervals the browser side still holds: of
    the polling intervals themselves, in the timeouts that will clear them
    and in the polls that wait for their response. *)
Definition timerRefs (ts : list Timer) : list nat :=
  ts ≫= fun t =>
    match timer_callback t with
    | CbPoll => [timer_id t]
    | CbTimeout _ pollInterval => [pollInterval]
    | CbUpdateProgress _ => []
    end.

Definition pendingRefs (aw : list Pending) : list nat :=
  aw ≫= fun k =>
    match k with
    | AwaitStatus pollInterval => [pollInterval]
    | _ => []
    end.

(** The timer table is well formed: identifiers are handed out in order
    and name one callback each, a polling identifier held somewhere is not
    the identifier of a progress timer, and [intervalRef.current], when
    set, is a non-zero identifier that names progress timers only. *)
Definition timersOkOf (ts : list Timer) (nt : nat) (iref : option nat)
    (aw : list Pending) : Prop :=
  (0 < nt)%nat ∧
  (∀ t, t ∈ ts → (timer_id t < nt)%nat) ∧
  (∀ t t', t ∈ ts → t' ∈ ts → timer_id t = timer_id t' →
           timer_callback t = timer_callback t') ∧
  (∀ pid, pid ∈ timerRefs ts ++ pendingRefs aw →
          (pid < nt)%nat ∧
          ∀ t, t ∈ ts → timer_id t = pid → isProgress t = false) ∧
  (∀ id, iref = Some id →
         (0 < id < nt)%nat ∧
         ∀ t, t ∈ ts → timer_id t = id → isProgress t = true).

Definition timersOk (p : Player) : Prop :=
  timersOkOf (timers p) (nextTimer p) (intervalRef p) (awaiting p).

(** While [isPlaying] is set there is one progress timer, the interval of
    100 ms that [intervalRef.current] names; while it is not, there is
    none. *)
Definition playIntervalOf (ts : list Timer) (iref : option nat)
    (playing : bool) : Prop :=
  if playing then
    ∃ id r, iref = Some id ∧
            filter (fun t => isProgress t = true) ts
            = [mkTimer id Interval 100 (CbUpdateProgress r)]
  else filter (fun t => isProgress t = true) ts = [].

Definition playInterval (p : Player) : Prop :=
  playIntervalOf (timers p) (intervalRef p) (isPlaying (cells p)).

(** A song, and two sessions: in the first the song is cached, the user
    starts playback, clicks the second word, pauses with the space bar and
    clicks the first word; in the second the song is processed and loaded,
    the timeout of that run fires, the user clicks "Try Again", the cache
    has lost the song and a second processing is polled while the user
    starts playback. *)
Definition scenario_song : KaraokeData :=
  mkKaraokeData (Some scenario_tokens) "/audio/a.mp3".

Definition scenario_session : list UiEvent :=
  [ Browser (Arrives 0 (ReplyKaraoke (Resolved scenario_song)));
    ClickPlayPause; ClickLyric 1; KeyDown firstRender "Space"; ClickLyric 0 ].

Definition scenario_reprocessing : list UiEvent :=
  [ Browser (Arrives 0 notFound); Browser (Arrives 0 accepted);
    Browser (TimerFires 1);
    Browser (Arrives 0 (ReplyStatus (Resolved (mkStatusData "ready" None None))));
    Browser (Arrives 0 (ReplyKaraoke (Resolved scenario_song)));
    Browser (TimerFires 2);
    Browser ClickTryAgain;
    Browser (Arrives 0 notFound); Browser (Arrives 0 accepted);
    ClickPlayPause ].

(** From [p] to [q] the processing side is left alone: the requests, the
    awaited responses, and the cells [error], [karaokeData] and
    [isProcessing]. *)
Definition sameProcessing (p q : Player) : Prop :=
  requests q = requests p ∧ awaiting q = awaiting p ∧
  error (cells q) = error (cells p) ∧
  karaokeData (cells q) = karaokeData (cells p) ∧
  isProcessing (cells q) = isProcessing (cells p).

(** * Properties *)

(** ** Order of binary64 numbers *)

Section SpecOrder.
Import SpecFloat.

Ltac sf_cases :=
  simpl; try discriminate; try reflexivity;
  repeat match goal with s : bool |- _ => destruct s end;
  simpl; try discriminate; try reflexivity;
  rewrite ?Pos.compare_cont_spec; simpl.

Ltac cmp_cases :=
  repeat match goal with
    | |- context [Z.compare ?a ?b] => destruct (Z.compare_spec a b)
    | |- context [Pos.compare ?a ?b] => destruct (Pos.compare_spec a b)
    end;
  simpl; try discriminate; try reflexivity; try lia.

Lemma SFleb_trans x y z :
  SFleb x y = true → SFleb y z = true → SFleb x z = true.
Proof.
  unfold SFleb.
  destruct x as [sx|sx| |sx mx ex], y as [sy|sy| |sy my ey],
           z as [sz|sz| |sz mz ez]; sf_cases.
  all: destruct (Z.compare_spec ex ey), (Z.compare_spec ey ez),
         (Z.compare_spec ex ez);
       simpl; try discriminate; try reflexivity; try lia; subst.
  all: destruct (Pos.compare_spec mx my), (Pos.compare_spec my mz),
         (Pos.compare_spec mx mz);
       simpl; try discriminate; try reflexivity; try lia.
Qed.

Lemma SFltb_not_leb x y : SFltb x y = true → SFleb y x = false.
Proof.
  unfold SFltb, SFleb.
  destruct x as [sx|sx| |sx mx ex], y as [sy|sy| |sy my ey]; sf_cases.
  all: cmp_cases.
Qed.

Lemma SFleb_refl_l x y : SFleb x y = true → SFleb x x = true.
Proof.
  unfold SFleb.
  destruct x as [sx|sx| |sx mx ex], y as [sy|sy| |sy my ey]; sf_cases.
  all: rewrite Z.compare_refl, ?Pos.compare_refl; reflexivity.
Qed.

Lemma SFleb_refl_r x y : SFleb x y = true → SFleb y y = true.
Proof.
  unfold SFleb.
  destruct x as [sx|sx| |sx mx ex], y as [sy|sy| |sy my ey]; sf_cases.
  all: rewrite Z.compare_refl, ?Pos.compare_refl; reflexivity.
Qed.

Lemma SFltb_total x y :
  SFleb x x = true → SFleb y y = true → SFltb x y = false →
  SFleb y x = true.
Proof.
  unfold SFltb, SFleb.
  destruct x as [sx|sx| |sx mx ex], y as [sy|sy| |sy my ey]; sf_cases.
  all: intros _ _; cmp_cases.
Qed.
End SpecOrder.

Lemma leb_trans (x y z : float) :
  (x <=? y)%float = true → (y <=? z)%float = true → (x <=? z)%float = true.
Proof. rewrite !leb_spec. apply SFleb_trans. Qed.

Lemma ltb_not_leb (x y : float) :
  (x <? y)%float = true → (y <=? x)%float = false.
Proof. rewrite ltb_spec, leb_spec. apply SFltb_not_leb. Qed.

Lemma leb_number_l (x y : float) : (x <=? y)%float = true → number x.
Proof. unfold number. rewrite !leb_spec. apply SFleb_refl_l. Qed.

Lemma leb_number_r (x y : float) : (x <=? y)%float = true → number y.
Proof. unfold number. rewrite !leb_spec. apply SFleb_refl_r. Qed.

Lemma ltb_total (x y : float) :
  number x → number y → (x <? y)%float = false → (y <=? x)%float = true.
Proof. unfold number. rewrite ltb_spec, !leb_spec. apply SFltb_total. Qed.

(** ** The scan *)

Lemma activeAt_nil t i : ¬ activeAt [] t i.
Proof. intros (w & Hw & _). discriminate. Qed.

Lemma activeAt_cons_S w ws t i :
  activeAt (w :: ws) t (S i) ↔ activeAt ws t i.
Proof.
  unfold activeAt. simpl.
  split; intros (x & Hx & Hge & Hnext); exists x; (split; [exact Hx|]);
    (split; [exact Hge|]);
    (destruct Hnext as [Hlast|Hn]; [left; lia | right; exact Hn]).
Qed.

Lemma activeAt_cons_0 w ws t :
  activeAt (w :: ws) t 0 ↔
  geb t (start w) = true ∧
  match ws with
  | [] => True
  | n :: _ => (t <? start n)%float = true
  end.
Proof.
  unfold activeAt. simpl. split.
  - intros (x & [= <-] & Hge & Hnext). split; [exact Hge|].
    destruct ws as [|n ws]; [exact I|].
    destruct Hnext as [Hlast|(m & [= <-] & Hlt)]; [discriminate | exact Hlt].
  - intros [Hge Hnext]. exists w. repeat split; try assumption.
    destruct ws as [|n ws]; [left; reflexivity | right; eauto].
Qed.

(** The loop returns [-1] when no token satisfies the condition, and
    otherwise the first index that does. *)
Lemma scanFrom_spec ws : ∀ k t,
  (scanFrom k ws t = -1 ∧ ∀ i, ¬ activeAt ws t i) ∨
  (∃ i : nat, scanFrom k ws t = k + Z.of_nat i ∧ activeAt ws t i ∧
              ∀ j : nat, (j < i)%nat → ¬ activeAt ws t j).
Proof.
  induction ws as [|w rest IH]; intros k t.
  - left. split; [reflexivity | apply activeAt_nil].
  - assert (Hrec :
      ¬ activeAt (w :: rest) t 0 →
      (scanFrom (k + 1) rest t = -1 ∧ ∀ i, ¬ activeAt (w :: rest) t i) ∨
      (∃ i : nat, scanFrom (k + 1) rest t = k + Z.of_nat i ∧
                  activeAt (w :: rest) t i ∧
                  ∀ j : nat, (j < i)%nat → ¬ activeAt (w :: rest) t j)).
    { intros H0. destruct (IH (k + 1) t) as [[He Hn]|(i & He & Ha & Hm)].
      - left. split; [exact He|]. intros [|i]; [exact H0|].
        rewrite activeAt_cons_S. apply Hn.
      - right. exists (S i). split; [rewrite He; lia|].
        split; [apply activeAt_cons_S; exact Ha|].
        intros [|j] Hj; [exact H0|]. rewrite activeAt_cons_S. apply Hm. lia. }
    simpl. destruct (geb t (start w)) eqn:Hge.
    + destruct rest as [|n rest'].
      * right. exists 0%nat. split; [lia|]. split; [|intros j Hj; lia].
        apply activeAt_cons_0. split; [exact Hge | exact I].
      * destruct (t <? start n)%float eqn:Hlt.
        -- right. exists 0%nat. split; [lia|]. split; [|intros j Hj; lia].
           apply activeAt_cons_0. split; assumption.
        -- apply Hrec. rewrite activeAt_cons_0. intros [_ H]. congruence.
    + apply Hrec. rewrite activeAt_cons_0. intros [H _]. congruence.
Qed.

Lemma foundIndex_first ws t (i : nat) :
  foundIndex ws t = Z.of_nat i ↔
  activeAt ws t i ∧ ∀ j : nat, (j < i)%nat → ¬ activeAt ws t j.
Proof.
  unfold foundIndex.
  destruct (scanFrom_spec ws 0 t) as [[He Hn]|(i' & He & Ha & Hm)].
  - split; [lia|]. intros [Ha _]. destruct (Hn _ Ha).
  - split.
    + intros E. assert (i' = i) as -> by lia. split; assumption.
    + intros [Hai Hmi]. destruct (Nat.lt_trichotomy i i') as [Hlt|[->|Hgt]].
      * destruct (Hm _ Hlt Hai).
      * lia.
      * destruct (Hmi _ Hgt Ha).
Qed.

Lemma foundIndex_none ws t :
  foundIndex ws t = -1 ↔ ∀ i, ¬ activeAt ws t i.
Proof.
  unfold foundIndex.
  destruct (scanFrom_spec ws 0 t) as [[He Hn]|(i' & He & Ha & Hm)].
  - split; [intros _; exact Hn | intros _; exact He].
  - split; [lia|]. intros Hn. destruct (Hn _ Ha).
Qed.

Lemma scanFrom_range ws : ∀ k t,
  scanFrom k ws t = -1 ∨ k <= scanFrom k ws t < k + Z.of_nat (length ws).
Proof.
  intros k t.
  destruct (scanFrom_spec ws k t) as [[He _]|(i & He & (w & Hw & _) & _)].
  - left. exact He.
  - right. apply lookup_lt_Some in Hw. lia.
Qed.

Lemma foundIndex_range ws t :
  foundIndex ws t = -1 ∨ 0 <= foundIndex ws t < Z.of_nat (length ws).
Proof. apply (scanFrom_range ws 0 t). Qed.

(** ** The scan on sorted lyrics *)

Lemma sortedByStart_tail w rest :
  sortedByStart (w :: rest) = true → sortedByStart rest = true.
Proof.
  simpl. destruct rest as [|n rest']; [reflexivity|].
  intros H. apply andb_prop in H. apply H.
Qed.

Lemma sortedByStart_head_le w rest :
  sortedByStart (w :: rest) = true →
  ∀ i x, rest !! i = Some x → (start w <=? start x)%float = true.
Proof.
  revert w. induction rest as [|n rest' IH]; intros w Hs i x Hx.
  - discriminate.
  - simpl in Hs. apply andb_prop in Hs as [Hwn Hs'].
    destruct i as [|i]; simpl in Hx.
    + injection Hx as <-. exact Hwn.
    + eapply leb_trans; [exact Hwn|]. eapply IH; eassumption.
Qed.

Lemma sortedByStart_lookup ws :
  sortedByStart ws = true →
  ∀ i j a b, (i < j)%nat → ws !! i = Some a → ws !! j = Some b →
             (start a <=? start b)%float = true.
Proof.
  induction ws as [|w rest IH]; intros Hs i j a b Hij Ha Hb.
  - discriminate.
  - destruct j as [|j]; [lia|]. simpl in Hb. destruct i as [|i]; simpl in Ha.
    + injection Ha as <-. eapply sortedByStart_head_le; eassumption.
    + eapply (IH (sortedByStart_tail _ _ Hs) i j); [lia|eassumption..].
Qed.

(** Before the first word of sorted lyrics has started, no later word has. *)
Lemma scanFrom_not_started w rest t :
  sortedByStart (w :: rest) = true → geb t (start w) = false →
  ∀ k, scanFrom k rest t = -1.
Proof.
  intros Hs Hge k.
  destruct (scanFrom_spec rest k t) as [[He _]|(i & _ & (x & Hx & Hxt & _) & _)];
    [exact He|].
  unfold geb in *.
  pose proof (sortedByStart_head_le _ _ Hs _ _ Hx) as Hwx.
  rewrite (leb_trans _ _ _ Hwx Hxt) in Hge. discriminate.
Qed.

Lemma scanFrom_cons k w rest t :
  scanFrom k (w :: rest) t =
  if geb t (start w) then
    match rest with
    | n :: _ => if (t <? start n)%float then k else scanFrom (k + 1) rest t
    | [] => k
    end
  else scanFrom (k + 1) rest t.
Proof. reflexivity. Qed.

(** Once the first word of sorted lyrics has started, the scan finds a word. *)
Lemma scanFrom_started rest : ∀ w k t,
  sortedByStart (w :: rest) = true → geb t (start w) = true →
  k <= scanFrom k (w :: rest) t.
Proof.
  induction rest as [|n rest' IH]; intros w k t Hs Hge;
    rewrite scanFrom_cons, Hge.
  - lia.
  - destruct (t <? start n)%float eqn:Hlt; [lia|].
    pose proof Hs as Hs'. simpl in Hs'. apply andb_prop in Hs' as [Hwn _].
    assert (geb t (start n) = true) as Hn.
    { apply ltb_total; [exact (leb_number_r _ _ Hge)
                       | exact (leb_number_r _ _ Hwn) | exact Hlt]. }
    specialize (IH n (k + 1) t (sortedByStart_tail _ _ Hs) Hn). lia.
Qed.

Lemma scanFrom_mono ws : ∀ k t1 t2,
  0 <= k → sortedByStart ws = true → (t1 <=? t2)%float = true →
  scanFrom k ws t1 <= scanFrom k ws t2.
Proof.
  induction ws as [|w rest IH]; intros k t1 t2 Hk Hs Ht; [simpl; lia|].
  pose proof (sortedByStart_tail _ _ Hs) as Hs'.
  destruct (geb t1 (start w)) eqn:Hge1.
  - assert (geb t2 (start w) = true) as Hge2
      by (unfold geb in *; eapply leb_trans; eassumption).
    rewrite !(scanFrom_cons k), Hge1, Hge2. destruct rest as [|n rest']; [lia|].
    pose proof Hs as Hwn. simpl in Hwn. apply andb_prop in Hwn as [Hwn _].
    destruct (t1 <? start n)%float eqn:Hlt1.
    + destruct (t2 <? start n)%float eqn:Hlt2; [lia|].
      assert (geb t2 (start n) = true) as Hn.
      { apply ltb_total; [exact (leb_number_r _ _ Ht)
                         | exact (leb_number_r _ _ Hwn) | exact Hlt2]. }
      pose proof (scanFrom_started rest' n (k + 1) t2 Hs' Hn). lia.
    + assert ((start n <=? t1)%float = true) as Hn1.
      { apply ltb_total; [exact (leb_number_l _ _ Ht)
                         | exact (leb_number_r _ _ Hwn) | exact Hlt1]. }
      destruct (t2 <? start n)%float eqn:Hlt2.
      * apply ltb_not_leb in Hlt2.
        rewrite (leb_trans _ _ _ Hn1 Ht) in Hlt2. discriminate.
      * apply IH; [lia | exact Hs' | exact Ht].
  - replace (scanFrom k (w :: rest) t1) with (-1).
    + destruct (scanFrom_range (w :: rest) k t2); lia.
    + rewrite scanFrom_cons, Hge1. symmetry.
      eapply scanFrom_not_started; eassumption.
Qed.

Lemma activeAt_sorted_unique ws t i j :
  sortedByStart ws = true → activeAt ws t i → activeAt ws t j → i = j.
Proof.
  intros Hs.
  assert (∀ i j, (i < j)%nat → activeAt ws t i → activeAt ws t j → False)
    as Hlt.
  { clear i j. intros i j Hij (a & Ha & _ & Hnext) (b & Hb & Hbt & _).
    unfold geb in Hbt. apply lookup_lt_Some in Hb as Hjlen.
    destruct Hnext as [Hlast|(n & Hn & Hnt)]; [lia|].
    apply ltb_not_leb in Hnt.
    destruct (decide (S i = j)) as [Heq|Hne].
    - subst j. rewrite Hn in Hb. injection Hb as <-. congruence.
    - assert ((start n <=? start b)%float = true) as Hnb.
      { eapply (sortedByStart_lookup ws Hs (S i) j); [lia|eassumption..]. }
      rewrite (leb_trans _ _ _ Hnb Hbt) in Hnt. discriminate. }
  intros Hi Hj. destruct (Nat.lt_trichotomy i j) as [H|[H|H]];
    [destruct (Hlt _ _ H Hi Hj) | exact H | destruct (Hlt _ _ H Hj Hi)].
Qed.

(** What a tick stores: the found index, unless the scan found nothing or
    found the index the closure already knows. *)
Lemma updateProgress_index r p audio ws :
  audioRef p = Some audio → lyricsOf (karaokeData r) = Some ws →
  let found := foundIndex ws (audio_currentTime audio + syncOffset r)%float in
  currentWordIndex (cells (updateProgress r p)) =
  if bool_decide (found = -1 ∨ found = currentWordIndex r)
  then currentWordIndex (cells p) else found.
Proof.
  intros Ha Hl. unfold updateProgress. rewrite Ha, Hl. simpl.
  destruct (Z.eqb_spec
    (foundIndex ws (audio_currentTime audio + syncOffset r)%float) (-1));
  destruct (Z.eqb_spec
    (foundIndex ws (audio_currentTime audio + syncOffset r)%float)
    (currentWordIndex r)); simpl.
  all: case_bool_decide; try reflexivity; try tauto.
Qed.

Lemma updateProgress_not_loaded r p :
  audioRef p = None ∨ lyricsOf (karaokeData r) = None →
  updateProgress r p = p.
Proof.
  unfold updateProgress. intros [->| ->]; [reflexivity|].
  destruct (audioRef p); reflexivity.
Qed.

(** C1 (amended): at the synced time [currentTime + syncOffset] the scan
    selects the first index [i], in index order, such that
    [syncedTime >= tokens[i].start] and ([i] is the last index or
    [syncedTime < tokens[i+1].start]); on lyrics sorted by start time that is
    the only such index; a tick whose closure is the current render stores
    the selected index; and on the tokens of scenario A, at [currentTime =
    1.6] with offset [0.0], the selected index is [1]. *)
Theorem scan_selects_first_active :
  (∀ (ws : list Word) (currentTime syncOffset : float) (i : nat),
     let syncedTime := (currentTime + syncOffset)%float in
     foundIndex ws syncedTime = Z.of_nat i ↔
     activeAt ws syncedTime i ∧
     ∀ j : nat, (j < i)%nat → ¬ activeAt ws syncedTime j) ∧
  (∀ (ws : list Word) (currentTime syncOffset : float) (i : nat),
     let syncedTime := (currentTime + syncOffset)%float in
     sortedByStart ws = true →
     (foundIndex ws syncedTime = Z.of_nat i ↔ activeAt ws syncedTime i)) ∧
  (∀ (p : Player) (audio : Audio) (ws : list Word) (i : nat),
     audioRef p = Some audio →
     lyricsOf (karaokeData (cells p)) = Some ws →
     foundIndex ws (audio_currentTime audio + syncOffset (cells p))%float
       = Z.of_nat i →
     currentWordIndex (cells (updateProgress (cells p) p)) = Z.of_nat i) ∧
  foundIndex scenario_tokens (1.6 + 0.0)%float = 1.
Proof.
  split; [|split; [|split]].
  - intros ws ct so i. apply foundIndex_first.
  - intros ws ct so i syncedTime Hs. rewrite foundIndex_first. split.
    + intros [H _]. exact H.
    + intros H. split; [exact H|]. intros j Hj Haj.
      pose proof (activeAt_sorted_unique _ _ _ _ Hs H Haj). lia.
  - intros p audio ws i Ha Hl Hf.
    rewrite (updateProgress_index _ _ _ _ Ha Hl). simpl. rewrite Hf.
    case_bool_decide as H; [|reflexivity].
    destruct H as [H|H]; [lia | symmetry; exact H].
  - reflexivity.
Qed.

(** C1, as stated, fails on lyrics that are not sorted: with starts
    [1, 5, 2] and synced time [3], token [2] satisfies the condition (it
    has started and is the last one), and the scan selects token [0]. *)
Lemma scan_unsorted_selects_other :
  let ws := [mkWord "a" 1 1.5; mkWord "b" 5 5.5; mkWord "c" 2 2.5] in
  ws ≠ [] ∧ activeAt ws (3 + 0)%float 2 ∧ foundIndex ws (3 + 0)%float = 0 ∧
  ¬ (foundIndex ws (3 + 0)%float = 2 ↔ activeAt ws (3 + 0)%float 2).
Proof.
  assert (activeAt [mkWord "a" 1 1.5; mkWord "b" 5 5.5; mkWord "c" 2 2.5]
            (3 + 0)%float 2) as Ha.
  { eexists. split; [reflexivity|]. split; [reflexivity|]. left. reflexivity. }
  split; [discriminate|]. split; [exact Ha|]. split; [reflexivity|].
  intros [_ H]. specialize (H Ha). discriminate H.
Qed.

(** C4 (amended): the scan over empty lyrics yields [-1] for every time and
    offset, and a tick over empty lyrics changes nothing but [currentTime];
    on non-empty lyrics sorted by start time, a synced time strictly before
    [tokens[0].start] yields [-1]. *)
Theorem scan_before_first_sorted :
  (∀ currentTime syncOffset : float,
     foundIndex [] (currentTime + syncOffset)%float = -1) ∧
  (∀ (r : Render) (p : Player) (audio : Audio),
     audioRef p = Some audio → lyricsOf (karaokeData r) = Some [] →
     updateProgress r p = setCurrentTime (audio_currentTime audio) p) ∧
  (∀ (w : Word) (rest : list Word) (currentTime syncOffset : float),
     sortedByStart (w :: rest) = true →
     (currentTime + syncOffset <? start w)%float = true →
     foundIndex (w :: rest) (currentTime + syncOffset)%float = -1).
Proof.
  split; [|split].
  - reflexivity.
  - intros r p audio Ha Hl. unfold updateProgress. rewrite Ha, Hl. reflexivity.
  - intros w rest ct so Hs Hlt. unfold foundIndex.
    apply ltb_not_leb in Hlt. rewrite scanFrom_cons. unfold geb. rewrite Hlt.
    eapply scanFrom_not_started; eassumption.
Qed.

Lemma scan_before_first_sorted_witness :
  sortedByStart scenario_tokens = true ∧ (0.5 + 0.0 <? 1.0)%float = true ∧
  foundIndex scenario_tokens (0.5 + 0.0)%float = -1.
Proof.
  repeat (split; [reflexivity|]).
  apply (proj2 (proj2 scan_before_first_sorted)
           (mkWord "Hello" 1.0 1.4) [mkWord "world" 1.5 2.0] 0.5%float 0.0%float);
    reflexivity.
Defined.

(** C4, as stated, fails on lyrics that are not sorted: with starts [5, 2]
    the synced time [3] is before [tokens[0].start], and the scan yields
    [1]. *)
Lemma scan_before_first_unsorted :
  let ws := [mkWord "a" 5 5.5; mkWord "b" 2 2.5] in
  (3 + 0 <? 5)%float = true ∧ foundIndex ws (3 + 0)%float = 1 ∧
  foundIndex ws (3 + 0)%float ≠ -1.
Proof. split; [reflexivity|]. split; [reflexivity|discriminate]. Qed.

(** C7: on lyrics sorted by start time, for synced times [t1 <= t2], the
    index selected at [t2] is at least the index selected at [t1] ([-1]
    being below every index). *)
Theorem scan_monotone (ws : list Word) (t1 t2 : float) :
  sortedByStart ws = true → (t1 <=? t2)%float = true →
  foundIndex ws t1 <= foundIndex ws t2.
Proof. intros Hs Ht. apply scanFrom_mono; [lia | exact Hs | exact Ht]. Qed.

Lemma scan_monotone_witness :
  sortedByStart scenario_tokens = true ∧ (0.5 <=? 1.6)%float = true ∧
  foundIndex scenario_tokens 0.5%float = -1 ∧
  foundIndex scenario_tokens 1.6%float = 1 ∧
  foundIndex scenario_tokens 0.5%float <= foundIndex scenario_tokens 1.6%float.
Proof.
  repeat (split; [reflexivity|]).
  apply (scan_monotone scenario_tokens 0.5%float 1.6%float); reflexivity.
Defined.

(** ** Grouping words into lines *)

Lemma forEachFrom_snoc {A St : Type} (f : A → nat → St → St) (x : A) arr :
  ∀ k st, forEachFrom f k (arr ++ [x]) st
          = f x (k + length arr)%nat (forEachFrom f k arr st).
Proof.
  induction arr as [|y arr IH]; intros k st; simpl.
  - rewrite Nat.add_0_r. reflexivity.
  - rewrite IH. f_equal. lia.
Qed.

Lemma groupingAfter_0 lyrics : groupingAfter lyrics 0 = mkGrouping [] [].
Proof. reflexivity. Qed.

Lemma groupingAfter_S lyrics n w :
  lyrics !! n = Some w →
  groupingAfter lyrics (S n) = groupWord lyrics w n (groupingAfter lyrics n).
Proof.
  intros Hw. unfold groupingAfter, forEach.
  rewrite (take_S_r _ _ _ Hw), forEachFrom_snoc. simpl.
  rewrite length_take_le; [reflexivity|].
  apply lookup_lt_Some in Hw. lia.
Qed.

Lemma groupingAfter_all lyrics :
  groupLyrics lyrics = lines (groupingAfter lyrics (length lyrics)).
Proof. unfold groupLyrics, groupingAfter. rewrite firstn_all. reflexivity. Qed.

Lemma startsNewLine_last lyrics w n line :
  S n = length lyrics → startsNewLine lyrics w n line = true.
Proof.
  intros Hn. unfold startsNewLine.
  rewrite (lookup_ge_None_2 lyrics (n + 1)) by lia. simpl.
  rewrite !orb_true_r. reflexivity.
Qed.

Lemma startsNewLine_false lyrics w n line :
  startsNewLine lyrics w n line = false →
  (length line < 12)%nat ∧ (S n < length lyrics)%nat.
Proof.
  unfold startsNewLine. intros H.
  apply orb_false_elim in H as [H Hnext].
  apply orb_false_elim in H as [_ Hlong].
  split; [apply Nat.leb_gt; exact Hlong|].
  apply negb_false_iff, bool_decide_eq_true in Hnext.
  destruct Hnext as [x Hx]. apply lookup_lt_Some in Hx. lia.
Qed.

(** The invariant of the loop of [groupWordsIntoLines]. *)
Lemma grouping_invariant lyrics n :
  (n ≤ length lyrics)%nat →
  let g := groupingAfter lyrics n in
  concat (lines g) ++ currentLine g = lineWords (take n lyrics) ∧
  Forall (fun line => line ≠ []) (lines g) ∧
  (length (currentLine g) < 12)%nat ∧
  (n = length lyrics → currentLine g = []).
Proof.
  induction n as [|n IH]; intros Hn.
  - rewrite groupingAfter_0. simpl. repeat split; [constructor | lia].
  - destruct (lookup_lt_is_Some_2 lyrics n) as [w Hw]; [lia|].
    destruct IH as (Hcat & Hne & Hlen & _); [lia|].
    rewrite (groupingAfter_S _ _ _ Hw). cbv zeta.
    set (g := groupingAfter lyrics n) in *.
    assert (lineWords (take (S n) lyrics)
            = lineWords (take n lyrics) ++ [mkLineWord w n]) as Hsnoc.
    { unfold lineWords. rewrite (take_S_r _ _ _ Hw), imap_app. simpl.
      rewrite length_take_le, Nat.add_0_r by lia. reflexivity. }
    unfold groupWord.
    destruct (startsNewLine lyrics w n (currentLine g ++ [mkLineWord w n]))
      eqn:Hnew; simpl.
    + repeat split.
      * rewrite Hsnoc, <- Hcat, concat_app. simpl.
        rewrite !app_nil_r, app_assoc. reflexivity.
      * apply Forall_app. split; [exact Hne|].
        constructor; [|constructor]. intros E. destruct (currentLine g); discriminate.
      * lia.
    + apply startsNewLine_false in Hnew as [Hlt Hnext]. repeat split.
      * rewrite Hsnoc, <- Hcat, app_assoc. reflexivity.
      * exact Hne.
      * exact Hlt.
      * intros E. lia.
Qed.

Lemma groupLyrics_concat lyrics :
  concat (groupLyrics lyrics) = lineWords lyrics.
Proof.
  rewrite groupingAfter_all.
  destruct (grouping_invariant lyrics (length lyrics)) as (Hcat & _ & _ & Hend);
    [lia|].
  rewrite Hend, app_nil_r, firstn_all in Hcat by reflexivity. exact Hcat.
Qed.

Lemma groupLyrics_nonempty lyrics :
  Forall (fun line => line ≠ []) (groupLyrics lyrics).
Proof.
  rewrite groupingAfter_all.
  apply (grouping_invariant lyrics (length lyrics)). lia.
Qed.

Lemma lineWords_words lyrics : lw_word <$> lineWords lyrics = lyrics.
Proof.
  unfold lineWords. rewrite fmap_imap. simpl.
  induction lyrics as [|w ws IH] using rev_ind; [reflexivity|].
  rewrite imap_app. simpl. rewrite IH. reflexivity.
Qed.

Lemma lineWords_indices lyrics :
  index <$> lineWords lyrics = seq 0 (length lyrics).
Proof.
  unfold lineWords. rewrite fmap_imap. simpl.
  induction lyrics as [|w ws IH] using rev_ind; [reflexivity|].
  rewrite imap_app, length_app, seq_app. simpl.
  rewrite IH, Nat.add_0_r. reflexivity.
Qed.

Lemma lineWords_lookup lyrics i x :
  lineWords lyrics !! i = Some x ↔
  ∃ w, lyrics !! i = Some w ∧ x = mkLineWord w i.
Proof.
  unfold lineWords. rewrite list_lookup_imap.
  destruct (lyrics !! i) as [w|]; simpl; split.
  - intros [= <-]. eauto.
  - intros (w' & [= <-] & ->). reflexivity.
  - discriminate.
  - intros (w' & [=] & _).
Qed.

Lemma elem_of_concat_lookup {A : Type} (ls : list (list A)) b lb (y : A) :
  ls !! b = Some lb → y ∈ lb → y ∈ concat ls.
Proof.
  revert b. induction ls as [|l rest IH]; intros b Hb Hy; [discriminate|].
  simpl. apply elem_of_app. destruct b as [|b]; simpl in Hb.
  - injection Hb as ->. left. exact Hy.
  - right. eapply IH; eassumption.
Qed.

(** In a list of lines whose words carry distinct indices, an index occurs
    in one line only. *)
Lemma concat_index_unique (ls : list Line) :
  NoDup (index <$> concat ls) →
  ∀ a b la lb x y, ls !! a = Some la → ls !! b = Some lb →
                   x ∈ la → y ∈ lb → index x = index y → a = b.
Proof.
  induction ls as [|l rest IH]; intros Hnd a b la lb x y Ha Hb Hx Hy Hxy;
    [discriminate|].
  simpl in Hnd. rewrite fmap_app in Hnd.
  apply NoDup_app in Hnd as (_ & Hdisj & Hrest).
  assert (∀ c lc (u v : LineWord), rest !! c = Some lc → u ∈ l → v ∈ lc →
                                   index u = index v → False) as Hcross.
  { intros c lc u v Hc Hu Hv Huv.
    apply (Hdisj (index u)); [apply list_elem_of_fmap_2; exact Hu|].
    rewrite Huv. apply list_elem_of_fmap_2.
    eapply elem_of_concat_lookup; eassumption. }
  destruct a as [|a], b as [|b]; simpl in Ha, Hb.
  - reflexivity.
  - injection Ha as ->. destruct (Hcross _ _ _ _ Hb Hx Hy Hxy).
  - injection Hb as ->. destruct (Hcross _ _ _ _ Ha Hy Hx (eq_sym Hxy)).
  - f_equal. eapply (IH Hrest a b); eassumption.
Qed.

Lemma elem_of_concat_inv {A : Type} (ls : list (list A)) (y : A) :
  y ∈ concat ls → ∃ b lb, ls !! b = Some lb ∧ y ∈ lb.
Proof.
  induction ls as [|l rest IH]; simpl; intros Hy.
  - inversion Hy.
  - apply elem_of_app in Hy as [Hy|Hy].
    + exists 0%nat, l. split; [reflexivity | exact Hy].
    + destruct (IH Hy) as (b & lb & Hb & Hin). exists (S b), lb. split; assumption.
Qed.

(** Every word of the lyrics sits, with its index, in exactly one line. *)
Lemma groupLyrics_exactly_one_line lyrics i w :
  lyrics !! i = Some w →
  ∃ l line, groupLyrics lyrics !! l = Some line ∧ mkLineWord w i ∈ line ∧
    ∀ l' line' x, groupLyrics lyrics !! l' = Some line' → x ∈ line' →
                  index x = i → l' = l.
Proof.
  intros Hw.
  assert (mkLineWord w i ∈ concat (groupLyrics lyrics)) as Hin.
  { rewrite groupLyrics_concat. apply list_elem_of_lookup. exists i.
    apply lineWords_lookup. eauto. }
  destruct (elem_of_concat_inv _ _ Hin) as (l & line & Hl & Hx).
  exists l, line. split; [exact Hl|]. split; [exact Hx|].
  intros l' line' x Hl' Hx' Hi.
  eapply (concat_index_unique (groupLyrics lyrics)); try eassumption.
  rewrite groupLyrics_concat, lineWords_indices. apply NoDup_seq.
Qed.

(** C2: the lines of [groupWordsIntoLines] partition the lyrics (absent
    lyrics counting as none): no line is empty; the lines, concatenated in
    order, are the words of the lyrics in order, each with its position as
    [index]; and every word, with its index, is in exactly one line. *)
Theorem groupWordsIntoLines_partition (r : Render) :
  let lyrics := default [] (lyricsOf (karaokeData r)) in
  let result := groupWordsIntoLines r in
  Forall (fun line => line ≠ []) result ∧
  concat result = lineWords lyrics ∧
  lw_word <$> concat result = lyrics ∧
  index <$> concat result = seq 0 (length lyrics) ∧
  ∀ i w, lyrics !! i = Some w →
    ∃ l line, result !! l = Some line ∧ mkLineWord w i ∈ line ∧
      ∀ l' line' x, result !! l' = Some line' → x ∈ line' →
                    index x = i → l' = l.
Proof.
  unfold groupWordsIntoLines.
  destruct (lyricsOf (karaokeData r)) as [lyrics|]; simpl.
  - split; [apply groupLyrics_nonempty|].
    split; [apply groupLyrics_concat|].
    split; [rewrite groupLyrics_concat; apply lineWords_words|].
    split; [rewrite groupLyrics_concat; apply lineWords_indices|].
    intros i w. apply groupLyrics_exactly_one_line.
  - repeat split; [constructor|]. intros i w Hw. discriminate.
Qed.

(** ** When a line is closed *)

Lemma lastChar_endsWith s c : lastChar s = Some c ↔ endsWith s c.
Proof.
  unfold endsWith. induction s as [|a s IH]; simpl.
  - split; [discriminate|]. intros [[|b pre] H]; discriminate.
  - destruct s as [|b s'].
    + split.
      * intros [= ->]. exists EmptyString. reflexivity.
      * intros [[|x pre] H]; simpl in H.
        -- injection H as ->. reflexivity.
        -- injection H as _ H. destruct pre; discriminate.
    + rewrite IH. split.
      * intros [pre ->]. exists (String a pre). reflexivity.
      * intros [[|x pre] H]; simpl in H; [discriminate|].
        injection H as _ H. exists pre. exact H.
Qed.

Lemma endsWithPunctuation_spec s :
  endsWithPunctuation s = true ↔ ∃ c, c ∈ punctuation ∧ endsWith s c.
Proof.
  unfold endsWithPunctuation. split.
  - destruct (lastChar s) as [c|] eqn:Hc; [|discriminate].
    intros H. exists c. split; [|apply lastChar_endsWith; exact Hc].
    apply existsb_exists in H as (x & Hx & Hcx).
    apply Ascii.eqb_eq in Hcx as ->. apply list_elem_of_In. exact Hx.
  - intros (c & Hin & Hend). apply lastChar_endsWith in Hend as ->.
    apply existsb_exists. exists c. split; [apply list_elem_of_In; exact Hin|].
    apply Ascii.eqb_refl.
Qed.

Lemma startsNewLine_iff lyrics w i line :
  startsNewLine lyrics w i line = true ↔
  (∃ c, c ∈ punctuation ∧ endsWith (text w) c) ∨
  (∃ n, lyrics !! (i + 1)%nat = Some n ∧
        gtb (start n - end_ w)%float 0.8%float = true) ∨
  (12 ≤ length line)%nat ∨
  lyrics !! (i + 1)%nat = None.
Proof.
  unfold startsNewLine. rewrite !orb_true_iff, endsWithPunctuation_spec.
  rewrite Nat.leb_le, negb_true_iff, bool_decide_eq_false.
  destruct (lyrics !! (i + 1)%nat) as [n|]; split.
  - intros [[[H|H]|H]|H]; [tauto | right; left; eauto | tauto |].
    destruct H. eauto.
  - intros [H|[(m & [= <-] & H)|[H|H]]]; [tauto.. | discriminate].
  - intros [[[H|H]|H]|H]; [tauto | discriminate | tauto | tauto].
  - intros _. right. intros [x Hx]. discriminate.
Qed.

Lemma closesLineAfter_step lyrics i w :
  lyrics !! i = Some w →
  let g := groupingAfter lyrics i in
  let line := currentLine g ++ [mkLineWord w i] in
  (closesLineAfter lyrics i ↔ startsNewLine lyrics w i line = true) ∧
  groupingAfter lyrics (S i) =
    if startsNewLine lyrics w i line
    then mkGrouping (lines g ++ [line]) []
    else mkGrouping (lines g) line.
Proof.
  intros Hw g line. unfold closesLineAfter.
  rewrite (groupingAfter_S _ _ _ Hw). unfold groupWord. fold g. fold line.
  split; [|reflexivity].
  destruct (startsNewLine lyrics w i line); simpl.
  - split; [reflexivity|]. intros _. eauto.
  - split; [|discriminate]. intros [x Hx].
    apply (f_equal length) in Hx. rewrite length_app in Hx. simpl in Hx. lia.
Qed.

(** The lines pushed so far stay in the result. *)
Lemma groupingAfter_lines_grow lyrics n m :
  (n ≤ m)%nat → (m ≤ length lyrics)%nat →
  ∃ more, lines (groupingAfter lyrics m) = lines (groupingAfter lyrics n) ++ more.
Proof.
  induction 1 as [|m Hnm IH]; intros Hm.
  - exists []. rewrite app_nil_r. reflexivity.
  - destruct IH as [more Hmore]; [lia|].
    destruct (lookup_lt_is_Some_2 lyrics m) as [w Hw]; [lia|].
    destruct (closesLineAfter_step lyrics m w Hw) as [_ ->].
    destruct (startsNewLine _ _ _ _); simpl.
    + exists (more ++ [currentLine (groupingAfter lyrics m) ++ [mkLineWord w m]]).
      rewrite Hmore, app_assoc. reflexivity.
    + exists more. exact Hmore.
Qed.

(** Each line pushed so far was pushed by the callback of its last word. *)
Lemma groupingAfter_lines_last lyrics n :
  (n ≤ length lyrics)%nat →
  ∀ line, line ∈ lines (groupingAfter lyrics n) →
  ∃ j wj, (j < n)%nat ∧ lyrics !! j = Some wj ∧
          last line = Some (mkLineWord wj j) ∧ closesLineAfter lyrics j.
Proof.
  induction n as [|n IH]; intros Hn line Hin.
  - rewrite groupingAfter_0 in Hin. inversion Hin.
  - destruct (lookup_lt_is_Some_2 lyrics n) as [w Hw]; [lia|].
    destruct (closesLineAfter_step lyrics n w Hw) as [Hiff Hstep].
    rewrite Hstep in Hin.
    assert (line ∈ lines (groupingAfter lyrics n) →
            ∃ j wj, (j < S n)%nat ∧ lyrics !! j = Some wj ∧
                    last line = Some (mkLineWord wj j) ∧
                    closesLineAfter lyrics j) as Hold.
    { intros H. destruct (IH ltac:(lia) line H) as (j & wj & Hj & Hrest).
      exists j, wj. split; [lia | exact Hrest]. }
    destruct (startsNewLine _ _ _ _) eqn:Hnew; simpl in Hin; [|auto].
    apply elem_of_app in Hin as [Hin|Hin]; [auto|].
    apply list_elem_of_singleton in Hin as ->.
    exists n, w. split; [lia|]. split; [exact Hw|].
    split; [apply last_snoc | apply Hiff; reflexivity].
Qed.

(** C6: the callback run on token [i] closes the current line (pushes it
    and starts an empty one) if and only if the token's text ends with one
    of [. ! ? , ; :], or token [i+1] exists and [tokens[i+1].start -
    tokens[i].end > 0.8], or the current line, token [i] included, holds 12
    tokens, or token [i] is the last one. A line is closed after token [i]
    exactly when a line of the result ends with token [i]. *)
Theorem closesLineAfter_iff (lyrics : list Word) (i : nat) (w : Word) :
  lyrics !! i = Some w →
  (closesLineAfter lyrics i ↔
     (∃ c, c ∈ punctuation ∧ endsWith (text w) c) ∨
     (∃ n, lyrics !! (i + 1)%nat = Some n ∧
           gtb (start n - end_ w)%float 0.8%float = true) ∨
     (length (currentLine (groupingAfter lyrics i)) + 1 = 12)%nat ∨
     S i = length lyrics) ∧
  (closesLineAfter lyrics i ↔
     ∃ line, line ∈ groupLyrics lyrics ∧ last line = Some (mkLineWord w i)) ∧
  (closesLineAfter lyrics i →
     currentLine (groupingAfter lyrics (S i)) = [] ∧
     lines (groupingAfter lyrics (S i)) =
       lines (groupingAfter lyrics i)
       ++ [currentLine (groupingAfter lyrics i) ++ [mkLineWord w i]]) ∧
  (¬ closesLineAfter lyrics i →
     lines (groupingAfter lyrics (S i)) = lines (groupingAfter lyrics i) ∧
     currentLine (groupingAfter lyrics (S i)) =
       currentLine (groupingAfter lyrics i) ++ [mkLineWord w i]).
Proof.
  intros Hw. pose proof (lookup_lt_Some _ _ _ Hw) as Hi.
  destruct (closesLineAfter_step lyrics i w Hw) as [Hiff Hstep].
  destruct (grouping_invariant lyrics i) as (_ & _ & Hlen & _); [lia|].
  split; [|split; [|split]].
  - rewrite Hiff, startsNewLine_iff, length_app. simpl.
    split; (intros [H|[H|[H|H]]]; [tauto | tauto | right; right; left; lia |]).
    + right. right. right. apply lookup_ge_None in H. lia.
    + right. right. right. apply lookup_ge_None. lia.
  - split.
    + intros Hc. apply Hiff in Hc. rewrite Hc in Hstep.
      exists (currentLine (groupingAfter lyrics i) ++ [mkLineWord w i]).
      split; [|apply last_snoc].
      rewrite groupingAfter_all.
      destruct (groupingAfter_lines_grow lyrics (S i) (length lyrics))
        as [more ->]; [lia..|].
      rewrite Hstep. simpl. apply elem_of_app. left. apply elem_of_app. right.
      apply list_elem_of_singleton. reflexivity.
    + intros (line & Hin & Hlast). rewrite groupingAfter_all in Hin.
      destruct (groupingAfter_lines_last lyrics (length lyrics) ltac:(lia)
                  line Hin) as (j & wj & _ & _ & Hlast' & Hc).
      rewrite Hlast in Hlast'. injection Hlast' as _ ->. exact Hc.
  - intros Hc. apply Hiff in Hc. rewrite Hstep, Hc. split; reflexivity.
  - intros Hc. rewrite Hiff in Hc. apply not_true_is_false in Hc.
    rewrite Hstep, Hc. split; reflexivity.
Qed.

Lemma closesLineAfter_iff_witness :
  closesLineAfter scenario_tokens 1 ∧ ¬ closesLineAfter scenario_tokens 0.
Proof.
  split.
  - apply (proj1 (closesLineAfter_iff scenario_tokens 1
                    (mkWord "world" 1.5 2.0) eq_refl)).
    right. right. right. reflexivity.
  - intros H.
    apply (proj1 (closesLineAfter_iff scenario_tokens 0
                    (mkWord "Hello" 1.0 1.4) eq_refl)) in H.
    destruct H as [(c & Hc & He)|[(n & [= <-] & H)|[H|H]]];
      [|discriminate..].
    apply lastChar_endsWith in He. injection He as <-.
    apply list_elem_of_In in Hc. simpl in Hc.
    repeat (destruct Hc as [Hc|Hc]; [discriminate|]). exact Hc.
Defined.

(** ** Ticks and the stored index *)

Lemma updateProgress_keeps_index r p :
  0 <= currentWordIndex (cells p) →
  0 <= currentWordIndex (cells (updateProgress r p)).
Proof.
  intros H0. unfold updateProgress.
  destruct (audioRef p) as [audio|]; [|exact H0].
  destruct (lyricsOf (karaokeData r)) as [ws|]; [|exact H0]. cbv zeta.
  set (found := foundIndex ws _).
  destruct (Z.eqb_spec found (-1)) as [E|NE]; simpl; [exact H0|].
  destruct (negb (found =? currentWordIndex r)); simpl; [|exact H0].
  destruct (foundIndex_range ws (audio_currentTime audio + syncOffset r)%float)
    as [E|[Hge _]]; [contradiction | exact Hge].
Qed.

Lemma ticks_keep_index ts : ∀ p,
  0 <= currentWordIndex (cells p) →
  0 <= currentWordIndex (cells (ticks p ts)).
Proof.
  unfold ticks. induction ts as [|[r t] ts IH]; intros p H0; [exact H0|].
  simpl. apply IH. apply updateProgress_keeps_index. exact H0.
Qed.

(** C10: once the stored index is at least 0, no progress tick sets it
    back to [-1], whatever render the tick's closure is from and wherever
    the audio position has moved: after one tick and after any run of
    ticks the stored index is at least 0; and a tick whose scan finds no
    active token leaves the stored index as it is. *)
Theorem tick_never_resets_index (r : Render) (p : Player) :
  0 <= currentWordIndex (cells p) →
  0 <= currentWordIndex (cells (updateProgress r p)) ∧
  (∀ ts, 0 <= currentWordIndex (cells (ticks p ts))) ∧
  (∀ audio ws,
     audioRef p = Some audio → lyricsOf (karaokeData r) = Some ws →
     foundIndex ws (audio_currentTime audio + syncOffset r)%float = -1 →
     currentWordIndex (cells (updateProgress r p))
       = currentWordIndex (cells p)).
Proof.
  intros H0. split; [apply updateProgress_keeps_index; exact H0|].
  split; [intros ts; apply ticks_keep_index; exact H0|].
  intros audio ws Ha Hl Hf.
  rewrite (updateProgress_index _ _ _ _ Ha Hl). simpl. rewrite Hf.
  reflexivity.
Qed.

(** Token 1 is highlighted, the user seeks back to [0.5], before the first
    token: the tick finds nothing and token 1 stays highlighted. *)
Lemma tick_never_resets_index_witness :
  let p := loadedPlayer scenario_tokens 0.5 1 0.0 true in
  0 <= currentWordIndex (cells p) ∧
  foundIndex scenario_tokens (0.5 + 0.0)%float = -1 ∧
  currentWordIndex (cells (updateProgress (cells p) p)) = 1.
Proof.
  split; [discriminate|]. split; [reflexivity|].
  exact (proj2 (proj2 (tick_never_resets_index
           (cells (loadedPlayer scenario_tokens 0.5 1 0.0 true))
           (loadedPlayer scenario_tokens 0.5 1 0.0 true) ltac:(discriminate)))
         _ _ eq_refl eq_refl eq_refl).
Defined.

(** ** Clicking a word *)











(** A word that starts before the sync offset has run: for [start = 0.1]
    and offset [0.2] the target is negative, the audio element stays at
    the start of the media, and [currentTime] holds the negative target. *)
Lemma lyric_click_before_start :
  let r := loadedRender [mkWord "Oh" 0.1 0.5] 10 (-1) 0.2 true in
  let p := loadedPlayer [mkWord "Oh" 0.1 0.5] 10 (-1) 0.2 true in
  ∃ p', handleLyricClick r (mkWord "Oh" 0.1 0.5) 0 p = Some p' ∧
        audio_currentTime <$> audioRef p' = Some 0%float ∧
        currentTime (cells p') = (0.1 - 0.2)%float ∧
        ((0.1 - 0.2) <? 0)%float = true.
Proof. cbv zeta. eexists. repeat split. Qed.

(** A word whose start is not a finite number: the assignment throws, the
    handler has set nothing. *)
Lemma lyric_click_not_finite :
  let r := loadedRender [mkWord "x" infinity infinity] 10 (-1) 0.2 false in
  let p := loadedPlayer [mkWord "x" infinity infinity] 10 (-1) 0.2 false in
  handleLyricClick r (mkWord "x" infinity infinity) 0 p = None.
Proof. reflexivity. Qed.

(** ** Classifying a failure *)

Lemma prefix_spec search : ∀ str,
  String.prefix search str = true ↔ ∃ post, str = search +:+ post.
Proof.
  induction search as [|a search IH]; intros str.
  - split; [intros _; exists str; reflexivity | destruct str; reflexivity].
  - destruct str as [|b str]; simpl.
    { split; [discriminate | intros [post H]; discriminate]. }
    destruct (Ascii.ascii_dec a b) as [->|Hab].
    + rewrite IH. split; intros [post H]; exists post.
      * rewrite H. reflexivity.
      * injection H as H. exact H.
    + split; [discriminate|]. intros [post H]. injection H as H _. congruence.
Qed.

Lemma includes_nil search :
  includes EmptyString search = String.prefix search EmptyString || false.
Proof. reflexivity. Qed.

Lemma includes_cons a str search :
  includes (String a str) search
  = String.prefix search (String a str) || includes str search.
Proof. reflexivity. Qed.

Lemma includes_spec search : ∀ str,
  includes str search = true ↔ contains str search.
Proof.
  unfold contains. induction str as [|a str IH].
  - rewrite includes_nil, orb_false_r, prefix_spec. split.
    + intros [post H]. exists EmptyString, post. exact H.
    + intros ([|b pre] & post & H); [exists post; exact H | discriminate].
  - rewrite includes_cons, orb_true_iff, prefix_spec, IH. split.
    + intros [[post H]|(pre & post & H)].
      * exists EmptyString, post. exact H.
      * exists (String a pre), post. rewrite H. reflexivity.
    + intros ([|b pre] & post & H).
      * left. exists post. exact H.
      * right. injection H as _ H. exists pre, post. exact H.
Qed.

Lemma includes_false str search :
  includes str search = false ↔ ¬ contains str search.
Proof.
  rewrite <- includes_spec. destruct (includes str search); split;
    congruence.
Qed.

Lemma userFriendlyError_download msg :
  downloadPhrase msg → userFriendlyError msg = downloadExplanation.
Proof.
  unfold downloadPhrase, userFriendlyError. rewrite <- !includes_spec.
  intros [-> | ->]; rewrite ?orb_true_r; reflexivity.
Qed.

Lemma userFriendlyError_no_download msg :
  ¬ downloadPhrase msg →
  includes msg "Downloaded file not found"
  || includes msg "downloaded file is empty" = false.
Proof.
  unfold downloadPhrase. rewrite <- !includes_spec. intros H.
  apply orb_false_intro; apply not_true_is_false; tauto.
Qed.

(** C8 (amended): on a poll whose status is [failed] or [error], the
    message is [data.error], else [data.message], else the default
    ["Processing failed"] (an empty string counting as absent), the polling
    interval is cleared, and the error shown is chosen by substring match
    in this order: a message with a download phrase gets the download
    explanation; one with no download phrase and a conversion phrase gets the
    conversion explanation; one with neither and a separation phrase gets
    the separation explanation; any other message is shown as it is. *)
Theorem failure_classified_in_order (d : StatusData) (pollInterval : nat)
    (p : Player) :
  let msg := errorMsg d in
  let shown := userFriendlyError msg in
  (status d = "failed" ∨ status d = "error" →
     let p' := poll_status pollInterval (Resolved d) p in
     error (cells p') = Some shown ∧ isProcessing (cells p') = false ∧
     findTimer pollInterval p' = None) ∧
  (downloadPhrase msg → shown = downloadExplanation) ∧
  (¬ downloadPhrase msg → conversionPhrase msg →
     shown = conversionExplanation) ∧
  (¬ downloadPhrase msg → ¬ conversionPhrase msg → separationPhrase msg →
     shown = separationExplanation) ∧
  (¬ downloadPhrase msg → ¬ conversionPhrase msg → ¬ separationPhrase msg →
     shown = msg) ∧
  msg = match truthy (status_error d), truthy (status_message d) with
        | Some e, _ => e
        | None, Some m => m
        | None, None => "Processing failed"
        end ∧
  userFriendlyError "Processing failed" = "Processing failed".
Proof.
  cbv zeta. split; [|split; [|split; [|split; [|split; [|split]]]]].
  - intros Hst. unfold poll_status.
    assert (String.eqb (status d) "ready" = false) as ->.
    { destruct Hst as [-> | ->]; reflexivity. }
    assert (String.eqb (status d) "failed" || String.eqb (status d) "error"
            = true) as ->.
    { destruct Hst as [-> | ->]; reflexivity. }
    simpl. repeat split. unfold findTimer. simpl.
    rewrite list_filter_filter.
    destruct (filter _ (timers p)) as [|t ts] eqn:E; [reflexivity|].
    assert (t ∈ filter (λ x, timer_id x = pollInterval ∧ timer_id x ≠ pollInterval)
                      (timers p)) as Hin by (rewrite E; left).
    apply list_elem_of_filter in Hin as [[? ?] _]. contradiction.
  - apply userFriendlyError_download.
  - intros Hd Hc. unfold userFriendlyError.
    rewrite (userFriendlyError_no_download _ Hd).
    apply includes_spec in Hc. rewrite Hc. reflexivity.
  - intros Hd Hc Hs. unfold userFriendlyError.
    rewrite (userFriendlyError_no_download _ Hd).
    apply includes_false in Hc. rewrite Hc.
    destruct Hs as [Hs|Hs]; apply includes_spec in Hs; rewrite Hs,
      ?orb_true_r; reflexivity.
  - intros Hd Hc Hs. unfold userFriendlyError.
    rewrite (userFriendlyError_no_download _ Hd).
    apply includes_false in Hc. rewrite Hc.
    unfold separationPhrase in Hs. rewrite <- !includes_spec in Hs.
    destruct (includes (errorMsg d) "Separation"); [tauto|].
    destruct (includes (errorMsg d) "Demucs"); [tauto|]. reflexivity.
  - unfold errorMsg, orElse. destruct (truthy (status_error d)); [reflexivity|].
    destruct (truthy (status_message d)); reflexivity.
  - reflexivity.
Qed.

(** A poll answers [error] with the message ["Demucs crashed"]: the error
    shown is the separation explanation. *)
Lemma failure_classified_in_order_witness :
  let d := mkStatusData "error" None (Some "Demucs crashed") in
  errorMsg d = "Demucs crashed" ∧
  ¬ downloadPhrase (errorMsg d) ∧ ¬ conversionPhrase (errorMsg d) ∧
  separationPhrase (errorMsg d) ∧
  userFriendlyError (errorMsg d) = separationExplanation ∧
  error (cells (poll_status 1 (Resolved d) mountPolling))
    = Some separationExplanation.
Proof.
  cbv zeta.
  assert (¬ downloadPhrase "Demucs crashed") as Hd.
  { intros [H|H]; apply includes_spec in H; discriminate H. }
  assert (¬ conversionPhrase "Demucs crashed") as Hc.
  { intros H; apply includes_spec in H; discriminate H. }
  assert (separationPhrase "Demucs crashed") as Hs.
  { right. apply includes_spec. reflexivity. }
  pose proof (failure_classified_in_order
                (mkStatusData "error" None (Some "Demucs crashed")) 1
                mountPolling) as H.
  cbv zeta in H. destruct H as (Hpoll & _ & _ & Hsep & _).
  split; [reflexivity|]. split; [exact Hd|]. split; [exact Hc|].
  split; [exact Hs|]. split; [exact (Hsep Hd Hc Hs)|].
  destruct (Hpoll (or_intror eq_refl)) as [-> _].
  exact (f_equal Some (Hsep Hd Hc Hs)).
Defined.

(** C8, as stated, fails on a message with two phrases: this one contains
    the conversion phrase and is given the download explanation. *)
Lemma conversion_phrase_shown_as_download :
  let msg := "Failed to convert: Downloaded file not found" in
  let d := mkStatusData "failed" (Some msg) None in
  errorMsg d = msg ∧ conversionPhrase msg ∧
  userFriendlyError msg = downloadExplanation ∧
  userFriendlyError msg ≠ conversionExplanation.
Proof.
  cbv zeta. split; [reflexivity|]. split; [|split; [reflexivity|discriminate]].
  exists "", ": Downloaded file not found". reflexivity.
Qed.

(** ** The timeout of the polling *)

Lemma findTimer_Some id p t :
  findTimer id p = Some t → t ∈ timers p ∧ timer_id t = id.
Proof.
  unfold findTimer. intros H. apply head_Some_elem_of in H.
  apply list_elem_of_filter in H. tauto.
Qed.

Lemma findTimer_cleared id p : cleared id p → findTimer id p = None.
Proof.
  intros [_ Hno]. destruct (findTimer id p) as [t|] eqn:E; [|reflexivity].
  apply findTimer_Some in E as [Hin Hid]. destruct (Hno _ Hin Hid).
Qed.

Lemma removeTimer_cleared id x p : cleared id p → cleared id (removeTimer x p).
Proof.
  intros [Hlt Hno]. split; [exact Hlt|]. simpl. intros t Ht.
  apply list_elem_of_filter in Ht as [_ Ht]. auto.
Qed.

Lemma removeTimer_clears id p :
  (id < nextTimer p)%nat → cleared id (removeTimer id p).
Proof.
  intros Hlt. split; [exact Hlt|]. simpl. intros t Ht.
  apply list_elem_of_filter in Ht as [Hne _]. exact Hne.
Qed.

Lemma addTimer_cleared id k cb ms p :
  cleared id p → cleared id (addTimer k cb ms p).2.
Proof.
  intros [Hlt Hno]. split; simpl; [lia|]. intros t Ht.
  apply elem_of_app in Ht as [Ht|Ht]; [auto|].
  apply list_elem_of_singleton in Ht as ->. simpl. lia.
Qed.

Lemma updateProgress_cleared id r p :
  cleared id p → cleared id (updateProgress r p).
Proof.
  intros H. unfold updateProgress.
  destruct (audioRef p); [|exact H].
  destruct (lyricsOf (karaokeData r)); [|exact H]. cbv zeta.
  destruct (_ && _); exact H.
Qed.

Lemma updateProgress_requests r p :
  requests (updateProgress r p) = requests p.
Proof.
  unfold updateProgress.
  destruct (audioRef p); [|reflexivity].
  destruct (lyricsOf (karaokeData r)); [|reflexivity]. cbv zeta.
  destruct (_ && _); reflexivity.
Qed.

Lemma statusRequests_request id q k p :
  q ≠ GetStatus id → statusRequests id (request q k p) = statusRequests id p.
Proof.
  intros Hq. unfold statusRequests. simpl.
  rewrite filter_app, length_app, filter_cons_False, filter_nil by exact Hq.
  simpl. lia.
Qed.

Lemma processSong_started_resolved r data p :
  processSong_started r (Resolved data) p
  = (addTimer Timeout (CbTimeout r (nextTimer p)) 300000
       (addTimer Interval CbPoll 2000 p).2).2.
Proof. reflexivity. Qed.

(** Once the polling interval [id] is cleared it stays cleared, and no
    event sends a status request for it. *)
Lemma step_cleared id p e p' :
  cleared id p → step p e = Some p' →
  cleared id p' ∧ statusRequests id p' = statusRequests id p.
Proof.
  intros Hc Hstep. destruct e as [tid|k reply|]; simpl in Hstep.
  - destruct (findTimer tid p) as [t|] eqn:Ht; [|discriminate].
    simpl in Hstep. injection Hstep as <-.
    apply findTimer_Some in Ht as [Hin Hid].
    assert (tid ≠ id) as Hne by (rewrite <- Hid; apply Hc; exact Hin).
    set (p0 := match timer_kind t with
               | Interval => p
               | Timeout => removeTimer tid p
               end).
    assert (cleared id p0 ∧ requests p0 = requests p) as [Hc0 Hr0].
    { unfold p0. destruct (timer_kind t);
        [|split; [apply removeTimer_cleared|]]; auto. }
    destruct (timer_callback t) as [r| |r pollInterval]; simpl.
    + split; [apply updateProgress_cleared; exact Hc0|].
      unfold statusRequests. rewrite updateProgress_requests, Hr0. reflexivity.
    + split; [exact Hc0|]. unfold poll.
      rewrite statusRequests_request by congruence.
      unfold statusRequests. rewrite Hr0. reflexivity.
    + unfold pollTimeout, clearInterval.
      assert (cleared id (removeTimer pollInterval p0)) as Hc1
        by (apply removeTimer_cleared; exact Hc0).
      destruct (isProcessing r); (split; [exact Hc1|]);
        unfold statusRequests; simpl; rewrite Hr0; reflexivity.
  - destruct (awaiting p !! k) as [pending|] eqn:Hk; [|discriminate].
    simpl in Hstep.
    assert (cleared id (resume k p)) as Hc0 by exact Hc.
    destruct pending as [r|r|pollInterval|], reply as [resp|resp|resp];
      try discriminate; injection Hstep as <-.
    + unfold processSong_cached.
      destruct resp as [data|st detail]; [split; [exact Hc0|reflexivity]|].
      destruct (bool_decide (st = Some 404)); [|split; [exact Hc0|reflexivity]].
      split; [exact Hc0|]. rewrite statusRequests_request by discriminate.
      reflexivity.
    + destruct resp as [data|st detail]; [|split; [exact Hc0|reflexivity]].
      rewrite processSong_started_resolved. split; [|reflexivity].
      apply (addTimer_cleared id Timeout), (addTimer_cleared id Interval).
      exact Hc0.
    + unfold poll_status.
      destruct resp as [data|st detail]; [|split; [exact Hc0|reflexivity]].
      destruct (String.eqb (status data) "ready").
      { split; [apply removeTimer_cleared; exact Hc0|].
        rewrite statusRequests_request by discriminate. reflexivity. }
      destruct (_ || _); [|split; [exact Hc0|reflexivity]].
      split; [apply removeTimer_cleared; exact Hc0 | reflexivity].
    + unfold poll_result.
      destruct resp as [data|st detail]; split; solve [exact Hc0|reflexivity].
  - destruct (bool_decide _); [|discriminate]. injection Hstep as <-.
    unfold processSong. split; [exact Hc|].
    rewrite statusRequests_request by discriminate. reflexivity.
Qed.

Lemma run_cleared id es : ∀ p p',
  cleared id p → run p es = Some p' →
  cleared id p' ∧ statusRequests id p' = statusRequests id p.
Proof.
  induction es as [|e es IH]; intros p p' Hc Hrun; simpl in Hrun.
  - injection Hrun as <-. split; [exact Hc|reflexivity].
  - destruct (step p e) as [p1|] eqn:Hstep; [|discriminate]. simpl in Hrun.
    destruct (step_cleared _ _ _ _ Hc Hstep) as [Hc1 Hr1].
    destruct (IH _ _ Hc1 Hrun) as [Hc' Hr']. split; [exact Hc'|]. lia.
Qed.

(** When the timeout of a run fires, polling stops for good; the error is
    set only if the render that started the run had [isProcessing]. *)
Lemma timeout_fires tid r pollInterval p :
  findTimer tid p = Some (mkTimer tid Timeout 300000 (CbTimeout r pollInterval)) →
  (pollInterval < nextTimer p)%nat →
  ∃ p', step p (TimerFires tid) = Some p' ∧
    cleared pollInterval p' ∧
    statusRequests pollInterval p' = statusRequests pollInterval p ∧
    (∀ es q, run p' es = Some q →
       statusRequests pollInterval q = statusRequests pollInterval p') ∧
    (isProcessing r = true →
       error (cells p') = Some "Processing timeout. Please try again." ∧
       isProcessing (cells p') = false) ∧
    (isProcessing r = false → cells p' = cells p).
Proof.
  intros Ht Hlt. simpl. rewrite Ht. simpl. eexists. split; [reflexivity|].
  assert (cleared pollInterval
            (pollTimeout r pollInterval (removeTimer tid p))) as Hc.
  { unfold pollTimeout, clearInterval.
    pose proof (removeTimer_clears pollInterval (removeTimer tid p) Hlt).
    destruct (isProcessing r); assumption. }
  split; [exact Hc|]. split; [|split; [|split]].
  - unfold pollTimeout. destruct (isProcessing r); reflexivity.
  - intros es q Hrun. eapply run_cleared; eassumption.
  - unfold pollTimeout. intros ->. split; reflexivity.
  - unfold pollTimeout. intros ->. reflexivity.
Qed.

Lemma run_app es1 : ∀ p es2,
  run p (es1 ++ es2) = run p es1 ≫= fun p' => run p' es2.
Proof.
  induction es1 as [|e es1 IH]; intros p es2; simpl; [reflexivity|].
  destruct (step p e) as [p1|]; simpl; [apply IH | reflexivity].
Qed.

(** Polls that get no terminal status change nothing but the list of
    requests: the interval stays in the table and the cells stay as they
    are. *)
Lemma polls_keep_polling id ms resps : ∀ p,
  Forall (fun resp => nonTerminal resp = true) resps →
  findTimer id p = Some (mkTimer id Interval ms CbPoll) →
  awaiting p = [] →
  run p (polls id resps)
  = Some (mkPlayer (cells p) (audioRef p) (intervalRef p) (timers p)
                   (nextTimer p)
                   (requests p ++ replicate (length resps) (GetStatus id)) []).
Proof.
  induction resps as [|resp resps IH]; intros p Hnt Ht Haw;
    destruct p as [c a i ts nt rq aw]; simpl in Haw; subst aw.
  - simpl. rewrite app_nil_r. reflexivity.
  - apply Forall_cons in Hnt as [Hresp Hnt].
    change (polls id (resp :: resps))
      with ([TimerFires id; Arrives 0 (ReplyStatus resp)] ++ polls id resps).
    rewrite run_app.
    assert (run (mkPlayer c a i ts nt rq [])
                [TimerFires id; Arrives 0 (ReplyStatus resp)]
            = Some (mkPlayer c a i ts nt (rq ++ [GetStatus id]) [])) as ->.
    { simpl. rewrite Ht. simpl.
      destruct resp as [d|st detail]; [|reflexivity].
      unfold poll_status. simpl in Hresp. unfold terminalStatus in Hresp.
      apply negb_true_iff in Hresp.
      apply orb_false_elim in Hresp as [Hresp He].
      apply orb_false_elim in Hresp as [Hr Hf].
      rewrite Hr, Hf, He. reflexivity. }
    simpl mbind. rewrite IH; [|exact Hnt|exact Ht|reflexivity]. simpl.
    rewrite <- app_assoc. reflexivity.
Qed.

Lemma statusRequests_polls id n p reqs :
  requests p = reqs ++ replicate n (GetStatus id) →
  statusRequests id p
  = (length (filter (fun q => q = GetStatus id) reqs) + n)%nat.
Proof.
  intros Hr. unfold statusRequests. rewrite Hr, filter_app, length_app.
  f_equal. clear Hr. induction n as [|n IH]; [reflexivity|]. simpl.
  rewrite filter_cons_True by reflexivity. simpl. rewrite IH. reflexivity.
Qed.

(** The run started by the mount effect closes over [isProcessing = true]:
    when its polls get no terminal status, its timeout stops the polling
    and sets the timeout error. *)
Lemma mount_run_times_out (resps : list (Response StatusData)) :
  Forall (fun resp => nonTerminal resp = true) resps →
  ∃ p, run mounted (pollsUntilTimeout resps) = Some p ∧
       error (cells p) = Some "Processing timeout. Please try again." ∧
       isProcessing (cells p) = false ∧
       timers p = [] ∧
       ∀ es q, run p es = Some q → statusRequests 1 q = length resps.
Proof.
  intros Hnt. unfold pollsUntilTimeout.
  rewrite run_app.
  change (run mounted startsPolling) with (Some mountPolling). simpl mbind.
  rewrite run_app, (polls_keep_polling 1 2000 resps mountPolling Hnt eq_refl eq_refl).
  simpl. eexists. split; [reflexivity|]. simpl.
  repeat (split; [reflexivity|]).
  intros es q Hq.
  match type of Hq with run ?p _ = _ =>
    assert (cleared 1 p) as Hc
  end.
  { split; simpl; [lia|]. intros t Ht. inversion Ht. }
  destruct (run_cleared 1 es _ q Hc Hq) as [_ ->].
  rewrite (statusRequests_polls 1 (length resps) _ [GetKaraoke; PostProcess])
    by reflexivity.
  reflexivity.
Qed.

(** C3, evaluated on runs started with "Try Again": the first run failed
    at once; the second finds nothing cached, has processing accepted, and
    its polls get no terminal status until its timeout fires. The timeout
    callback closes over the render of the click, in which [isProcessing]
    is [false]: it stops the polling for good (no status request is sent
    afterwards) and sets no error. The job is left with no data, no error
    and no processing flag, instead of failed with the timeout error. *)
Theorem retry_timeout_sets_no_error (resps : list (Response StatusData)) :
  Forall (fun resp => nonTerminal resp = true) resps →
  (error ∘ cells) <$> run mounted firstRunFails
    = Some (Some "Failed to load karaoke data") ∧
  ∃ p, run mounted (firstRunFails ++ retryTimesOut resps) = Some p ∧
       error (cells p) = None ∧
       isProcessing (cells p) = false ∧
       karaokeData (cells p) = None ∧
       timers p = [] ∧
       statusRequests 1 p = length resps ∧
       ∀ es q, run p es = Some q → statusRequests 1 q = length resps.
Proof.
  intros Hnt. split; [reflexivity|].
  change (firstRunFails ++ retryTimesOut resps)
    with ((firstRunFails ++ ClickTryAgain :: startsPolling)
          ++ polls 1 resps ++ [TimerFires 2]).
  rewrite run_app.
  change (run mounted (firstRunFails ++ ClickTryAgain :: startsPolling))
    with (Some retryPolling). simpl mbind.
  rewrite run_app, (polls_keep_polling 1 2000 resps retryPolling Hnt eq_refl eq_refl).
  simpl. eexists. split; [reflexivity|]. simpl.
  repeat (split; [reflexivity|]).
  match goal with |- statusRequests 1 ?p = _ ∧ _ =>
    assert (cleared 1 p) as Hc;
    [|assert (statusRequests 1 p = length resps) as Hn]
  end.
  { split; simpl; [lia|]. intros t Ht. inversion Ht. }
  { rewrite (statusRequests_polls 1 (length resps) _
               [GetKaraoke; GetKaraoke; PostProcess]) by reflexivity.
    reflexivity. }
  split; [exact Hn|]. intros es q Hq.
  destruct (run_cleared 1 es _ q Hc Hq) as [_ ->]. exact Hn.
Qed.

(** 150 polls two seconds apart, all answered [processing]. *)
Lemma retry_timeout_sets_no_error_witness :
  Forall (fun resp => nonTerminal resp = true) (replicate 150 stillProcessing) ∧
  ∃ p, run mounted (firstRunFails
                    ++ retryTimesOut (replicate 150 stillProcessing)) = Some p ∧
       error (cells p) = None ∧
       isProcessing (cells p) = false ∧
       karaokeData (cells p) = None ∧
       timers p = [] ∧
       statusRequests 1 p = length (replicate 150 stillProcessing) ∧
       ∀ es q, run p es = Some q →
               statusRequests 1 q = length (replicate 150 stillProcessing).
Proof.
  assert (Forall (fun resp => nonTerminal resp = true)
                 (replicate 150 stillProcessing)) as H.
  { apply Forall_replicate. reflexivity. }
  split; [exact H|].
  exact (proj2 (retry_timeout_sets_no_error _ H)).
Defined.

(** ** What [groupWordsIntoLines] writes *)

Lemma arrayAt_Some {A : Type} (elem : list Obj → nat → option A) h l xs :
  arrayAt elem h l = Some xs ↔
  ∃ elems, h !! l = Some (ObjArray elems) ∧
           Forall2 (fun e x => elem h e = Some x) elems xs.
Proof.
  unfold arrayAt. destruct (h !! l) as [[w i|elems]|].
  - split; [discriminate|]. intros (e & [=] & _).
  - rewrite mapM_Some. split.
    + intros H. exists elems. split; [reflexivity|exact H].
    + intros (e & [= <-] & H). exact H.
  - split; [discriminate|]. intros (e & [=] & _).
Qed.

Lemma grows_refl h : grows h h.
Proof. intros l. destruct (h !! l) as [[w i|elems]|]; eauto. Qed.

Lemma grows_trans h1 h2 h3 : grows h1 h2 → grows h2 h3 → grows h1 h3.
Proof.
  unfold grows. intros H12 H23 l. specialize (H12 l). specialize (H23 l).
  destruct (h1 !! l) as [[w i|elems]|]; [| |exact I].
  - rewrite H12 in H23. exact H23.
  - destruct H12 as [e He]. rewrite He in H23. exact H23.
Qed.

Lemma grows_alloc h o : grows h (h ++ [o]).
Proof.
  intros l. destruct (h !! l) as [[w i|elems]|] eqn:E; [| |exact I].
  - apply lookup_app_l_Some. exact E.
  - exists elems. apply lookup_app_l_Some. exact E.
Qed.

Lemma grows_push h a elems elems' :
  h !! a = Some (ObjArray elems) → grows h (<[a := ObjArray elems']> h).
Proof.
  intros Ha l. destruct (decide (l = a)) as [->|Hne].
  - rewrite Ha. exists elems'. apply list_lookup_insert_eq.
    eapply lookup_lt_Some. exact Ha.
  - rewrite list_lookup_insert_ne by congruence.
    destruct (h !! l) as [[w i|e]|]; eauto.
Qed.

Lemma lineWordAt_grows h h' e x :
  grows h h' → lineWordAt h e = Some x → lineWordAt h' e = Some x.
Proof.
  intros Hg. unfold lineWordAt. specialize (Hg e).
  destruct (h !! e) as [[w [i|]|elems]|]; try discriminate.
  rewrite Hg. auto.
Qed.

Lemma wordAt_preserved h h' e x :
  preserved h h' → wordAt h e = Some x → wordAt h' e = Some x.
Proof.
  intros Hp. unfold wordAt. destruct (h !! e) as [o|] eqn:E; [|discriminate].
  rewrite (Hp _ _ E). auto.
Qed.

Lemma lineAt_grows h h' l x :
  grows h h' → h' !! l = h !! l → lineAt h l = Some x → lineAt h' l = Some x.
Proof.
  intros Hg Hl Hx. unfold lineAt in *. apply arrayAt_Some in Hx.
  apply arrayAt_Some. rewrite Hl.
  destruct Hx as (elems & He & Hx). exists elems. split; [exact He|].
  eapply Forall2_impl; [exact Hx|]. intros e y. apply lineWordAt_grows, Hg.
Qed.

Lemma preserved_refl h : preserved h h.
Proof. intros l o H. exact H. Qed.

Lemma preserved_trans h1 h2 h3 :
  preserved h1 h2 → preserved h2 h3 → preserved h1 h3.
Proof. intros H12 H23 l o H. auto. Qed.

Lemma preserved_alloc h o : preserved h (h ++ [o]).
Proof. intros l x H. apply lookup_app_l_Some. exact H. Qed.

(** A push on an array allocated after [h0] leaves [h0] as it is. *)
Lemma preserved_push h0 h a o :
  preserved h0 h → (length h0 ≤ a)%nat → preserved h0 (<[a := o]> h).
Proof.
  intros Hp Ha l x H. rewrite list_lookup_insert_ne.
  - apply Hp. exact H.
  - apply lookup_lt_Some in H. lia.
Qed.

Lemma bind_Some {A B : Type} (m : M A) (f : A → M B) h a h' :
  m h = Some (a, h') → bind m f h = f a h'.
Proof. unfold bind. intros ->. reflexivity. Qed.

Lemma readWord_Some h l w i :
  h !! l = Some (ObjWord w i) → readWord l h = Some (w, h).
Proof. unfold readWord. intros ->. reflexivity. Qed.

Lemma readArray_Some h l elems :
  h !! l = Some (ObjArray elems) → readArray l h = Some (elems, h).
Proof. unfold readArray. intros ->. reflexivity. Qed.

Lemma push_Some h l elems x :
  h !! l = Some (ObjArray elems) →
  push l x h = Some ((), <[l := ObjArray (elems ++ [x])]> h).
Proof. unfold push. intros ->. reflexivity. Qed.

Lemma wordAt_Some h l w : wordAt h l = Some w → ∃ i, h !! l = Some (ObjWord w i).
Proof.
  unfold wordAt. destruct (h !! l) as [[w' i|elems]|]; try discriminate.
  intros [= ->]. eauto.
Qed.

Section HeapLoop.
Variables (h0 : list Obj) (lyricsRef linesRef : nat).
Variables (wordRefs : list nat) (ws : list Word).
Hypothesis Hlyrics : h0 !! lyricsRef = Some (ObjArray wordRefs).
Hypothesis Hwords : Forall2 (fun l w => wordAt h0 l = Some w) wordRefs ws.

Lemma groupWordH_step h cl g n wl w :
  groupingInv h0 linesRef h cl g →
  wordRefs !! n = Some wl → ws !! n = Some w →
  ∃ cl' h', groupWordH lyricsRef linesRef wl n cl h = Some (cl', h') ∧
            groupingInv h0 linesRef h' cl' (groupWord ws w n g).
Proof.
  intros (Hp & Hl0 & Hlc & Hch & (ls & Hls & Hlines) & (es & Hes & Hcur))
         Hwl Hw.
  destruct (wordAt_Some h0 wl w) as [oi Hwl0].
  { exact (Forall2_lookup_lr (fun l x => wordAt h0 l = Some x)
             _ _ _ _ _ Hwords Hwl Hw). }
  (* the heaps the callback goes through *)
  set (item := length h).
  set (h1 := h ++ [ObjWord w (Some n)]).
  set (h2 := <[cl := ObjArray (es ++ [item])]> h1).
  assert (length h1 = S (length h)) as Hlen1
    by (unfold h1; rewrite length_app; simpl; lia).
  assert (length h2 = S (length h)) as Hlen2
    by (unfold h2; rewrite length_insert; exact Hlen1).
  assert (h1 !! cl = Some (ObjArray es)) as Hcl1
    by (apply lookup_app_l_Some; exact Hes).
  assert (preserved h0 h2) as Hp2.
  { apply preserved_push; [|lia].
    eapply preserved_trans; [exact Hp|apply preserved_alloc]. }
  assert (grows h h2) as Hg2.
  { eapply grows_trans; [apply grows_alloc|]. eapply grows_push. exact Hcl1. }
  assert (h2 !! cl = Some (ObjArray (es ++ [item]))) as Hcl2.
  { apply list_lookup_insert_eq. lia. }
  assert (∀ l, l ≠ cl → (l < length h)%nat → h2 !! l = h !! l) as Hsame2.
  { intros l Hne Hlt. unfold h2.
    rewrite list_lookup_insert_ne by congruence.
    unfold h1. rewrite lookup_app_l by lia. reflexivity. }
  assert (lineWordAt h2 item = Some (mkLineWord w n)) as Hitem.
  { unfold lineWordAt, h2, h1, item.
    rewrite list_lookup_insert_ne by lia.
    rewrite lookup_app_r, Nat.sub_diag by lia. reflexivity. }
  assert (Forall2 (fun e x => lineWordAt h2 e = Some x) (es ++ [item])
                  (currentLine g ++ [mkLineWord w n])) as Hcur2.
  { apply Forall2_app; [|repeat constructor; exact Hitem].
    eapply Forall2_impl; [exact Hcur|]. intros e x.
    apply lineWordAt_grows. exact Hg2. }
  assert (Forall2 (fun l x => lineAt h2 l = Some x ∧ (linesRef < l)%nat
                              ∧ (l < cl)%nat) ls (lines g)) as Hlines2.
  { eapply Forall2_impl; [exact Hlines|]. intros l x (Hx & Hl1 & Hl2).
    split; [|split; assumption].
    eapply lineAt_grows; [exact Hg2| |exact Hx]. apply Hsame2; lia. }
  (* the next word *)
  assert (∃ next,
    match wordRefs !! (n + 1)%nat with
    | Some r => (x ←← readWord r; ret (Some x))
    | None => ret None
    end h2 = Some (next, h2) ∧ next = ws !! (n + 1)%nat ∧
    bool_decide (is_Some (wordRefs !! (n + 1)%nat))
    = bool_decide (is_Some (ws !! (n + 1)%nat))) as (next & Hnext & -> & Hsome).
  { destruct (wordRefs !! (n + 1)%nat) as [r|] eqn:Hr.
    - destruct (Forall2_lookup_l _ _ _ _ _ Hwords Hr) as (x & Hx & Hrx).
      destruct (wordAt_Some _ _ _ Hrx) as [i Hi].
      exists (Some x). rewrite Hx. split; [|split; reflexivity].
      erewrite bind_Some; [reflexivity|].
      eapply readWord_Some. apply Hp2. exact Hi.
    - exists None. split; [reflexivity|].
      assert (ws !! (n + 1)%nat = None) as ->; [|split; reflexivity].
      apply lookup_ge_None. apply lookup_ge_None in Hr.
      rewrite <- (Forall2_length _ _ _ Hwords). exact Hr. }
  (* running the callback *)
  unfold groupWordH.
  erewrite bind_Some by (eapply readWord_Some; apply Hp; exact Hwl0).
  erewrite bind_Some by reflexivity. fold item. fold h1.
  erewrite bind_Some by (apply push_Some; exact Hcl1). fold h2.
  erewrite bind_Some by (apply readArray_Some; apply Hp2; exact Hlyrics).
  cbv zeta. erewrite bind_Some by exact Hnext.
  erewrite bind_Some by (apply readArray_Some; exact Hcl2).
  rewrite Hsome.
  replace (length (es ++ [item]))
    with (length (currentLine g ++ [mkLineWord w n]))
    by (rewrite !length_app, (Forall2_length _ _ _ Hcur); reflexivity).
  unfold groupWord. fold (startsNewLine ws w n
                            (currentLine g ++ [mkLineWord w n])).
  destruct (startsNewLine ws w n (currentLine g ++ [mkLineWord w n])).
  - (* the line is pushed and a new one started *)
    set (copy := length h2).
    set (h3 := h2 ++ [ObjArray (es ++ [item])]).
    set (h4 := <[linesRef := ObjArray (ls ++ [copy])]> h3).
    set (h5 := h4 ++ [ObjArray []]).
    assert (h3 !! linesRef = Some (ObjArray ls)) as Hls3.
    { apply lookup_app_l_Some. rewrite Hsame2 by lia. exact Hls. }
    assert (length h4 = S (S (length h))) as Hlen4.
    { unfold h4, h3. rewrite length_insert, length_app. simpl. lia. }
    assert (grows h2 h5) as Hg5.
    { eapply grows_trans; [apply grows_alloc|].
      eapply grows_trans; [eapply grows_push; exact Hls3|].
      apply grows_alloc. }
    assert (∀ l, l ≠ linesRef → (l < length h4)%nat → h5 !! l = h3 !! l)
      as Hsame5.
    { intros l Hne Hlt. unfold h5. rewrite lookup_app_l by lia.
      unfold h4. rewrite list_lookup_insert_ne by congruence.
      reflexivity. }
    erewrite bind_Some by reflexivity. fold copy. fold h3.
    erewrite bind_Some by (apply push_Some; exact Hls3). fold h4.
    unfold alloc. fold h5. rewrite Hlen4.
    eexists _, _. split; [reflexivity|]. simpl.
    split; [|split; [exact Hl0|split; [lia|split; [|split]]]].
    + apply preserved_trans with h4; [|apply preserved_alloc].
      apply preserved_push; [|exact Hl0].
      eapply preserved_trans; [exact Hp2|apply preserved_alloc].
    + unfold h5. rewrite length_app. simpl. lia.
    + exists (ls ++ [copy]). split.
      { unfold h5. apply lookup_app_l_Some. apply list_lookup_insert_eq.
        unfold h3. rewrite length_app. simpl. lia. }
      apply Forall2_app.
      * eapply Forall2_impl; [exact Hlines2|]. intros l x (Hx & Hl1 & Hl2).
        split; [|lia].
        eapply lineAt_grows; [exact Hg5| |exact Hx].
        rewrite Hsame5 by lia. apply lookup_app_l. lia.
      * constructor; [|constructor]. unfold copy. split; [|lia].
        apply arrayAt_Some. exists (es ++ [item]). split.
        { rewrite Hsame5 by lia. unfold h3.
          rewrite lookup_app_r, Nat.sub_diag by lia. reflexivity. }
        eapply Forall2_impl; [exact Hcur2|]. intros e x.
        apply lineWordAt_grows. exact Hg5.
    + exists []. split; [|constructor].
      unfold h5. rewrite lookup_app_r, Hlen4, Nat.sub_diag by lia.
      reflexivity.
  - (* the word stays in the current line *)
    eexists _, _. split; [reflexivity|]. simpl.
    split; [exact Hp2|]. split; [lia|]. split; [lia|]. split; [lia|].
    split.
    + exists ls. split; [rewrite Hsame2 by lia; exact Hls | exact Hlines2].
    + exists (es ++ [item]). split; [exact Hcl2 | exact Hcur2].
Qed.

Lemma forEachH_groups refs : ∀ words pre prew h cl g,
  wordRefs = pre ++ refs → ws = prew ++ words →
  length pre = length prew →
  groupingInv h0 linesRef h cl g →
  ∃ cl' h',
    forEachH (groupWordH lyricsRef linesRef) (length pre) refs cl h
      = Some (cl', h') ∧
    groupingInv h0 linesRef h' cl'
      (forEachFrom (groupWord ws) (length pre) words g).
Proof.
  induction refs as [|r refs IH]; intros words pre prew h cl g Hr Hw Hlen Hinv.
  - assert (words = []) as ->.
    { pose proof (Forall2_length _ _ _ Hwords) as Hl.
      rewrite Hr, Hw, !length_app in Hl. simpl in Hl.
      destruct words; [reflexivity|simpl in Hl; lia]. }
    exists cl, h. split; [reflexivity | exact Hinv].
  - destruct words as [|w words].
    { pose proof (Forall2_length _ _ _ Hwords) as Hl.
      rewrite Hr, Hw, !length_app in Hl. simpl in Hl. lia. }
    assert (wordRefs !! length pre = Some r) as Hrn
      by (rewrite Hr; apply list_lookup_middle; reflexivity).
    assert (ws !! length pre = Some w) as Hwn
      by (rewrite Hw; apply list_lookup_middle; exact Hlen).
    destruct (groupWordH_step h cl g _ r w Hinv Hrn Hwn)
      as (cl1 & h1 & Hstep & Hinv1).
    destruct (IH words (pre ++ [r]) (prew ++ [w]) h1 cl1
                (groupWord ws w (length pre) g))
      as (cl' & h' & Hrun & Hinv').
    { rewrite Hr, <- app_assoc. reflexivity. }
    { rewrite Hw, <- app_assoc. reflexivity. }
    { rewrite !length_app, Hlen. reflexivity. }
    { exact Hinv1. }
    exists cl', h'. rewrite length_app, Nat.add_1_r in Hrun, Hinv'.
    split; [|exact Hinv'].
    simpl. erewrite bind_Some by exact Hstep. exact Hrun.
Qed.
End HeapLoop.

Lemma lineWordAt_preserved h h' e x :
  preserved h h' → lineWordAt h e = Some x → lineWordAt h' e = Some x.
Proof.
  intros Hp. unfold lineWordAt. destruct (h !! e) as [o|] eqn:E; [|discriminate].
  rewrite (Hp _ _ E). auto.
Qed.

Lemma arrayAt_preserved {A : Type} (elem : list Obj → nat → option A) h h' :
  preserved h h' →
  (∀ e x, elem h e = Some x → elem h' e = Some x) →
  ∀ l xs, arrayAt elem h l = Some xs → arrayAt elem h' l = Some xs.
Proof.
  intros Hp Helem l xs H. apply arrayAt_Some in H as (elems & Hl & Hx).
  apply arrayAt_Some. exists elems. split; [apply Hp; exact Hl|].
  eapply Forall2_impl; [exact Hx|]. exact Helem.
Qed.

Lemma lyricsAt_preserved h h' l ws :
  preserved h h' → lyricsAt h l = Some ws → lyricsAt h' l = Some ws.
Proof.
  intros Hp. apply arrayAt_preserved; [exact Hp|].
  intros e x. apply wordAt_preserved. exact Hp.
Qed.

Lemma linesAt_preserved h h' l xs :
  preserved h h' → linesAt h l = Some xs → linesAt h' l = Some xs.
Proof.
  intros Hp. apply arrayAt_preserved; [exact Hp|].
  apply arrayAt_preserved; [exact Hp|].
  intros e x. apply lineWordAt_preserved. exact Hp.
Qed.

(** One call: it returns, it changes no object of the heap it was given,
    and the array it returns holds the lines of [groupLyrics]. *)
Lemma groupWordsIntoLinesH_runs h lyricsRef ws :
  lyricsAt h lyricsRef = Some ws →
  ∃ result h',
    groupWordsIntoLinesH (Some lyricsRef) h = Some (result, h') ∧
    preserved h h' ∧ (length h ≤ result)%nat ∧
    linesAt h' result = Some (groupLyrics ws).
Proof.
  intros Hly. apply arrayAt_Some in Hly as (wordRefs & Href & Hwords).
  set (linesRef := length h).
  set (h1 := h ++ [ObjArray []]).
  set (h2 := h1 ++ [ObjArray []]).
  assert (length h1 = S (length h)) as Hlen1
    by (unfold h1; rewrite length_app; simpl; lia).
  assert (preserved h h2) as Hp2.
  { eapply preserved_trans; apply preserved_alloc. }
  assert (groupingInv h linesRef h2 (S linesRef) (mkGrouping [] [])) as Hinv.
  { split; [exact Hp2|]. unfold linesRef.
    split; [lia|]. split; [lia|].
    split; [unfold h2; rewrite length_app, Hlen1; simpl; lia|].
    split; [exists []|exists []]; (split; [|constructor]).
    - unfold h2, h1. rewrite lookup_app_l by (rewrite length_app; simpl; lia).
      rewrite lookup_app_r, Nat.sub_diag by lia. reflexivity.
    - unfold h2. rewrite lookup_app_r, Hlen1, Nat.sub_diag by lia.
      reflexivity. }
  destruct (forEachH_groups h lyricsRef linesRef wordRefs ws Href Hwords
              wordRefs ws [] [] h2 (S linesRef) (mkGrouping [] [])
              eq_refl eq_refl eq_refl Hinv)
    as (cl' & h' & Hrun & Hp & _ & _ & _ & (ls & Hls & Hlines) & _).
  exists linesRef, h'. split; [|split; [exact Hp|split; [unfold linesRef; lia|]]].
  - unfold groupWordsIntoLinesH.
    erewrite bind_Some by reflexivity. fold linesRef. fold h1.
    erewrite bind_Some by reflexivity. fold h2. rewrite Hlen1.
    erewrite bind_Some by (apply readArray_Some; apply Hp2; exact Href).
    erewrite bind_Some by exact Hrun. reflexivity.
  - apply arrayAt_Some. exists ls. split; [exact Hls|].
    eapply Forall2_impl; [exact Hlines|]. intros l x (Hx & _). exact Hx.
Qed.


(** C9: [groupWordsIntoLines] is a function of the lyrics alone: two
    renders with the same lyrics get the same lines. On the heap, a call on
    lyrics held in the heap returns; it changes no object the heap held
    before the call (the lyrics array and the word objects among them: it
    writes only to the arrays and objects it allocates); the array it
    returns holds the lines of [groupLyrics]; and a second call returns an
    array holding the same lines, leaving the result of the first call as it
    was. *)
Theorem groupWordsIntoLines_pure (h : list Obj) (lyricsRef : nat)
    (ws : list Word) :
  lyricsAt h lyricsRef = Some ws →
  (∀ r1 r2 : Render,
     lyricsOf (karaokeData r1) = Some ws →
     lyricsOf (karaokeData r2) = Some ws →
     groupWordsIntoLines r1 = groupLyrics ws ∧
     groupWordsIntoLines r2 = groupWordsIntoLines r1) ∧
  ∃ result1 h1 result2 h2,
    groupWordsIntoLinesH (Some lyricsRef) h = Some (result1, h1) ∧
    groupWordsIntoLinesH (Some lyricsRef) h1 = Some (result2, h2) ∧
    preserved h h1 ∧ preserved h1 h2 ∧
    lyricsAt h1 lyricsRef = Some ws ∧ lyricsAt h2 lyricsRef = Some ws ∧
    linesAt h1 result1 = Some (groupLyrics ws) ∧
    linesAt h2 result2 = Some (groupLyrics ws) ∧
    linesAt h2 result1 = Some (groupLyrics ws).
Proof.
  intros Hly. split.
  - intros r1 r2 H1 H2. unfold groupWordsIntoLines. rewrite H1, H2.
    split; reflexivity.
  - destruct (groupWordsIntoLinesH_runs h lyricsRef ws Hly)
      as (result1 & h1 & Hrun1 & Hp1 & _ & Hres1).
    pose proof (lyricsAt_preserved _ _ _ _ Hp1 Hly) as Hly1.
    destruct (groupWordsIntoLinesH_runs h1 lyricsRef ws Hly1)
      as (result2 & h2 & Hrun2 & Hp2 & _ & Hres2).
    exists result1, h1, result2, h2.
    repeat (split; [assumption|]).
    split; [eapply lyricsAt_preserved; eassumption|].
    split; [assumption|]. split; [assumption|].
    eapply linesAt_preserved; eassumption.
Qed.

Lemma groupWordsIntoLines_pure_witness :
  lyricsAt scenario_heap 2 = Some scenario_tokens ∧
  ∃ result1 h1 result2 h2,
    groupWordsIntoLinesH (Some 2%nat) scenario_heap = Some (result1, h1) ∧
    groupWordsIntoLinesH (Some 2%nat) h1 = Some (result2, h2) ∧
    preserved scenario_heap h1 ∧ preserved h1 h2 ∧
    lyricsAt h1 2 = Some scenario_tokens ∧
    lyricsAt h2 2 = Some scenario_tokens ∧
    linesAt h1 result1 = Some (groupLyrics scenario_tokens) ∧
    linesAt h2 result2 = Some (groupLyrics scenario_tokens) ∧
    linesAt h2 result1 = Some (groupLyrics scenario_tokens).
Proof.
  split; [reflexivity|].
  exact (proj2 (groupWordsIntoLines_pure scenario_heap 2 scenario_tokens
                  eq_refl)).
Defined.

(** ** Rendering the lyrics *)

(** A line puts its own position in [currentLineIndex] if it holds the
    current word, and leaves it otherwise. *)
Lemma findCurrentLine_spec c line lineIdx cur :
  findCurrentLine c line lineIdx cur
  = if holdsWord c line then Z.of_nat lineIdx else cur.
Proof.
  unfold findCurrentLine, forEach, holdsWord. generalize 0%nat. revert cur.
  induction line as [|w line IH]; intros cur k; simpl; [reflexivity|].
  rewrite IH. destruct (Z.of_nat (index w) =? c); simpl; [|reflexivity].
  destruct (existsb _ line); reflexivity.
Qed.

Lemma holdsWord_true c line :
  holdsWord c line = true ↔ ∃ x, x ∈ line ∧ Z.of_nat (index x) = c.
Proof.
  unfold holdsWord. rewrite existsb_exists. split; intros (x & Hx & E);
    exists x; (split; [apply list_elem_of_In; exact Hx|]).
  - apply Z.eqb_eq. exact E.
  - apply Z.eqb_eq. exact E.
Qed.

(** The loop over the lines returns the position of the last line that
    holds the current word, and [cur] when no line does. *)
Lemma currentLineFrom_none c ls : ∀ k cur,
  Forall (fun line => holdsWord c line = false) ls →
  forEachFrom (findCurrentLine c) k ls cur = cur.
Proof.
  induction ls as [|line ls IH]; intros k cur H; simpl; [reflexivity|].
  apply Forall_cons in H as [Hl H]. rewrite IH by exact H.
  rewrite findCurrentLine_spec, Hl. reflexivity.
Qed.

Lemma currentLineFrom_last c pre line post : ∀ k cur,
  holdsWord c line = true →
  Forall (fun line => holdsWord c line = false) post →
  forEachFrom (findCurrentLine c) k (pre ++ line :: post) cur
  = Z.of_nat (k + length pre).
Proof.
  induction pre as [|l pre IH]; intros k cur Hl Hpost; simpl.
  - rewrite currentLineFrom_none by exact Hpost.
    rewrite findCurrentLine_spec, Hl. f_equal. lia.
  - rewrite IH by assumption. f_equal. lia.
Qed.

Lemma not_holdsWord_other (ls : list Line) l line l' line' (i : nat) :
  NoDup (index <$> concat ls) →
  ls !! l = Some line → holdsWord (Z.of_nat i) line = true →
  ls !! l' = Some line' → l' ≠ l → holdsWord (Z.of_nat i) line' = false.
Proof.
  intros Hnd Hl Hh Hl' Hne. apply not_true_is_false. intros Hh'.
  apply holdsWord_true in Hh as (x & Hx & Ex).
  apply holdsWord_true in Hh' as (y & Hy & Ey).
  apply Hne. eapply (concat_index_unique ls Hnd l' l); try eassumption. lia.
Qed.

(** With distinct indices, [currentLineIndex] is the position of the one
    line that holds the current word. *)
Lemma currentLineIndexOf_unique (ls : list Line) l line (i : nat) :
  NoDup (index <$> concat ls) →
  ls !! l = Some line → holdsWord (Z.of_nat i) line = true →
  currentLineIndexOf ls (Z.of_nat i) = Z.of_nat l.
Proof.
  intros Hnd Hl Hh. unfold currentLineIndexOf, forEach.
  rewrite <- (take_drop_middle ls l line Hl).
  rewrite currentLineFrom_last; [| exact Hh |].
  - rewrite length_take_le; [reflexivity|]. apply lookup_lt_Some in Hl. lia.
  - apply Forall_lookup. intros k line' Hk. rewrite lookup_drop in Hk.
    eapply (not_holdsWord_other ls l line); try eassumption. lia.
Qed.

Lemma currentLineIndexOf_none (ls : list Line) c :
  (∀ x, x ∈ concat ls → Z.of_nat (index x) ≠ c) →
  currentLineIndexOf ls c = -1.
Proof.
  intros Hno. unfold currentLineIndexOf, forEach. apply currentLineFrom_none.
  apply Forall_lookup. intros k line Hk. apply not_true_is_false. intros Hh.
  apply holdsWord_true in Hh as (x & Hx & E).
  apply (Hno x); [|exact E]. eapply elem_of_concat_lookup; eassumption.
Qed.

Lemma groupWordsIntoLines_concat_words r :
  concat (groupWordsIntoLines r)
  = lineWords (default [] (lyricsOf (karaokeData r))).
Proof.
  unfold groupWordsIntoLines.
  destruct (lyricsOf (karaokeData r)); [apply groupLyrics_concat|reflexivity].
Qed.

Lemma renderLyrics_lookup r lyrics rendered k rl :
  lyricsOf (karaokeData r) = Some lyrics →
  renderLyrics r = Some rendered → rendered !! k = Some rl →
  ∃ line, groupWordsIntoLines r !! k = Some line ∧
          rl = renderLine (currentWordIndex r)
                 (currentLineIndexOf (groupWordsIntoLines r) (currentWordIndex r))
                 k line.
Proof.
  intros Hl. unfold renderLyrics. rewrite Hl. intros [= <-].
  rewrite list_lookup_imap.
  destruct (groupWordsIntoLines r !! k) as [line|]; [|discriminate].
  simpl. intros [= <-]. eauto.
Qed.

Lemma lineWords_index_in lyrics x :
  x ∈ lineWords lyrics → (index x < length lyrics)%nat.
Proof.
  intros Hx. apply list_elem_of_lookup in Hx as [k Hk].
  apply lineWords_lookup in Hk as (w & Hw & ->). simpl.
  eapply lookup_lt_Some. exact Hw.
Qed.

Lemma lineWords_index_eq lyrics x i w :
  x ∈ lineWords lyrics → lyrics !! i = Some w → index x = i →
  x = mkLineWord w i.
Proof.
  intros Hx Hw Hi. apply list_elem_of_lookup in Hx as [k Hk].
  apply lineWords_lookup in Hk as (w' & Hw' & ->). simpl in Hi. subst k.
  rewrite Hw in Hw'. injection Hw' as <-. reflexivity.
Qed.

(** X1: when the stored index is the position of a word of the lyrics, the
    rendering has one line for each line of the grouping, in order; the line
    that holds the word is the only one with the class [current] and the
    only one [currentWordRef] is attached to, the lines before it are
    [past], the lines after it [future]; and a word is rendered [active]
    exactly when it is that word. *)
Theorem renderLyrics_current_line (r : Render) (lyrics : list Word) (i : nat)
    (w : Word) :
  lyricsOf (karaokeData r) = Some lyrics → lyrics !! i = Some w →
  currentWordIndex r = Z.of_nat i →
  ∃ rendered l line,
    renderLyrics r = Some rendered ∧
    length rendered = length (groupWordsIntoLines r) ∧
    groupWordsIntoLines r !! l = Some line ∧ mkLineWord w i ∈ line ∧
    ∀ k rl, rendered !! k = Some rl →
      rl_key rl = k ∧
      rl_className rl
        = (if (k <? l)%nat then "lyric-line past"
           else if (k =? l)%nat then "lyric-line current"
           else "lyric-line future") ∧
      rl_ref rl = (k =? l)%nat ∧
      groupWordsIntoLines r !! k = Some (rw_word <$> rl_words rl) ∧
      ∀ rw, rw ∈ rl_words rl →
            (rw_className rw = "lyric-word-inline active"
             ↔ rw_word rw = mkLineWord w i) ∧
            (rw_word rw = mkLineWord w i → k = l).
Proof.
  intros Hl Hw Hc.
  pose proof (groupWordsIntoLines_concat_words r) as Hcat.
  rewrite Hl in Hcat. simpl in Hcat.
  assert (NoDup (index <$> concat (groupWordsIntoLines r))) as Hnd.
  { rewrite Hcat, lineWords_indices. apply NoDup_seq. }
  assert (mkLineWord w i ∈ concat (groupWordsIntoLines r)) as Hin.
  { rewrite Hcat. apply list_elem_of_lookup. exists i.
    apply lineWords_lookup. eauto. }
  destruct (elem_of_concat_inv _ _ Hin) as (l & line & Hline & Hx).
  assert (holdsWord (Z.of_nat i) line = true) as Hh.
  { apply holdsWord_true. exists (mkLineWord w i). split; [exact Hx|reflexivity]. }
  pose proof (currentLineIndexOf_unique _ l line i Hnd Hline Hh) as Hcur.
  destruct (renderLyrics r) as [rendered|] eqn:Hr;
    [|unfold renderLyrics in Hr; rewrite Hl in Hr; discriminate].
  exists rendered, l, line. split; [reflexivity|]. split.
  { unfold renderLyrics in Hr. rewrite Hl in Hr. injection Hr as <-.
    apply length_imap. }
  split; [exact Hline|]. split; [exact Hx|].
  intros k rl Hk.
  destruct (renderLyrics_lookup r lyrics rendered k rl Hl Hr Hk)
    as (linek & Hlk & ->).
  rewrite Hc, Hcur. unfold renderLine. simpl.
  split; [reflexivity|]. split.
  { destruct (Nat.ltb_spec k l), (Z.ltb_spec (Z.of_nat k) (Z.of_nat l));
      try lia; [reflexivity|].
    destruct (Nat.eqb_spec k l), (Z.eqb_spec (Z.of_nat k) (Z.of_nat l));
      try lia; reflexivity. }
  split.
  { destruct (Nat.eqb_spec k l), (Z.eqb_spec (Z.of_nat k) (Z.of_nat l));
      try lia; reflexivity. }
  split.
  { rewrite <- list_fmap_compose, list_fmap_id. exact Hlk. }
  intros rw Hrw. apply list_elem_of_fmap in Hrw as (x & -> & Hxk).
  assert (x ∈ lineWords lyrics) as Hxl.
  { rewrite <- Hcat. eapply elem_of_concat_lookup; eassumption. }
  unfold renderWord. simpl. split.
  - destruct (Z.eqb_spec (Z.of_nat (index x)) (Z.of_nat i)) as [E|NE]; split.
    + intros _. eapply lineWords_index_eq; [exact Hxl|exact Hw|lia].
    + reflexivity.
    + discriminate.
    + intros ->. simpl in NE. lia.
  - intros ->. eapply (concat_index_unique _ Hnd k l); try eassumption.
    reflexivity.
Qed.

Lemma renderLyrics_current_line_witness :
  let r := loadedRender scenario_tokens 1.6 1 0.0 true in
  lyricsOf (karaokeData r) = Some scenario_tokens ∧
  scenario_tokens !! 1%nat = Some (mkWord "world" 1.5 2.0) ∧
  currentWordIndex r = Z.of_nat 1 ∧
  ∃ rendered l line,
    renderLyrics r = Some rendered ∧
    groupWordsIntoLines r !! l = Some line ∧
    mkLineWord (mkWord "world" 1.5 2.0) 1 ∈ line.
Proof.
  cbv zeta. repeat (split; [reflexivity|]).
  destruct (renderLyrics_current_line
              (loadedRender scenario_tokens 1.6 1 0.0 true) scenario_tokens 1
              (mkWord "world" 1.5 2.0) eq_refl eq_refl eq_refl)
    as (rendered & l & line & Hr & _ & Hl & Hin & _).
  exists rendered, l, line. split; [exact Hr|]. split; [exact Hl|exact Hin].
Defined.

(** X2: when the stored index is the position of no word of the lyrics
    (it is [-1] before the first word is reached), every line is rendered
    with the class [future], [currentWordRef] is attached to no line, and
    no word is rendered [active]. *)
Theorem renderLyrics_nothing_active (r : Render) (lyrics : list Word) :
  lyricsOf (karaokeData r) = Some lyrics →
  currentWordIndex r < 0 ∨ Z.of_nat (length lyrics) <= currentWordIndex r →
  ∃ rendered,
    renderLyrics r = Some rendered ∧
    length rendered = length (groupWordsIntoLines r) ∧
    ∀ k rl, rendered !! k = Some rl →
      rl_className rl = "lyric-line future" ∧ rl_ref rl = false ∧
      ∀ rw, rw ∈ rl_words rl → rw_className rw = "lyric-word-inline ".
Proof.
  intros Hl Hc.
  pose proof (groupWordsIntoLines_concat_words r) as Hcat.
  rewrite Hl in Hcat. simpl in Hcat.
  assert (∀ x, x ∈ concat (groupWordsIntoLines r) →
               Z.of_nat (index x) ≠ currentWordIndex r) as Hno.
  { intros x Hx. rewrite Hcat in Hx. apply lineWords_index_in in Hx. lia. }
  pose proof (currentLineIndexOf_none _ _ Hno) as Hcur.
  destruct (renderLyrics r) as [rendered|] eqn:Hr;
    [|unfold renderLyrics in Hr; rewrite Hl in Hr; discriminate].
  exists rendered. split; [reflexivity|]. split.
  { unfold renderLyrics in Hr. rewrite Hl in Hr. injection Hr as <-.
    apply length_imap. }
  intros k rl Hk.
  destruct (renderLyrics_lookup r lyrics rendered k rl Hl Hr Hk)
    as (linek & Hlk & ->).
  rewrite Hcur. unfold renderLine. simpl.
  destruct (Z.ltb_spec (Z.of_nat k) (-1)); [lia|].
  destruct (Z.eqb_spec (Z.of_nat k) (-1)); [lia|].
  split; [reflexivity|]. split; [reflexivity|].
  intros rw Hrw. apply list_elem_of_fmap in Hrw as (x & -> & Hxk).
  unfold renderWord. simpl.
  destruct (Z.eqb_spec (Z.of_nat (index x)) (currentWordIndex r)) as [E|NE];
    [|reflexivity].
  exfalso. apply (Hno x); [|exact E].
  eapply elem_of_concat_lookup; eassumption.
Qed.

Lemma renderLyrics_nothing_active_witness :
  let r := loadedRender scenario_tokens 0.5 (-1) 0.0 true in
  lyricsOf (karaokeData r) = Some scenario_tokens ∧
  currentWordIndex r < 0 ∧
  ∃ rendered, renderLyrics r = Some rendered ∧ length rendered = 1%nat.
Proof.
  cbv zeta. split; [reflexivity|]. split; [reflexivity|].
  destruct (renderLyrics_nothing_active
              (loadedRender scenario_tokens 0.5 (-1) 0.0 true) scenario_tokens
              eq_refl (or_introl eq_refl))
    as (rendered & Hr & Hlen & _).
  exists rendered. split; [exact Hr|]. rewrite Hlen. reflexivity.
Defined.

(** ** The shape of a line *)

Lemma groupingAfter_lines_short lyrics n :
  (n ≤ length lyrics)%nat →
  Forall (fun line : Line => (length line ≤ 12)%nat)
         (lines (groupingAfter lyrics n)).
Proof.
  induction n as [|n IH]; intros Hn.
  - rewrite groupingAfter_0. constructor.
  - destruct (lookup_lt_is_Some_2 lyrics n) as [w Hw]; [lia|].
    destruct (closesLineAfter_step lyrics n w Hw) as [_ ->].
    destruct (grouping_invariant lyrics n) as (_ & _ & Hlen & _); [lia|].
    destruct (startsNewLine _ _ _ _); simpl; [|apply IH; lia].
    apply Forall_app. split; [apply IH; lia|].
    constructor; [|constructor]. rewrite length_app. simpl. lia.
Qed.

(** X3: every line of the grouping holds at least one word and at most
    12. *)
Theorem groupWordsIntoLines_at_most_12 (r : Render) :
  Forall (fun line : Line => (1 ≤ length line ≤ 12)%nat)
         (groupWordsIntoLines r).
Proof.
  unfold groupWordsIntoLines.
  destruct (lyricsOf (karaokeData r)) as [lyrics|]; [|constructor].
  pose proof (groupLyrics_nonempty lyrics) as Hne.
  pose proof (groupingAfter_lines_short lyrics (length lyrics) (le_n _)) as Hs.
  rewrite <- groupingAfter_all in Hs.
  apply Forall_forall. intros line Hin.
  rewrite Forall_forall in Hne, Hs. specialize (Hne line Hin).
  specialize (Hs line Hin). split; [|exact Hs].
  destruct line; [contradiction|simpl; lia].
Qed.

Lemma joined_nil : joined [].
Proof. intros k a b H. discriminate. Qed.

Lemma joined_singleton a : joined [a].
Proof. intros k x y _ H. destruct k; discriminate. Qed.

Lemma joined_snoc (line : list LineWord) a b :
  joined line → last line = Some a → follows a b → joined (line ++ [b]).
Proof.
  intros Hj Hlast Hf k x y Hx Hy.
  apply last_Some in Hlast as [pre ->].
  destruct (decide (S k < length (pre ++ [a]))%nat) as [Hlt|Hge].
  - rewrite lookup_app_l in Hy by exact Hlt.
    rewrite lookup_app_l in Hx by lia. eapply Hj; eassumption.
  - rewrite length_app in Hge. simpl in Hge.
    apply lookup_lt_Some in Hy as Hk. rewrite !length_app in Hk. simpl in Hk.
    assert (k = length pre) as -> by lia.
    rewrite lookup_app_l in Hx by (rewrite length_app; simpl; lia).
    rewrite lookup_app_r, Nat.sub_diag in Hx by lia. injection Hx as <-.
    rewrite lookup_app_r in Hy by (rewrite length_app; simpl; lia).
    rewrite length_app in Hy. simpl in Hy.
    replace (S (length pre) - (length pre + 1))%nat with 0%nat in Hy by lia.
    injection Hy as <-. exact Hf.
Qed.

Lemma startsNewLine_false_follows lyrics w n line nx :
  startsNewLine lyrics w n line = false → lyrics !! S n = Some nx →
  follows (mkLineWord w n) (mkLineWord nx (S n)).
Proof.
  unfold startsNewLine. intros H Hnx.
  replace (n + 1)%nat with (S n) in H by lia. rewrite Hnx in H.
  apply orb_false_elim in H as [H _].
  apply orb_false_elim in H as [H _].
  apply orb_false_elim in H as [Hp Hg].
  split; [reflexivity|]. split; assumption.
Qed.

(** The loop keeps every pushed line and the current line joined; the
    current line, when not empty, ends with the word just seen, which did
    not close it. *)
Lemma grouping_joined lyrics n :
  (n ≤ length lyrics)%nat →
  let g := groupingAfter lyrics n in
  Forall joined (lines g) ∧ joined (currentLine g) ∧
  ∀ a, last (currentLine g) = Some a →
       ∃ m w, n = S m ∧ lyrics !! m = Some w ∧ a = mkLineWord w m ∧
              startsNewLine lyrics w m (currentLine g) = false.
Proof.
  induction n as [|n IH]; intros Hn.
  - rewrite groupingAfter_0. simpl.
    split; [constructor|]. split; [apply joined_nil|]. discriminate.
  - destruct (lookup_lt_is_Some_2 lyrics n) as [w Hw]; [lia|].
    destruct IH as (Hlines & Hcur & Hlast); [lia|].
    destruct (closesLineAfter_step lyrics n w Hw) as [_ Hstep].
    cbv zeta. rewrite Hstep. clear Hstep.
    set (g := groupingAfter lyrics n) in *.
    assert (joined (currentLine g ++ [mkLineWord w n])) as Hj.
    { destruct (last (currentLine g)) as [a|] eqn:Ha.
      - destruct (Hlast a eq_refl) as (m & wm & -> & Hwm & -> & Hnew).
        eapply joined_snoc; [exact Hcur|exact Ha|].
        eapply startsNewLine_false_follows; eassumption.
      - apply last_None in Ha. rewrite Ha. apply joined_singleton. }
    destruct (startsNewLine lyrics w n (currentLine g ++ [mkLineWord w n]))
      eqn:Hnew; simpl.
    + split; [|split; [apply joined_nil|discriminate]].
      apply Forall_app. split; [exact Hlines|]. constructor; [exact Hj|constructor].
    + split; [exact Hlines|]. split; [exact Hj|].
      intros a Ha. rewrite last_snoc in Ha. injection Ha as <-.
      exists n, w. repeat split; [exact Hw|exact Hnew].
Qed.

(** X4: inside a line of the grouping, a word is followed by the next word
    of the lyrics, does not end with one of [. ! ? , ; :], and is not
    separated from its successor by a gap above 0.8: a line ends at the
    first word that ends with punctuation or is followed by a large gap. *)
Theorem groupWordsIntoLines_joined (r : Render) (line : Line) (k : nat)
    (a b : LineWord) :
  line ∈ groupWordsIntoLines r →
  line !! k = Some a → line !! S k = Some b →
  index b = S (index a) ∧
  (∀ c, c ∈ punctuation → ¬ endsWith (text (lw_word a)) c) ∧
  gtb (start (lw_word b) - end_ (lw_word a))%float 0.8%float = false.
Proof.
  unfold groupWordsIntoLines.
  destruct (lyricsOf (karaokeData r)) as [lyrics|]; [|intros H; inversion H].
  rewrite groupingAfter_all. intros Hin Ha Hb.
  destruct (grouping_joined lyrics (length lyrics) (le_n _)) as (Hl & _ & _).
  rewrite Forall_forall in Hl.
  destruct (Hl line Hin k a b Ha Hb) as (Hi & Hp & Hg).
  split; [exact Hi|]. split; [|exact Hg].
  intros c Hc He.
  assert (endsWithPunctuation (text (lw_word a)) = true) as Ht
    by (apply endsWithPunctuation_spec; eauto).
  congruence.
Qed.

Lemma groupWordsIntoLines_joined_witness :
  let r := loadedRender scenario_tokens 0.5 (-1) 0.0 true in
  let line := [mkLineWord (mkWord "Hello" 1.0 1.4) 0;
               mkLineWord (mkWord "world" 1.5 2.0) 1] in
  line ∈ groupWordsIntoLines r ∧
  gtb (1.5 - 1.4)%float 0.8%float = false.
Proof.
  cbv zeta.
  assert ([mkLineWord (mkWord "Hello" 1.0 1.4) 0;
           mkLineWord (mkWord "world" 1.5 2.0) 1]
          ∈ groupWordsIntoLines (loadedRender scenario_tokens 0.5 (-1) 0.0 true))
    as Hin by (vm_compute; left).
  split; [exact Hin|].
  exact (proj2 (proj2 (groupWordsIntoLines_joined _ _ 0 _ _ Hin eq_refl eq_refl))).
Defined.

(** ** The last word *)

(** X5: on lyrics sorted by start time, once the last word has started the
    scan selects it ("highlight until the end"), however far the synced
    time has moved. *)
Theorem scan_last_word (ws : list Word) (w : Word) (t : float) :
  sortedByStart ws = true → last ws = Some w → geb t (start w) = true →
  foundIndex ws t = Z.of_nat (length ws) - 1.
Proof.
  intros Hs Hlast Hge.
  apply last_Some in Hlast as [pre ->].
  rewrite length_app. simpl.
  replace (Z.of_nat (length pre + 1) - 1) with (Z.of_nat (length pre)) by lia.
  assert ((pre ++ [w]) !! length pre = Some w) as Hw
    by (rewrite lookup_app_r, Nat.sub_diag by lia; reflexivity).
  apply foundIndex_first. split.
  - exists w. split; [exact Hw|]. split; [exact Hge|].
    left. rewrite length_app. simpl. lia.
  - intros j Hj (x & Hx & _ & [Hlen|(n & Hn & Hlt)]).
    + rewrite length_app in Hlen. simpl in Hlen. lia.
    + apply ltb_not_leb in Hlt.
      assert ((start n <=? t)%float = true) as Hle; [|congruence].
      destruct (decide (S j = length pre)) as [Heq|Hne].
      * rewrite Heq, Hw in Hn. injection Hn as <-. exact Hge.
      * eapply leb_trans; [|exact Hge].
        eapply (sortedByStart_lookup _ Hs (S j) (length pre)); [lia|eassumption..].
Qed.

Lemma scan_last_word_witness :
  foundIndex scenario_tokens 100 = Z.of_nat (length scenario_tokens) - 1.
Proof.
  apply (scan_last_word scenario_tokens (mkWord "world" 1.5 2.0) 100);
    reflexivity.
Defined.

(** ** Runs of [processSong] *)

(** X6: when the cache has the song, [processSong] loads it and schedules
    nothing: from a component with nothing scheduled, whatever render
    created the function, one request is sent ([GET /karaoke/:id], no
    [POST /process/:id]), the song is set, the error and the processing
    flag are cleared, and no browser event is left to happen. *)
Theorem cache_hit_schedules_nothing (r : Render) (p : Player)
    (data : KaraokeData) :
  quiescent p →
  ∃ q, run (processSong r p) [Arrives 0 (ReplyKaraoke (Resolved data))] = Some q ∧
       karaokeData (cells q) = Some data ∧
       error (cells q) = None ∧
       isProcessing (cells q) = false ∧
       requests q = requests p ++ [GetKaraoke] ∧
       quiescent q ∧
       ∀ e, step q e = None.
Proof.
  intros [Ht Ha]. destruct p as [c a i ts nt rq aw]. simpl in Ht, Ha. subst.
  eexists. split; [reflexivity|]. simpl.
  repeat (split; [reflexivity|]).
  split; [split; reflexivity|].
  intros [id|k reply|]; reflexivity.
Qed.

Lemma cache_hit_schedules_nothing_witness :
  ∃ q, run mounted
         [Arrives 0 (ReplyKaraoke
            (Resolved (mkKaraokeData (Some scenario_tokens) "/audio/a.mp3")))]
       = Some q ∧ requests q = [GetKaraoke] ∧ ∀ e, step q e = None.
Proof.
  destruct (cache_hit_schedules_nothing firstRender
              (mkPlayer firstRender None None [] 1%nat [] [])
              (mkKaraokeData (Some scenario_tokens) "/audio/a.mp3"))
    as (q & Hrun & _ & _ & _ & Hreq & _ & Hstep).
  - split; reflexivity.
  - exists q. split; [exact Hrun|]. split; [exact Hreq|exact Hstep].
Defined.

(** X7: the run started by the mount effect, when a poll finds the status
    [ready]: the song is loaded, no error is set, processing was started
    once, one status request was sent per poll, and the polling interval is
    cleared: no later event sends a status request. *)
Theorem mount_run_loads_song (resps : list (Response StatusData))
    (d : StatusData) (data : KaraokeData) :
  Forall (fun resp => nonTerminal resp = true) resps →
  status d = "ready" →
  ∃ p, run mounted (pollsUntilReady resps d data) = Some p ∧
       karaokeData (cells p) = Some data ∧
       error (cells p) = None ∧
       isProcessing (cells p) = false ∧
       requests p = [GetKaraoke; PostProcess]
                    ++ replicate (S (length resps)) (GetStatus 1)
                    ++ [GetKaraoke] ∧
       awaiting p = [] ∧
       cleared 1 p ∧
       ∀ es q, run p es = Some q → statusRequests 1 q = S (length resps).
Proof.
  intros Hnt Hd. unfold pollsUntilReady.
  rewrite run_app.
  change (run mounted startsPolling) with (Some mountPolling). simpl mbind.
  rewrite run_app,
    (polls_keep_polling 1 2000 resps mountPolling Hnt eq_refl eq_refl).
  simpl. unfold poll_status. rewrite Hd. simpl.
  eexists. split; [reflexivity|]. simpl.
  repeat (split; [reflexivity|]).
  assert (∀ rq aw c,
            cleared 1 (mkPlayer c None None
              [mkTimer 2 Timeout 300000 (CbTimeout firstRender 1)] 3%nat rq aw))
    as Hc.
  { intros rq aw c. split; simpl; [lia|].
    intros t Ht. apply list_elem_of_singleton in Ht as ->. simpl. lia. }
  assert (∀ n, replicate n (GetStatus 1) ++ [GetStatus 1]
               = replicate (S n) (GetStatus 1)) as Hrep.
  { induction n as [|n IH]; [reflexivity|]. simpl. rewrite IH. reflexivity. }
  split; [rewrite Hrep; reflexivity|].
  split; [reflexivity|].
  split; [apply Hc|].
  intros es q Hq.
  destruct (run_cleared 1 es _ q (Hc _ _ _) Hq) as [_ ->].
  unfold statusRequests. simpl.
  assert (∀ n, length (filter (λ q0 : Request, q0 = GetStatus 1)
                         (replicate n (GetStatus 1))) = n) as Hn.
  { induction n as [|n IH]; [reflexivity|].
    change (replicate (S n) (GetStatus 1))
      with ([GetStatus 1] ++ replicate n (GetStatus 1)).
    rewrite filter_app, length_app, IH. reflexivity. }
  change (GetKaraoke :: PostProcess
            :: (replicate (length resps) (GetStatus 1) ++ [GetStatus 1])
               ++ [GetKaraoke])
    with ([GetKaraoke; PostProcess]
            ++ (replicate (length resps) (GetStatus 1) ++ [GetStatus 1])
            ++ [GetKaraoke]).
  rewrite !filter_app, !length_app, Hn.
  cbn. repeat (destruct (decide _) as [?|?]; try discriminate; try congruence); simpl; lia.
Qed.

Lemma mount_run_loads_song_witness :
  ∃ p, run mounted
         (pollsUntilReady [stillProcessing; Rejected None None]
            (mkStatusData "ready" None None)
            (mkKaraokeData (Some scenario_tokens) "/audio/a.mp3")) = Some p ∧
       requests p = [GetKaraoke; PostProcess; GetStatus 1; GetStatus 1;
                     GetStatus 1; GetKaraoke].
Proof.
  destruct (mount_run_loads_song [stillProcessing; Rejected None None]
              (mkStatusData "ready" None None)
              (mkKaraokeData (Some scenario_tokens) "/audio/a.mp3"))
    as (p & Hrun & _ & _ & _ & Hreq & _).
  - repeat constructor.
  - reflexivity.
  - exists p. split; [exact Hrun|exact Hreq].
Defined.

(** X8: the timeout of the run started by the mount effect is not
    cancelled when the song is ready: its callback closes over
    [isProcessing = true],
    so when it fires after the song was loaded it still sets the timeout
    error, next to the loaded song. *)
Theorem mount_timeout_after_ready_sets_error
    (resps : list (Response StatusData)) (d : StatusData)
    (data : KaraokeData) :
  Forall (fun resp => nonTerminal resp = true) resps →
  status d = "ready" →
  ∃ p q, run mounted (pollsUntilReady resps d data) = Some p ∧
         error (cells p) = None ∧
         step p (TimerFires 2) = Some q ∧
         error (cells q) = Some "Processing timeout. Please try again." ∧
         karaokeData (cells q) = Some data ∧
         isProcessing (cells q) = false ∧
         quiescent q.
Proof.
  intros Hnt Hd. unfold pollsUntilReady.
  rewrite run_app.
  change (run mounted startsPolling) with (Some mountPolling). simpl mbind.
  rewrite run_app,
    (polls_keep_polling 1 2000 resps mountPolling Hnt eq_refl eq_refl).
  simpl. unfold poll_status. rewrite Hd. simpl.
  eexists. eexists. split; [reflexivity|]. simpl.
  split; [reflexivity|]. split; [reflexivity|]. simpl.
  repeat (split; [reflexivity|]). split; reflexivity.
Qed.

Lemma mount_timeout_after_ready_sets_error_witness :
  ∃ q, run mounted
         (pollsUntilReady [stillProcessing] (mkStatusData "ready" None None)
            (mkKaraokeData (Some scenario_tokens) "/audio/a.mp3")
          ++ [TimerFires 2]) = Some q ∧
       error (cells q) = Some "Processing timeout. Please try again." ∧
       lyricsOf (karaokeData (cells q)) = Some scenario_tokens.
Proof.
  destruct (mount_timeout_after_ready_sets_error [stillProcessing]
              (mkStatusData "ready" None None)
              (mkKaraokeData (Some scenario_tokens) "/audio/a.mp3"))
    as (p & q & Hrun & _ & Hstep & Herr & Hdata & _).
  - repeat constructor.
  - reflexivity.
  - exists q. split.
    { rewrite run_app, Hrun.
      change (step p (TimerFires 2) ≫= (λ p', run p' []) = Some q).
      rewrite Hstep. reflexivity. }
    split; [exact Herr|]. rewrite Hdata. reflexivity.
Defined.

(** ** The timers of the component *)

Lemma elem_of_timerRefs pid ts :
  pid ∈ timerRefs ts ↔
  ∃ t, t ∈ ts ∧ ((timer_callback t = CbPoll ∧ pid = timer_id t) ∨
                 ∃ r, timer_callback t = CbTimeout r pid).
Proof.
  unfold timerRefs. rewrite list_elem_of_bind. split.
  - intros (t & Hin & Ht). exists t. split; [exact Ht|].
    destruct (timer_callback t) as [r| |r pollInterval].
    + inversion Hin.
    + apply list_elem_of_singleton in Hin. left. split; [reflexivity|exact Hin].
    + apply list_elem_of_singleton in Hin as ->. right. exists r. reflexivity.
  - intros (t & Ht & [[Hcb ->]|[r Hcb]]); exists t; rewrite Hcb;
      (split; [apply list_elem_of_singleton; reflexivity|exact Ht]).
Qed.

Lemma elem_of_pendingRefs pid aw :
  pid ∈ pendingRefs aw ↔ AwaitStatus pid ∈ aw.
Proof.
  unfold pendingRefs. rewrite list_elem_of_bind. split.
  - intros (k & Hin & Hk). destruct k; try (inversion Hin; fail).
    apply list_elem_of_singleton in Hin as ->. exact Hk.
  - intros Hk. exists (AwaitStatus pid).
    split; [apply list_elem_of_singleton; reflexivity|exact Hk].
Qed.

Lemma timerRefs_filter pid (P : Timer → Prop) `{∀ t, Decision (P t)} ts :
  pid ∈ timerRefs (filter P ts) → pid ∈ timerRefs ts.
Proof.
  rewrite !elem_of_timerRefs. intros (t & Ht & Hcb).
  apply list_elem_of_filter in Ht as [_ Ht]. exists t. split; assumption.
Qed.

Lemma timersOkOf_filter (P : Timer → Prop) `{∀ t, Decision (P t)} ts nt iref aw :
  timersOkOf ts nt iref aw → timersOkOf (filter P ts) nt iref aw.
Proof.
  intros (Hnt & Hlt & Huniq & Hrefs & Hiref).
  split; [exact Hnt|]. split; [|split; [|split]].
  - intros t Ht. apply list_elem_of_filter in Ht as [_ Ht]. auto.
  - intros t t' Ht Ht'. apply list_elem_of_filter in Ht as [_ Ht].
    apply list_elem_of_filter in Ht' as [_ Ht']. auto.
  - intros pid Hpid.
    assert (pid ∈ timerRefs ts ++ pendingRefs aw) as Hpid'.
    { apply elem_of_app in Hpid as [Hpid|Hpid]; apply elem_of_app;
        [left; eapply timerRefs_filter; eassumption|right; exact Hpid]. }
    destruct (Hrefs pid Hpid') as [Hl Hnp]. split; [exact Hl|].
    intros t Ht. apply list_elem_of_filter in Ht as [_ Ht]. auto.
  - intros id Hid. destruct (Hiref id Hid) as [Hl Hp]. split; [exact Hl|].
    intros t Ht. apply list_elem_of_filter in Ht as [_ Ht]. auto.
Qed.

Lemma timersOkOf_awaiting ts nt iref aw aw' :
  timersOkOf ts nt iref aw →
  (∀ pid, AwaitStatus pid ∈ aw' →
          AwaitStatus pid ∈ aw ∨
          ((pid < nt)%nat ∧
           ∀ t, t ∈ ts → timer_id t = pid → isProgress t = false)) →
  timersOkOf ts nt iref aw'.
Proof.
  intros (Hnt & Hlt & Huniq & Hrefs & Hiref) Hsub.
  split; [exact Hnt|]. split; [exact Hlt|]. split; [exact Huniq|].
  split; [|exact Hiref].
  intros pid Hpid. apply elem_of_app in Hpid as [Hpid|Hpid].
  - apply Hrefs, elem_of_app. left. exact Hpid.
  - apply elem_of_pendingRefs in Hpid.
    destruct (Hsub pid Hpid) as [Hold|Hnew]; [|exact Hnew].
    apply Hrefs, elem_of_app. right. apply elem_of_pendingRefs. exact Hold.
Qed.

Lemma timersOkOf_delete ts nt iref aw k :
  timersOkOf ts nt iref aw → timersOkOf ts nt iref (delete k aw).
Proof.
  intros Hok. eapply timersOkOf_awaiting; [exact Hok|].
  intros pid Hpid. left.
  eapply list_elem_of_delete_inv. exact Hpid.
Qed.

Lemma timersOkOf_await ts nt iref aw k :
  timersOkOf ts nt iref aw →
  (∀ pid, k = AwaitStatus pid →
          (pid < nt)%nat ∧
          ∀ t, t ∈ ts → timer_id t = pid → isProgress t = false) →
  timersOkOf ts nt iref (aw ++ [k]).
Proof.
  intros Hok Hk. eapply timersOkOf_awaiting; [exact Hok|].
  intros pid Hpid. apply elem_of_app in Hpid as [Hpid|Hpid]; [left; exact Hpid|].
  apply list_elem_of_singleton in Hpid. right. apply Hk. symmetry. exact Hpid.
Qed.

(** [intervalRef.current = setInterval(updateProgress, 100)]. *)
Lemma timersOkOf_play ts nt iref aw r :
  timersOkOf ts nt iref aw →
  timersOkOf (ts ++ [mkTimer nt Interval 100 (CbUpdateProgress r)]) (S nt)
             (Some nt) aw.
Proof.
  intros (Hnt & Hlt & Huniq & Hrefs & Hiref).
  split; [lia|]. split; [|split; [|split]].
  - intros t Ht. apply elem_of_app in Ht as [Ht|Ht].
    + specialize (Hlt t Ht). lia.
    + apply list_elem_of_singleton in Ht as ->. simpl. lia.
  - intros t t' Ht Ht' Hid.
    apply elem_of_app in Ht as [Ht|Ht]; apply elem_of_app in Ht' as [Ht'|Ht'].
    + auto.
    + apply list_elem_of_singleton in Ht' as ->. simpl in Hid.
      specialize (Hlt t Ht). lia.
    + apply list_elem_of_singleton in Ht as ->. simpl in Hid.
      specialize (Hlt t' Ht'). lia.
    + apply list_elem_of_singleton in Ht as ->.
      apply list_elem_of_singleton in Ht' as ->. reflexivity.
  - intros pid Hpid.
    assert (pid ∈ timerRefs ts ++ pendingRefs aw) as Hpid'.
    { apply elem_of_app in Hpid as [Hpid|Hpid]; apply elem_of_app;
        [left|right; exact Hpid].
      apply elem_of_timerRefs in Hpid as (t & Ht & Hcb).
      apply elem_of_timerRefs. exists t. split; [|exact Hcb].
      apply elem_of_app in Ht as [Ht|Ht]; [exact Ht|].
      apply list_elem_of_singleton in Ht as ->. simpl in Hcb.
      destruct Hcb as [[Hcb _]|[r' Hcb]]; discriminate. }
    destruct (Hrefs pid Hpid') as [Hl Hnp]. split; [lia|].
    intros t Ht Hid. apply elem_of_app in Ht as [Ht|Ht]; [auto|].
    apply list_elem_of_singleton in Ht as ->. simpl in Hid. lia.
  - intros id [= <-]. split; [lia|].
    intros t Ht Hid. apply elem_of_app in Ht as [Ht|Ht].
    + specialize (Hlt t Ht). lia.
    + apply list_elem_of_singleton in Ht as ->. reflexivity.
Qed.

(** [const pollInterval = setInterval(...)] and the [setTimeout] that
    clears it. *)
Lemma timersOkOf_polls ts nt iref aw r :
  timersOkOf ts nt iref aw →
  timersOkOf ((ts ++ [mkTimer nt Interval 2000 CbPoll])
              ++ [mkTimer (S nt) Timeout 300000 (CbTimeout r nt)])
             (S (S nt)) iref aw.
Proof.
  intros (Hnt & Hlt & Huniq & Hrefs & Hiref).
  assert (∀ t, t ∈ (ts ++ [mkTimer nt Interval 2000 CbPoll])
                   ++ [mkTimer (S nt) Timeout 300000 (CbTimeout r nt)] →
               (t ∈ ts ∧ (timer_id t < nt)%nat) ∨
               t = mkTimer nt Interval 2000 CbPoll ∨
               t = mkTimer (S nt) Timeout 300000 (CbTimeout r nt)) as Hcase.
  { intros t Ht. apply elem_of_app in Ht as [Ht|Ht].
    - apply elem_of_app in Ht as [Ht|Ht]; [left; auto|].
      apply list_elem_of_singleton in Ht. right. left. exact Ht.
    - apply list_elem_of_singleton in Ht. right. right. exact Ht. }
  split; [lia|]. split; [|split; [|split]].
  - intros t Ht. destruct (Hcase t Ht) as [[_ Hl]|[->| ->]]; simpl; lia.
  - intros t t' Ht Ht' Hid.
    destruct (Hcase t Ht) as [[Hin Hl]|[->| ->]];
      destruct (Hcase t' Ht') as [[Hin' Hl']|[->| ->]];
      simpl in *; try lia; auto.
  - intros pid Hpid.
    assert ((pid ∈ timerRefs ts ++ pendingRefs aw) ∨ pid = nt) as [Hold| ->].
    { apply elem_of_app in Hpid as [Hpid|Hpid];
        [|left; apply elem_of_app; right; exact Hpid].
      apply elem_of_timerRefs in Hpid as (t & Ht & Hcb).
      destruct (Hcase t Ht) as [[Hin _]|[->| ->]]; simpl in Hcb.
      - left. apply elem_of_app. left. apply elem_of_timerRefs.
        exists t. split; assumption.
      - destruct Hcb as [[_ ->]|[r' Hcb]]; [right; reflexivity|discriminate].
      - destruct Hcb as [[Hcb _]|[r' [= _ ->]]]; [discriminate|].
        right. reflexivity. }
    + destruct (Hrefs pid Hold) as [Hl Hnp]. split; [lia|].
      intros t Ht Hid. destruct (Hcase t Ht) as [[Hin _]|[->| ->]];
        [auto|reflexivity|reflexivity].
    + split; [lia|]. intros t Ht Hid.
      destruct (Hcase t Ht) as [[Hin Hl]|[->| ->]];
        [lia|reflexivity|reflexivity].
  - intros id Hid. destruct (Hiref id Hid) as [Hl Hp]. split; [lia|].
    intros t Ht Hidt. destruct (Hcase t Ht) as [[Hin _]|[->| ->]];
      [auto|simpl in Hidt; lia|simpl in Hidt; lia].
Qed.

Lemma progress_filter (P : Timer → Prop) `{∀ t, Decision (P t)}
    (ts : list Timer) :
  filter (fun t => isProgress t = true) (filter P ts)
  = filter P (filter (fun t => isProgress t = true) ts).
Proof.
  induction ts as [|t ts IH]; [reflexivity|].
  destruct (decide (P t)) as [HP|HP];
    destruct (decide (isProgress t = true)) as [Hp|Hp].
  - rewrite (filter_cons_True P), !(filter_cons_True (λ t, isProgress t = true)),
      (filter_cons_True P), IH by assumption. reflexivity.
  - rewrite (filter_cons_True P), !(filter_cons_False (λ t, isProgress t = true)),
      IH by assumption. reflexivity.
  - rewrite (filter_cons_False P), (filter_cons_True (λ t, isProgress t = true)),
      (filter_cons_False P), IH by assumption. reflexivity.
  - rewrite (filter_cons_False P), (filter_cons_False (λ t, isProgress t = true)),
      IH by assumption. reflexivity.
Qed.

(** Clearing a timer that is not a progress timer. *)
Lemma playIntervalOf_clear_other ts iref playing x :
  (∀ t, t ∈ ts → timer_id t = x → isProgress t = false) →
  playIntervalOf ts iref playing →
  playIntervalOf (filter (fun t => timer_id t ≠ x) ts) iref playing.
Proof.
  intros Hx. unfold playIntervalOf. rewrite progress_filter.
  destruct playing.
  - intros (id & r & Hid & Hp). exists id, r. split; [exact Hid|].
    rewrite Hp. rewrite filter_cons_True; [reflexivity|].
    simpl. intros <-.
    assert (mkTimer id Interval 100 (CbUpdateProgress r) ∈ ts) as Hin.
    { assert (mkTimer id Interval 100 (CbUpdateProgress r)
              ∈ filter (λ t, isProgress t = true) ts) as Hin
        by (rewrite Hp; left).
      apply list_elem_of_filter in Hin. tauto. }
    specialize (Hx _ Hin eq_refl). discriminate.
  - intros ->. reflexivity.
Qed.

(** [if (intervalRef.current) clearInterval(intervalRef.current)] stops the
    progress timer. *)
Lemma playIntervalOf_stop ts nt iref aw playing :
  timersOkOf ts nt iref aw →
  playIntervalOf ts iref playing →
  playIntervalOf (match truthyId iref with
                  | Some id => filter (fun t => timer_id t ≠ id) ts
                  | None => ts
                  end) iref false.
Proof.
  intros (_ & _ & _ & _ & Hiref). unfold playIntervalOf. destruct playing.
  - intros (id & r & -> & Hp). destruct (Hiref id eq_refl) as [Hl _].
    destruct id as [|id]; [lia|]. simpl.
    rewrite progress_filter, Hp.
    rewrite filter_cons_False; [reflexivity|]. simpl. tauto.
  - intros Hp. destruct (truthyId iref); [|exact Hp].
    rewrite progress_filter, Hp. reflexivity.
Qed.

Lemma playIntervalOf_play ts iref nt r :
  playIntervalOf ts iref false →
  playIntervalOf (ts ++ [mkTimer nt Interval 100 (CbUpdateProgress r)])
                 (Some nt) true.
Proof.
  unfold playIntervalOf. intros Hp. exists nt, r. split; [reflexivity|].
  rewrite filter_app, Hp. reflexivity.
Qed.

Lemma playIntervalOf_polls ts iref playing nt r :
  playIntervalOf ts iref playing →
  playIntervalOf ((ts ++ [mkTimer nt Interval 2000 CbPoll])
                  ++ [mkTimer (S nt) Timeout 300000 (CbTimeout r nt)])
                 iref playing.
Proof.
  unfold playIntervalOf. rewrite !filter_app.
  change (filter (λ t, isProgress t = true) [mkTimer nt Interval 2000 CbPoll])
    with (@nil Timer).
  change (filter (λ t, isProgress t = true)
            [mkTimer (S nt) Timeout 300000 (CbTimeout r nt)])
    with (@nil Timer).
  rewrite !app_nil_r. tauto.
Qed.

(** *** The handlers keep the timer table well formed *)

Lemma ok_same (p q : Player) :
  timers q = timers p → nextTimer q = nextTimer p →
  intervalRef q = intervalRef p → awaiting q = awaiting p →
  isPlaying (cells q) = isPlaying (cells p) →
  timersOk p ∧ playInterval p → timersOk q ∧ playInterval q.
Proof.
  unfold timersOk, playInterval. intros -> -> -> -> ->. tauto.
Qed.

Lemma ok_clear (x : nat) (p : Player) :
  (∀ t, t ∈ timers p → timer_id t = x → isProgress t = false) →
  timersOk p ∧ playInterval p →
  timersOk (removeTimer x p) ∧ playInterval (removeTimer x p).
Proof.
  intros Hx [Hok Hplay]. split.
  - apply timersOkOf_filter. exact Hok.
  - apply playIntervalOf_clear_other; assumption.
Qed.

Lemma ok_request (q : Request) (k : Pending) (p : Player) :
  (∀ pid, k = AwaitStatus pid →
          (pid < nextTimer p)%nat ∧
          ∀ t, t ∈ timers p → timer_id t = pid → isProgress t = false) →
  timersOk p ∧ playInterval p →
  timersOk (request q k p) ∧ playInterval (request q k p).
Proof.
  intros Hk [Hok Hplay]. split; [|exact Hplay].
  apply timersOkOf_await; assumption.
Qed.

Lemma ok_resume (k : nat) (p : Player) :
  timersOk p ∧ playInterval p →
  timersOk (resume k p) ∧ playInterval (resume k p).
Proof.
  intros [Hok Hplay]. split; [|exact Hplay].
  apply timersOkOf_delete. exact Hok.
Qed.

Lemma ok_clearIntervalRef_stop (p : Player) :
  timersOk p ∧ playInterval p →
  timersOk (setIsPlaying false (clearIntervalRef p))
  ∧ playInterval (setIsPlaying false (clearIntervalRef p)).
Proof.
  intros [Hok Hplay].
  pose proof (playIntervalOf_stop _ _ _ _ _ Hok Hplay) as Hstop.
  unfold clearIntervalRef, clearInterval.
  destruct (truthyId (intervalRef p)) as [id|]; split;
    try exact Hstop; try exact Hok.
  apply timersOkOf_filter. exact Hok.
Qed.

Lemma ok_play (r : Render) (p : Player) :
  isPlaying (cells p) = false →
  timersOk p ∧ playInterval p →
  let q := setIsPlaying true
             (setIntervalRef (Some (nextTimer p))
                (snd (setInterval (CbUpdateProgress r) 100 p))) in
  timersOk q ∧ playInterval q.
Proof.
  intros Hnp [Hok Hplay]. split.
  - apply timersOkOf_play with (iref := intervalRef p). exact Hok.
  - unfold playInterval in Hplay. rewrite Hnp in Hplay.
    apply playIntervalOf_play with (iref := intervalRef p). exact Hplay.
Qed.

Lemma updateProgress_ok (r : Render) (p : Player) :
  timersOk p ∧ playInterval p →
  timersOk (updateProgress r p) ∧ playInterval (updateProgress r p).
Proof.
  intros H. unfold updateProgress.
  destruct (audioRef p), (lyricsOf (karaokeData r)); try exact H.
  cbv zeta. destruct (_ && _); exact H.
Qed.

Lemma handlePlayPause_ok (r : Render) (p : Player) :
  isPlaying r = isPlaying (cells p) →
  timersOk p ∧ playInterval p →
  timersOk (handlePlayPause r p) ∧ playInterval (handlePlayPause r p).
Proof.
  intros Hr H. unfold handlePlayPause.
  destruct (audioRef p) as [audio|]; [|exact H].
  destruct (karaokeData r); [|exact H].
  destruct (isPlaying r) eqn:Hp.
  - apply (ok_same (setIsPlaying false
                      (clearIntervalRef (setAudioRef (Some (audio_pause audio)) p)))).
    1-5: reflexivity.
    apply ok_clearIntervalRef_stop. exact H.
  - pose proof (ok_play r (setAudioRef (Some (audio_play audio)) p)
                  (eq_sym Hr) H) as Hq.
    exact Hq.
Qed.

Lemma handleLyricClick_ok (r : Render) (word : Word) (i : Z) (p q : Player) :
  isPlaying r = isPlaying (cells p) →
  timersOk p ∧ playInterval p →
  handleLyricClick r word i p = Some q →
  timersOk q ∧ playInterval q.
Proof.
  intros Hr H. unfold handleLyricClick.
  destruct (audioRef p) as [audio|] eqn:Ha; [|intros [= <-]; exact H].
  destruct (audio_setCurrentTime _ audio) as [audio'|]; [|discriminate].
  simpl. destruct (isPlaying r) eqn:Hp; simpl; intros [= <-].
  - exact H.
  - set (p1 := setAutoScrollEnabled true
                 (setCurrentWordIndex i
                    (setCurrentTime (start word - syncOffset r)%float
                       (setAudioRef (Some audio') p)))).
    pose proof (ok_play r (setAudioRef (audio_play <$> audioRef p1) p1)
                  (eq_sym Hr) H) as Hq.
    exact Hq.
Qed.

Lemma onEnded_ok (p : Player) :
  timersOk p ∧ playInterval p →
  timersOk (onEnded p) ∧ playInterval (onEnded p).
Proof.
  intros H. unfold onEnded.
  apply (ok_same (setIsPlaying false (clearIntervalRef p))).
  1-5: unfold clearIntervalRef; simpl;
       destruct (truthyId (intervalRef p)); reflexivity.
  apply ok_clearIntervalRef_stop. exact H.
Qed.

Lemma commit_ok (p : Player) :
  timersOk p ∧ playInterval p → timersOk (commit p) ∧ playInterval (commit p).
Proof.
  intros H. unfold commit.
  destruct (loadedView (cells p)); [destruct (audioRef p)|]; exact H.
Qed.

(** A timer that fires as a timeout is no progress timer, and no progress
    timer has its identifier. *)
Lemma timeout_not_progress (p : Player) (t : Timer) :
  timersOk p ∧ playInterval p →
  t ∈ timers p → timer_kind t = Timeout →
  ∀ t', t' ∈ timers p → timer_id t' = timer_id t → isProgress t' = false.
Proof.
  intros [(_ & _ & Huniq & _ & _) Hplay] Ht Hkind t' Ht' Hid.
  destruct (isProgress t') eqn:Hp'; [|reflexivity].
  assert (isProgress t = true) as Hp.
  { unfold isProgress in *. rewrite <- (Huniq t' t Ht' Ht Hid). exact Hp'. }
  assert (t ∈ filter (λ t, isProgress t = true) (timers p)) as Hin
    by (apply list_elem_of_filter; split; assumption).
  unfold playInterval, playIntervalOf in Hplay.
  destruct (isPlaying (cells p)).
  - destruct Hplay as (id & r & _ & Heq). rewrite Heq in Hin.
    apply list_elem_of_singleton in Hin. subst t. discriminate.
  - rewrite Hplay in Hin. inversion Hin.
Qed.

Lemma pollRef_not_progress (p : Player) (pid : nat) :
  timersOk p →
  pid ∈ timerRefs (timers p) ++ pendingRefs (awaiting p) →
  (pid < nextTimer p)%nat ∧
  ∀ t, t ∈ timers p → timer_id t = pid → isProgress t = false.
Proof. intros (_ & _ & _ & Hrefs & _). apply Hrefs. Qed.

Lemma step_ok (p : Player) (e : Event) (q : Player) :
  timersOk p ∧ playInterval p → step p e = Some q →
  timersOk q ∧ playInterval q.
Proof.
  intros H Hstep. destruct e as [id|k reply|]; simpl in Hstep.
  - destruct (findTimer id p) as [t|] eqn:Ht; [|discriminate].
    simpl in Hstep. injection Hstep as <-.
    apply findTimer_Some in Ht as [Ht Hid].
    set (p1 := match timer_kind t with
               | Interval => p
               | Timeout => removeTimer id p
               end).
    assert (timersOk p1 ∧ playInterval p1) as H1.
    { subst p1. destruct (timer_kind t) eqn:Hkind; [exact H|].
      apply ok_clear; [|exact H]. rewrite <- Hid.
      apply timeout_not_progress; assumption. }
    assert (∀ t', t' ∈ timers p1 → t' ∈ timers p) as Hsub.
    { subst p1. destruct (timer_kind t); [auto|].
      intros t' Ht'. apply list_elem_of_filter in Ht'. tauto. }
    assert (nextTimer p1 = nextTimer p) as Hnt
      by (subst p1; destruct (timer_kind t); reflexivity).
    clearbody p1.
    destruct (timer_callback t) as [r| |r pid] eqn:Hcb; simpl.
    + apply updateProgress_ok. exact H1.
    + apply ok_request; [|exact H1]. intros pid [= <-].
      destruct (pollRef_not_progress p id (proj1 H)) as [Hl Hnp].
      { apply elem_of_app. left. apply elem_of_timerRefs. exists t.
        split; [exact Ht|]. left. split; [exact Hcb|]. symmetry. exact Hid. }
      split; [lia|]. intros t' Ht'. apply Hnp, Hsub, Ht'.
    + assert (timersOk (clearInterval pid p1)
              ∧ playInterval (clearInterval pid p1)) as H2.
      { apply ok_clear; [|exact H1].
        destruct (pollRef_not_progress p pid (proj1 H)) as [Hl Hnp].
        { apply elem_of_app. left. apply elem_of_timerRefs. exists t.
          split; [exact Ht|]. right. exists r. exact Hcb. }
        intros t' Ht'. apply Hnp, Hsub, Ht'. }
      unfold pollTimeout. destruct (isProcessing r); exact H2.
  - destruct (awaiting p !! k) as [pending|] eqn:Hk; [|discriminate].
    simpl in Hstep.
    pose proof (ok_resume k p H) as H1.
    destruct pending as [r|r|pid|], reply as [resp|resp|resp];
      try discriminate; injection Hstep as <-.
    + unfold processSong_cached. destruct resp as [data|st detail]; [exact H1|].
      destruct (bool_decide (st = Some 404)); [|exact H1].
      apply ok_request; [|exact H1]. intros pid Hpid. discriminate.
    + unfold processSong_started. destruct resp as [[]|st detail]; [|exact H1].
      destruct H1 as [Hok Hplay]. split.
      * apply timersOkOf_polls. exact Hok.
      * apply playIntervalOf_polls. exact Hplay.
    + assert (timersOk (clearInterval pid (resume k p))
              ∧ playInterval (clearInterval pid (resume k p))) as H2.
      { apply ok_clear; [|exact H1].
        destruct (pollRef_not_progress p pid (proj1 H)) as [Hl Hnp];
          [|exact Hnp].
        apply elem_of_app. right. apply elem_of_pendingRefs.
        eapply list_elem_of_lookup_2. exact Hk. }
      unfold poll_status. destruct resp as [data|st detail]; [|exact H1].
      destruct (String.eqb (status data) "ready").
      * apply ok_request; [|exact H2]. intros pid' Hpid. discriminate.
      * destruct (_ || _); [exact H2|exact H1].
    + unfold poll_result. destruct resp; exact H1.
  - destruct (bool_decide _); [|discriminate]. injection Hstep as <-.
    unfold processSong. apply ok_request; [|exact H].
    intros pid Hpid. discriminate.
Qed.

Lemma handle_ok (p : Player) (e : UiEvent) (q : Player) :
  timersOk p ∧ playInterval p → handle p e = Some q →
  timersOk q ∧ playInterval q.
Proof.
  intros H Hh.
  destruct e as [e| |stale code|i|x l w|t| | |d| |rect wh]; simpl in Hh.
  - eapply step_ok; eassumption.
  - destruct (loadedView (cells p)); [|discriminate]. injection Hh as <-.
    apply handlePlayPause_ok; [reflexivity|exact H].
  - injection Hh as <-. unfold handleKeyPress.
    destruct (_ && _); [|exact H]. simpl.
    apply handlePlayPause_ok; [reflexivity|exact H].
  - destruct (loadedView (cells p)); [|discriminate].
    destruct (lyricsOf (karaokeData (cells p))) as [lyrics|]; [|discriminate].
    simpl in Hh. destruct (lyrics !! i) as [word|]; [|discriminate].
    injection Hh as <-. unfold onClickWord.
    destruct (handleLyricClick _ _ _ p) as [q|] eqn:Hq; [|exact H].
    eapply handleLyricClick_ok; [reflexivity|exact H|exact Hq].
  - destruct (loadedView (cells p)); [|discriminate]. injection Hh as <-.
    unfold handleProgressClick. destruct (audioRef p) as [audio|]; [|exact H].
    destruct (falsyNumber _); [exact H|].
    destruct (audio_setCurrentTime _ audio); exact H.
  - destruct (audioRef p); [|discriminate]. injection Hh as <-. exact H.
  - destruct (loadedView (cells p)); [|discriminate]. injection Hh as <-.
    apply updateProgress_ok. exact H.
  - destruct (loadedView (cells p)); [|discriminate]. injection Hh as <-.
    apply onEnded_ok. exact H.
  - destruct (loadedView (cells p)); [|discriminate].
    destruct (audioRef p); [|discriminate]. injection Hh as <-. exact H.
  - injection Hh as <-. unfold handleScroll.
    destruct (autoScrollEnabled (cells p)); exact H.
  - injection Hh as <-. unfold autoScrollEffect.
    destruct (currentWordRefOf (cells p) rect); [|exact H].
    cbv zeta. destruct (_ && _); [exact H|].
    destruct (autoScrollEnabled (cells p)); exact H.
Qed.

Lemma uiRun_ok (es : list UiEvent) : ∀ p q,
  timersOk p ∧ playInterval p → uiRun p es = Some q →
  timersOk q ∧ playInterval q.
Proof.
  induction es as [|e es IH]; intros p q H Hrun; simpl in Hrun.
  - injection Hrun as <-. exact H.
  - unfold uiStep in Hrun.
    destruct (handle p e) as [p1|] eqn:Hh; [|discriminate]. simpl in Hrun.
    eapply IH; [|exact Hrun]. apply commit_ok. eapply handle_ok; eassumption.
Qed.

Lemma mounted_ok : timersOk mounted ∧ playInterval mounted.
Proof.
  split.
  - split; [simpl; lia|]. split; [|split; [|split]].
    + intros t Ht. inversion Ht.
    + intros t t' Ht. inversion Ht.
    + intros pid Hpid. inversion Hpid.
    + intros id Hid. discriminate.
  - reflexivity.
Qed.

(** X9: in every state the mounted component can reach, [isPlaying] tells
    whether a progress timer runs: while it is set there is exactly one
    timer running [updateProgress], an interval of 100 ms whose non-zero
    identifier is in [intervalRef.current]; while it is not set there is
    none. No handler starts a second progress interval or loses the
    identifier of a running one. *)
Theorem play_interval_invariant (es : list UiEvent) (p : Player) :
  uiRun mounted es = Some p →
  if isPlaying (cells p) then
    ∃ id r, intervalRef p = Some id ∧ id ≠ 0%nat ∧
            progressTimers p = [mkTimer id Interval 100 (CbUpdateProgress r)]
  else progressTimers p = [].
Proof.
  intros Hrun.
  destruct (uiRun_ok es mounted p mounted_ok Hrun) as [Hok Hplay].
  unfold playInterval, playIntervalOf in Hplay. unfold progressTimers.
  destruct (isPlaying (cells p)); [|exact Hplay].
  destruct Hplay as (id & r & Hid & Hp). exists id, r.
  split; [exact Hid|]. split; [|exact Hp].
  destruct Hok as (_ & _ & _ & _ & Hiref).
  destruct (Hiref id Hid) as [Hl _]. lia.
Qed.

Lemma play_interval_invariant_witness :
  ∃ p, uiRun mounted scenario_session = Some p ∧
       isPlaying (cells p) = true ∧
       ∃ id r, intervalRef p = Some id ∧ id ≠ 0%nat ∧
               progressTimers p = [mkTimer id Interval 100 (CbUpdateProgress r)].
Proof.
  assert (∃ p, uiRun mounted scenario_session = Some p ∧
               isPlaying (cells p) = true) as (p & Hrun & Hplaying)
    by (vm_compute; eexists; split; reflexivity).
  exists p. split; [exact Hrun|]. split; [exact Hplaying|].
  pose proof (play_interval_invariant scenario_session p Hrun) as H.
  rewrite Hplaying in H. exact H.
Defined.

Lemma filter_not_progress (ts : list Timer) :
  filter (fun t => isProgress t = true) ts = [] →
  filter (fun t => isProgress t = false) ts = ts.
Proof.
  induction ts as [|t ts IH]; [reflexivity|]. intros Hp.
  destruct (isProgress t) eqn:Ht.
  - rewrite filter_cons_True in Hp by exact Ht. discriminate.
  - rewrite filter_cons_False in Hp by congruence.
    rewrite filter_cons_True by exact Ht. rewrite IH by exact Hp. reflexivity.
Qed.

Lemma filter_agree {A : Type} (P Q : A → Prop) `{∀ x, Decision (P x)}
    `{∀ x, Decision (Q x)} (l : list A) :
  (∀ x, x ∈ l → (P x ↔ Q x)) → filter P l = filter Q l.
Proof.
  induction l as [|x l IH]; [reflexivity|]. intros Hpq.
  assert (filter P l = filter Q l) as Hl
    by (apply IH; intros y Hy; apply Hpq; right; exact Hy).
  destruct (decide (P x)) as [HP|HP].
  - rewrite !filter_cons_True, Hl; [reflexivity| |exact HP].
    apply Hpq; [left|exact HP].
  - rewrite !filter_cons_False, Hl; [reflexivity| |exact HP].
    intros HQ. apply HP, Hpq; [left|exact HQ].
Qed.

(** X10: the cleanup of the mount effect clears [intervalRef.current]
    only: in every state the mounted component can reach, unmounting
    removes the progress timer, if there is one, and no other timer. A
    polling interval and its timeout stay in the table and go on firing. *)
Theorem unmount_clears_progress_only (es : list UiEvent) (p : Player) :
  uiRun mounted es = Some p →
  timers (unmount p) = filter (fun t => isProgress t = false) (timers p) ∧
  ∀ id t, findTimer id p = Some t → isProgress t = false →
          findTimer id (unmount p) = Some t.
Proof.
  intros Hrun.
  destruct (uiRun_ok es mounted p mounted_ok Hrun) as [Hok Hplay].
  assert (timers (unmount p)
          = filter (fun t => isProgress t = false) (timers p)) as Heq.
  { destruct Hok as (_ & _ & _ & _ & Hiref).
    unfold playInterval, playIntervalOf in Hplay.
    unfold unmount, clearIntervalRef.
    destruct (intervalRef p) as [id|] eqn:Hid.
    - destruct (Hiref id eq_refl) as [Hl Hprog].
      destruct id as [|id]; [lia|]. simpl.
      apply filter_agree. intros t Ht. split.
      + intros Hne. destruct (isProgress t) eqn:Hp; [|reflexivity].
        exfalso. apply Hne.
        assert (t ∈ filter (λ t, isProgress t = true) (timers p)) as Hin
          by (apply list_elem_of_filter; split; assumption).
        destruct (isPlaying (cells p)).
        * destruct Hplay as (id' & r & [= <-] & Hpt). rewrite Hpt in Hin.
          apply list_elem_of_singleton in Hin as ->. reflexivity.
        * rewrite Hplay in Hin. inversion Hin.
      + intros Hnp Hidt. rewrite (Hprog t Ht Hidt) in Hnp. discriminate.
    - simpl. destruct (isPlaying (cells p)).
      + destruct Hplay as (id & r & [=] & _).
      + symmetry. apply filter_not_progress. exact Hplay. }
  split; [exact Heq|].
  intros id t Hfind Hnp. unfold findTimer in *. rewrite Heq.
  destruct Hok as (_ & _ & Huniq & _ & _).
  apply findTimer_Some in Hfind as Hin. destruct Hin as [Hin Hidt].
  rewrite list_filter_filter.
  rewrite (filter_agree (λ t0, timer_id t0 = id ∧ isProgress t0 = false)
             (λ t0, timer_id t0 = id) (timers p)); [exact Hfind|].
  intros t' Ht'. split; [tauto|]. intros Hidt'. split; [exact Hidt'|].
  unfold isProgress in *.
  rewrite (Huniq t' t Ht' Hin); [exact Hnp|congruence].
Qed.

Lemma unmount_clears_progress_only_witness :
  ∃ p, uiRun mounted scenario_reprocessing = Some p ∧
       timer_id <$> timers p = [3; 4; 5]%nat ∧
       timer_id <$> timers (unmount p) = [3; 4]%nat ∧
       timer_callback <$> findTimer 3 (unmount p) = Some CbPoll.
Proof.
  assert (∃ p, uiRun mounted scenario_reprocessing = Some p ∧
               timer_id <$> timers p = [3; 4; 5]%nat ∧
               timer_id <$> filter (fun t => isProgress t = false) (timers p)
               = [3; 4]%nat ∧
               ∃ t, findTimer 3 p = Some t ∧ isProgress t = false ∧
                    timer_callback t = CbPoll)
    as (p & Hrun & Hids & Hleft & t & Ht & Hnp & Hcb)
    by (vm_compute; eexists; repeat split; eexists; repeat split).
  destruct (unmount_clears_progress_only scenario_reprocessing p Hrun)
    as [Heq Hfind].
  exists p. split; [exact Hrun|]. split; [exact Hids|].
  split; [rewrite Heq; exact Hleft|].
  rewrite (Hfind 3%nat t Ht Hnp). simpl. rewrite Hcb. reflexivity.
Defined.

(** ** The processing side under all events *)

Lemma sameProcessing_refl p : sameProcessing p p.
Proof. repeat split. Qed.

Lemma handlePlayPause_sameProcessing r p :
  sameProcessing p (handlePlayPause r p).
Proof.
  unfold handlePlayPause.
  destruct (audioRef p); [|apply sameProcessing_refl].
  destruct (karaokeData r); [|apply sameProcessing_refl].
  destruct (isPlaying r); [|repeat split].
  unfold clearIntervalRef. simpl.
  destruct (truthyId (intervalRef p)); repeat split.
Qed.

Lemma updateProgress_sameProcessing r p :
  sameProcessing p (updateProgress r p).
Proof.
  unfold updateProgress.
  destruct (audioRef p); [|apply sameProcessing_refl].
  destruct (lyricsOf (karaokeData r)); [|apply sameProcessing_refl].
  cbv zeta. destruct (_ && _); repeat split.
Qed.

(** The events of the user and of the audio element, and the commit of a
    render, leave the processing side alone. *)
Lemma handle_sameProcessing p e q :
  handle p e = Some q → (∀ b, e ≠ Browser b) → sameProcessing p q.
Proof.
  intros Hh Hne.
  destruct e as [e| |stale code|i|x l w|t| | |d| |rect wh]; simpl in Hh.
  - destruct (Hne e eq_refl).
  - destruct (loadedView (cells p)); [|discriminate]. injection Hh as <-.
    apply handlePlayPause_sameProcessing.
  - injection Hh as <-. unfold handleKeyPress.
    destruct (_ && _); [|apply sameProcessing_refl]. simpl.
    apply handlePlayPause_sameProcessing.
  - destruct (loadedView (cells p)); [|discriminate].
    destruct (lyricsOf (karaokeData (cells p))) as [lyrics|]; [|discriminate].
    simpl in Hh. destruct (lyrics !! i) as [word|]; [|discriminate].
    injection Hh as <-. unfold onClickWord, handleLyricClick.
    destruct (audioRef p) as [audio|]; [|apply sameProcessing_refl].
    destruct (audio_setCurrentTime _ audio); [|apply sameProcessing_refl].
    simpl. destruct (isPlaying (cells p)); repeat split.
  - destruct (loadedView (cells p)); [|discriminate]. injection Hh as <-.
    unfold handleProgressClick.
    destruct (audioRef p) as [audio|]; [|apply sameProcessing_refl].
    destruct (falsyNumber _); [apply sameProcessing_refl|].
    destruct (audio_setCurrentTime _ audio); repeat split.
  - destruct (audioRef p); [|discriminate]. injection Hh as <-. repeat split.
  - destruct (loadedView (cells p)); [|discriminate]. injection Hh as <-.
    apply updateProgress_sameProcessing.
  - destruct (loadedView (cells p)); [|discriminate]. injection Hh as <-.
    unfold onEnded, clearIntervalRef. simpl.
    destruct (truthyId (intervalRef p)); repeat split.
  - destruct (loadedView (cells p)); [|discriminate].
    destruct (audioRef p); [|discriminate]. injection Hh as <-. repeat split.
  - injection Hh as <-. unfold handleScroll.
    destruct (autoScrollEnabled (cells p)); repeat split.
  - injection Hh as <-. unfold autoScrollEffect.
    destruct (currentWordRefOf (cells p) rect); [|apply sameProcessing_refl].
    cbv zeta. destruct (_ && _); [repeat split|].
    destruct (autoScrollEnabled (cells p)); repeat split.
Qed.

Lemma commit_sameProcessing p : sameProcessing p (commit p).
Proof.
  unfold commit.
  destruct (loadedView (cells p)); [destruct (audioRef p)|]; repeat split.
Qed.

(** *** Requests *)








(** *** The cells of the processing side *)

Lemma orElse_nonempty (detail : option string) (fallback : string) :
  fallback ≠ "" → orElse detail fallback ≠ "".
Proof.
  intros Hf. unfold orElse. destruct detail as [[|a s]|]; simpl; congruence.
Qed.

Lemma errorMsg_nonempty (d : StatusData) : errorMsg d ≠ "".
Proof.
  unfold errorMsg. destruct (status_error d) as [[|a s]|]; simpl;
    try (apply orElse_nonempty; discriminate). discriminate.
Qed.

Lemma userFriendlyError_nonempty (msg : string) :
  msg ≠ "" → userFriendlyError msg ≠ "".
Proof.
  intros Hm. unfold userFriendlyError.
  destruct (_ || _); [discriminate|].
  destruct (includes msg "Failed to convert"); [discriminate|].
  destruct (_ || _); [discriminate|exact Hm].
Qed.

(** One event of the browser side sets [error] to a string that is not
    empty or to [null], sets [isProcessing] to [false] only, and sets
    [karaokeData] to a song only. *)
Lemma step_cells p e q :
  step p e = Some q →
  ((∀ msg, error (cells p) = Some msg → msg ≠ "") →
   ∀ msg, error (cells q) = Some msg → msg ≠ "") ∧
  (isProcessing (cells p) = false → isProcessing (cells q) = false) ∧
  (is_Some (karaokeData (cells p)) → is_Some (karaokeData (cells q))).
Proof.
  intros Hstep. destruct e as [id|k reply|]; simpl in Hstep.
  - destruct (findTimer id p) as [t|]; [|discriminate].
    simpl in Hstep. injection Hstep as <-.
    set (p1 := match timer_kind t with
               | Interval => p
               | Timeout => removeTimer id p
               end).
    assert (cells p1 = cells p) as Hc
      by (subst p1; destruct (timer_kind t); reflexivity).
    clearbody p1. rewrite <- Hc.
    destruct (timer_callback t) as [r| |r pid]; simpl.
    + destruct (updateProgress_sameProcessing r p1) as (_ & _ & -> & -> & ->).
      tauto.
    + tauto.
    + unfold pollTimeout. destruct (isProcessing r); simpl; [|tauto].
      split; [intros _ msg [= <-]; discriminate|]. split; [reflexivity|tauto].
  - destruct (awaiting p !! k) as [pending|] eqn:Hk; [|discriminate].
    simpl in Hstep.
    destruct pending as [r|r|pid|], reply as [resp|resp|resp];
      try discriminate; injection Hstep as <-.
    + unfold processSong_cached. destruct resp as [data|st detail]; simpl.
      * split; [tauto|]. split; [reflexivity|]. intros _. eexists. reflexivity.
      * destruct (bool_decide (st = Some 404)); simpl; [tauto|].
        split; [|split; [reflexivity|tauto]].
        intros _ msg [= <-]. apply orElse_nonempty. discriminate.
    + unfold processSong_started. destruct resp as [[]|st detail]; simpl;
        [tauto|].
      split; [|split; [reflexivity|tauto]].
      intros _ msg [= <-]. apply orElse_nonempty. discriminate.
    + unfold poll_status. destruct resp as [data|st detail]; simpl; [|tauto].
      destruct (String.eqb (status data) "ready"); simpl; [tauto|].
      destruct (_ || _); simpl; [|tauto].
      split; [|split; [reflexivity|tauto]].
      intros _ msg [= <-]. apply userFriendlyError_nonempty, errorMsg_nonempty.
    + unfold poll_result. destruct resp as [data|st detail]; simpl; [|tauto].
      split; [tauto|]. split; [reflexivity|]. intros _. eexists. reflexivity.
  - destruct (bool_decide _); [|discriminate]. injection Hstep as <-. simpl.
    split; [intros _ msg; discriminate|]. tauto.
Qed.

Lemma uiRun_cells es : ∀ p q,
  uiRun p es = Some q →
  ((∀ msg, error (cells p) = Some msg → msg ≠ "") →
   ∀ msg, error (cells q) = Some msg → msg ≠ "") ∧
  (isProcessing (cells p) = false → isProcessing (cells q) = false) ∧
  (is_Some (karaokeData (cells p)) → is_Some (karaokeData (cells q))).
Proof.
  induction es as [|e es IH]; intros p q Hrun; simpl in Hrun.
  - injection Hrun as <-. tauto.
  - unfold uiStep in Hrun.
    destruct (handle p e) as [p1|] eqn:Hh; [|discriminate]. simpl in Hrun.
    destruct (IH _ _ Hrun) as (He & Hp & Hk).
    destruct (commit_sameProcessing p1) as (_ & _ & Hce & Hck & Hcp).
    rewrite Hce in He. rewrite Hcp in Hp. rewrite Hck in Hk.
    assert (((∀ msg, error (cells p) = Some msg → msg ≠ "") →
             ∀ msg, error (cells p1) = Some msg → msg ≠ "") ∧
            (isProcessing (cells p) = false → isProcessing (cells p1) = false) ∧
            (is_Some (karaokeData (cells p)) → is_Some (karaokeData (cells p1))))
      as (He1 & Hp1 & Hk1).
    { assert ((∃ b, e = Browser b) ∨ ∀ b, e ≠ Browser b) as [[b ->]|Hne]
        by (destruct e; eauto; right; discriminate).
      - apply step_cells with (e := b). exact Hh.
      - destruct (handle_sameProcessing p e p1 Hh Hne)
          as (_ & _ & -> & -> & ->). tauto. }
    tauto.
Qed.

(** X12: whatever happens to the mounted component, [error] is [null] or a
    string that is not empty: the error block, rendered under [error &&]
    with its "Try Again" button, is on screen whenever an error is set. *)
Theorem error_never_empty (es : list UiEvent) (p : Player) (msg : string) :
  uiRun mounted es = Some p → error (cells p) = Some msg → msg ≠ "".
Proof.
  intros Hrun. destruct (uiRun_cells es mounted p Hrun) as (He & _ & _).
  apply He. intros m. discriminate.
Qed.

Lemma error_never_empty_witness :
  ∃ p, uiRun mounted
         [Browser (Arrives 0 (ReplyKaraoke (Rejected (Some 500) (Some ""))))]
       = Some p ∧
       error (cells p) = Some "Failed to load karaoke data" ∧
       "Failed to load karaoke data" ≠ "".
Proof.
  assert (∃ p, uiRun mounted
                 [Browser (Arrives 0 (ReplyKaraoke (Rejected (Some 500) (Some ""))))]
               = Some p ∧
               error (cells p) = Some "Failed to load karaoke data")
    as (p & Hrun & Herr) by (vm_compute; eexists; split; reflexivity).
  exists p. split; [exact Hrun|]. split; [exact Herr|].
  exact (error_never_empty _ p _ Hrun Herr).
Defined.

(** X13: no event sets [isProcessing] to [true] or takes the song away:
    once the processing indicator is off it stays off (also during the
    processing that "Try Again" starts), and once the lyrics, the audio
    element and the controls are rendered they stay rendered. *)
Theorem processing_flag_never_raised (es : list UiEvent) (p q : Player) :
  uiRun p es = Some q →
  (isProcessing (cells p) = false → isProcessing (cells q) = false) ∧
  (is_Some (karaokeData (cells p)) → is_Some (karaokeData (cells q))) ∧
  (loadedView (cells p) = true → loadedView (cells q) = true).
Proof.
  intros Hrun. destruct (uiRun_cells es p q Hrun) as (_ & Hp & Hk).
  split; [exact Hp|]. split; [exact Hk|].
  unfold loadedView. intros Hl. apply andb_prop in Hl as [Hd Hn].
  apply bool_decide_eq_true in Hd. apply negb_true_iff in Hn.
  rewrite (Hp Hn). rewrite bool_decide_eq_true_2 by auto. reflexivity.
Qed.

Lemma processing_flag_never_raised_witness :
  ∃ p q, uiRun mounted (take 6 scenario_reprocessing) = Some p ∧
         uiRun p (drop 6 scenario_reprocessing) = Some q ∧
         loadedView (cells p) = true ∧
         loadedView (cells q) = true ∧ isProcessing (cells q) = false ∧
         (0 < length (timers q))%nat.
Proof.
  assert (∃ p q, uiRun mounted (take 6 scenario_reprocessing) = Some p ∧
                 uiRun p (drop 6 scenario_reprocessing) = Some q ∧
                 loadedView (cells p) = true ∧
                 isProcessing (cells p) = false ∧
                 (0 < length (timers q))%nat)
    as (p & q & Hp & Hq & Hl & Hn & Ht)
    by (vm_compute; do 2 eexists; repeat split; lia).
  destruct (processing_flag_never_raised _ p q Hq) as (Hflag & _ & Hview).
  exists p, q. split; [exact Hp|]. split; [exact Hq|]. split; [exact Hl|].
  split; [exact (Hview Hl)|]. split; [exact (Hflag Hn)|exact Ht].
Defined.

(** ** Auto-scroll *)

(** When the stored index is the position of no word, [currentWordRef] is
    attached to no line. *)
Lemma currentWordRefOf_none (r : Render) (lyrics : list Word) (rect : Rect) :
  lyricsOf (karaokeData r) = Some lyrics →
  currentWordIndex r < 0 ∨ Z.of_nat (length lyrics) <= currentWordIndex r →
  currentWordRefOf r rect = None.
Proof.
  intros Hl Hc. unfold currentWordRefOf.
  destruct (loadedView r); [|reflexivity].
  destruct (renderLyrics r) as [rendered|] eqn:Hr; [|reflexivity].
  destruct (existsb rl_ref rendered) eqn:He; [|reflexivity].
  exfalso. apply existsb_exists in He as (rl & Hin & Href).
  apply list_elem_of_In, list_elem_of_lookup in Hin as [k Hk].
  destruct (renderLyrics_lookup r lyrics rendered k rl Hl Hr Hk)
    as (line & _ & ->).
  pose proof (groupWordsIntoLines_concat_words r) as Hcat.
  rewrite Hl in Hcat. simpl in Hcat.
  rewrite currentLineIndexOf_none in Href.
  - simpl in Href. apply Z.eqb_eq in Href. lia.
  - intros x Hx. rewrite Hcat in Hx. apply lineWords_index_in in Hx. lia.
Qed.

(** X14: [autoScrollEnabled] is written and never acted on: whether the
    effect that follows a change of [currentWordIndex] calls
    [scrollIntoView] depends only on the current line being there and
    inside the viewport.
    A scroll of the user turns the flag off, and the next word change with
    the current line in view scrolls all the same and turns it back on;
    with no current line (the index is [-1] or beyond the lyrics) the
    effect does nothing. *)
Theorem auto_scroll_ignores_flag (r : Render) (p : Player) (rect : Rect)
    (windowHeight : float) :
  (∀ currentWord r' p',
     snd (autoScrollEffect r currentWord windowHeight p)
     = snd (autoScrollEffect r' currentWord windowHeight p')) ∧
  (geb (rect_top rect) 0 && (rect_bottom rect <=? windowHeight)%float = true →
   autoScrollEnabled (cells p) = true →
   let p1 := handleScroll (cells p) p in
   let '(p2, scrolled) :=
     autoScrollEffect (cells p1) (Some rect) windowHeight p1 in
   autoScrollEnabled (cells p1) = false ∧ scrolled = true ∧
   autoScrollEnabled (cells p2) = true) ∧
  (∀ lyrics,
     lyricsOf (karaokeData r) = Some lyrics →
     currentWordIndex r < 0 ∨ Z.of_nat (length lyrics) <= currentWordIndex r →
     autoScrollEffect r (currentWordRefOf r rect) windowHeight p = (p, false)).
Proof.
  split; [|split].
  - intros [x|] r' p'; [|reflexivity]. unfold autoScrollEffect. cbv zeta.
    destruct (_ && _); reflexivity.
  - intros Hin Hen. unfold handleScroll, autoScrollEffect. rewrite Hen.
    cbv zeta. rewrite Hin. repeat split.
  - intros lyrics Hl Hc. rewrite (currentWordRefOf_none r lyrics rect Hl Hc).
    reflexivity.
Qed.
